(** * A shallow embedding of [src/database/database.py]

    The module is a coordinate-driven dependency resolver written on top of
    pandas.  The embedding follows the Python text function by function.

    - A cell of a frame is a [value]; [VNone] and [VNaN] are the two missing
      markers recognised by [pd.isna].
    - A [DataFrame] is a list of column labels and a list of rows, each row
      listing its cells in the order of the labels.  The row index is not
      represented: the module resets it or iterates positionally, and the one
      place where pandas goes by it, the order of the rows that
      [groupby(...).apply] returns, is written out in [restore_order].
    - A Python call that can raise returns a [result]: [Ok], [Raise] with the
      exception, or [Timeout] when the fuel given to a loop or to a recursion
      is used up (in Python: the [while] loop keeps running, or the
      interpreter aborts the recursion).
    - The pandas primitives used by the module ([merge], [groupby],
      [drop_duplicates], [concat], boolean [loc]) are written out as list
      functions with the behaviour of pandas 2.x.  Comparisons are decided
      cell by cell (pandas also looks at the dtype of the column).  A Python
      set is a [gset], and [list(s)] of a set [s] is [elements s].
    - Call-backs supplied by the user (compute functions, location functions,
      predicates of a filter) are functions of their data arguments; the
      [DatabaseInstance] they also receive is not passed to them. *)

From Stdlib Require Import ZArith String List Lia Permutation.
From stdpp Require Import base gmap strings list.

Set Warnings "-register-all,-clear-no-such-hyp".

Local Open Scope string_scope.
Local Open Scope Z_scope.
Local Open Scope list_scope.

(** ** Python values *)

Inductive value :=
| VInt (z : Z)
| VStr (s : string)
| VNone
| VNaN.

#[global] Instance value_eq_dec : EqDecision value.
Proof. solve_decision. Defined.

(** [pd.isna] on a scalar. *)
Definition isna (v : value) : bool :=
  match v with
  | VNone | VNaN => true
  | _ => false
  end.

(** Truth value of an object in a Python condition. *)
Definition truthy (v : value) : bool :=
  match v with
  | VInt z => negb (z =? 0)
  | VStr s => negb (bool_decide (s = EmptyString))
  | VNone => false
  | VNaN => true
  end.

(** Python's [~] on a [bool] is the integer complement: [~True = -2] and
    [~False = -1]. *)
Definition invert_bool (b : bool) : Z := if b then -2 else -1.

Definition int_truthy (z : Z) : bool := negb (z =? 0).

(** ** Frames *)

Record DataFrame := { columns : list string; rows : list (list value) }.

Definition dict := list (string * value).

(** ** Exceptions and results *)

Inductive note :=
| NoteParameters (d : dict)
| NoteWhileComputing (coords : gset string)
| NoteDuring (action target : string) (location : value) (coords : dict).

Inductive exn :=
| Exception (msg : string)
| DataAlreadyExists (name : string)
| CannotDeclare (type_name : string)
| CoordinateHasTwoComputers (c : string)
| ProblemInCoordDefinition
| Strange
| ExpectedSingleLine (df : DataFrame)
| DuplicationProblem (offending : DataFrame)
| KeyError (key : string)
| IndexError
| TypeError
| ValueError
| MergeError
| AttributeError (obj attr : string)
| FileNotFoundError
| UserError (msg : string)
| ExceptionGroup (msg : string) (errors : list exn)
| WithNote (e : exn) (n : note).

Inductive result (A : Type) :=
| Ok (a : A)
| Raise (e : exn)
| Timeout.
Arguments Ok {A} a.
Arguments Raise {A} e.
Arguments Timeout {A}.

#[global] Instance result_ret : MRet result := fun _ a => Ok a.
#[global] Instance result_bind : MBind result := fun _ _ f m =>
  match m with
  | Ok a => f a
  | Raise e => Raise e
  | Timeout => Timeout
  end.
#[global] Instance result_fmap : FMap result := fun _ _ f m =>
  match m with
  | Ok a => Ok (f a)
  | Raise e => Raise e
  | Timeout => Timeout
  end.

(** [try: m except Exception as e: e.add_note(n); raise e] *)
Definition with_note {A} (n : note) (m : result A) : result A :=
  match m with
  | Raise e => Raise (WithNote e n)
  | r => r
  end.

(** A loop whose body can raise: [for x in l: acc = body(acc, x)]. *)
Fixpoint foldM {A B} (body : A → B → result A) (acc : A) (l : list B) : result A :=
  match l with
  | [] => Ok acc
  | x :: l' => acc' ← body acc x; foldM body acc' l'
  end.

(** ** Scalar comparisons as pandas evaluates them cell by cell *)

(** [series == v]: a missing cell or a missing [v] gives [False]. *)
Definition pd_eq (x v : value) : bool :=
  if isna x || isna v then false else bool_decide (x = v).

(** [series >= v]: missing gives [False]; an integer and a string cannot be
    ordered. *)
Definition pd_ge (x v : value) : result bool :=
  match x, v with
  | VInt a, VInt b => Ok (b <=? a)
  | VStr a, VStr b => Ok (String.leb b a)
  | VInt _, VStr _ | VStr _, VInt _ => Raise TypeError
  | _, _ => Ok false
  end.

(** [series < v] *)
Definition pd_lt (x v : value) : result bool :=
  match x, v with
  | VInt a, VInt b => Ok (a <? b)
  | VStr a, VStr b => Ok (String.ltb a b)
  | VInt _, VStr _ | VStr _, VInt _ => Raise TypeError
  | _, _ => Ok false
  end.

(** [series.isin(vs)]: plain membership, a missing cell matches a missing
    entry. *)
Definition isin (vs : list value) (x : value) : bool := bool_decide (x ∈ vs).

(** ** pandas primitives *)

(** The cell of row [r] under label [c], the labels being [cols]. *)
Fixpoint cell (cols : list string) (r : list value) (c : string) : value :=
  match cols, r with
  | k :: cols', v :: r' => if decide (k = c) then v else cell cols' r' c
  | _, _ => VNaN
  end.

(** A row re-laid on the labels [cs]; an absent label gives [NaN]. *)
Definition reindex (cols : list string) (r : list value) (cs : list string) : list value :=
  map (cell cols r) cs.

(** [row.to_dict()] *)
Definition to_dict (cols : list string) (r : list value) : dict := zip cols r.

(** [df[c]] as the list of its cells. *)
Definition column (df : DataFrame) (c : string) : list value :=
  map (fun r => cell (columns df) r c) (rows df).

(** The first label of [cs] that is not among [cols]. *)
Fixpoint first_missing (cs : list string) (cols : list string) : option string :=
  match cs with
  | [] => None
  | c :: cs' => if bool_decide (c ∈ cols) then first_missing cs' cols else Some c
  end.

(** [df[cs]] for a list of labels. *)
Definition getitem_list (df : DataFrame) (cs : list string) : result DataFrame :=
  match first_missing cs (columns df) with
  | Some c => Raise (KeyError c)
  | None => Ok {| columns := cs;
                  rows := map (fun r => reindex (columns df) r cs) (rows df) |}
  end.

(** Indexing with a boolean series: [series[mask]] and [df.loc[mask]]. *)
Fixpoint mask_select {A} (l : list A) (mask : list bool) : list A :=
  match l, mask with
  | x :: l', b :: mask' =>
      if b then x :: mask_select l' mask' else mask_select l' mask'
  | _, _ => []
  end.

Definition loc (df : DataFrame) (mask : list bool) : DataFrame :=
  {| columns := columns df; rows := mask_select (rows df) mask |}.

(** The elements of a list without repetition, each at its first
    occurrence. *)
Fixpoint first_occurrences {A} `{EqDecision A} (l : list A) : list A :=
  match l with
  | [] => []
  | x :: l' => x :: filter (fun y => y ≠ x) (first_occurrences l')
  end.

(** [df.drop_duplicates()]: pandas returns a copy at once when the frame is
    [empty] (no row or no column). *)
Definition drop_duplicates (df : DataFrame) : DataFrame :=
  match columns df, rows df with
  | [], _ | _, [] => df
  | _, _ => {| columns := columns df; rows := first_occurrences (rows df) |}
  end.

(** [df.head(1)] *)
Definition head1 (df : DataFrame) : DataFrame :=
  {| columns := columns df; rows := take 1 (rows df) |}.

(** [pd.concat(frames)]: the labels are united in order of appearance and a
    row lacking a label gets [NaN] there. *)
Definition union_labels (frames : list DataFrame) : list string :=
  first_occurrences (concat (map columns frames)).

Definition pd_concat (frames : list DataFrame) : result DataFrame :=
  match frames with
  | [] => Raise ValueError
  | _ =>
      let cs := union_labels frames in
      Ok {| columns := cs;
            rows := concat (map (fun f => map (fun r => reindex (columns f) r cs) (rows f))
                                frames) |}
  end.

(** [df[k] = v] for a scalar [v]. *)
Definition setitem_scalar (df : DataFrame) (k : string) (v : value) : DataFrame :=
  if bool_decide (k ∈ columns df) then
    {| columns := columns df;
       rows := map (fun r => map (fun c => if decide (c = k) then v else cell (columns df) r c)
                                 (columns df))
                   (rows df) |}
  else
    {| columns := columns df ++ [k]; rows := map (fun r => r ++ [v]) (rows df) |}.

(** [pd.merge(left, right, on=on, how="inner")].

    The labels of the result are those of [left], then those of [right] that
    are not join keys; a label that both sides carry outside the keys gets the
    suffix [_x] on the left and [_y] on the right.  The rows pair each row of
    [left], in order, with the rows of [right] that carry the same key cells.
    A result with a repeated label is reported as a [MergeError]: pandas
    raises it when the repetition comes from the suffixes, and otherwise
    builds a frame with a repeated label, which is outside this model. *)
Definition merge_labels (lcols rcols on : list string) : list string * list string :=
  (map (fun c => if bool_decide ((c ∉ on) ∧ (c ∈ rcols)) then (c +:+ "_x") else c) lcols,
   map (fun c => if bool_decide (c ∈ lcols) then (c +:+ "_y") else c)
       (filter (fun c => c ∉ on) rcols)).

Definition merge (left right : DataFrame) (on : list string) : result DataFrame :=
  match first_missing on (columns left), first_missing on (columns right) with
  | Some k, _ | None, Some k => Raise (KeyError k)
  | None, None =>
      let '(llabels, rlabels) := merge_labels (columns left) (columns right) on in
      if bool_decide (NoDup (llabels ++ rlabels)) then
        let rest := filter (fun c => c ∉ on) (columns right) in
        Ok {| columns := llabels ++ rlabels;
              rows :=
                l ← rows left;
                r ← filter (fun r => reindex (columns right) r on
                                       = reindex (columns left) l on) (rows right);
                [l ++ reindex (columns right) r rest] |}
      else Raise MergeError
  end.

(** [pd.merge(left, right, how="cross")]: every row of [left] with every row
    of [right]. *)
Definition merge_cross (left right : DataFrame) : result DataFrame :=
  merge left right [].

(** [pd.DataFrame([[]])]: one row, no column. *)
Definition unit_frame : DataFrame := {| columns := []; rows := [[]] |}.

(** ** Coordinate computers *)

(** What a decorated Python function returns: a frame, or data handed to
    [pd.DataFrame(res, columns=...)]. *)
Inductive fn_return :=
| RetFrame (df : DataFrame)
| RetData (data : list (list value)).

Module CoordComputer.

Record t := mk {
  coords : gset string;
  dependencies : gset string;
  compute : DataFrame → result DataFrame
}.

(** [pd.DataFrame(res, columns=list(coords))] *)
Definition frame_of_data (data : list (list value)) (cs : list string) : result DataFrame :=
  if forallb (fun r => (length r =? length cs)%nat) data
  then Ok {| columns := cs; rows := data |}
  else Raise ValueError.

(** [new_f] of [from_function] with [adapt_return=True]; [coords] is the
    argument of the decorator, in the order in which [list(coords)] lists
    it. *)
Definition adapt_return (coords : list string) (f2 : dict → result fn_return)
    (d : dict) : result DataFrame :=
  res ← f2 d;
  res ← match res with
        | RetFrame df => Ok df
        | RetData data => frame_of_data data coords
        end;
  if bool_decide (list_to_set coords ⊆@{gset string} list_to_set (columns res)) then Ok res
  else Raise ProblemInCoordDefinition.

(** [compute] of [from_function] with [vectorized=False]: the function is
    called once per row of [df] and the parameters are written back as
    columns. *)
Definition rowwise (new_f : dict → result DataFrame) (df : DataFrame) : result DataFrame :=
  tmp_dfs ← foldM (fun tmp_dfs row =>
                     let d := to_dict (columns df) row in
                     tmp ← with_note (NoteParameters d) (new_f d);
                     let tmp := foldl (fun tmp kv => setitem_scalar tmp kv.1 kv.2) tmp d in
                     Ok (tmp_dfs ++ [tmp]))
                  [] (rows df);
  pd_concat tmp_dfs.

(** [CoordComputer.from_function(coords, dependencies)(f)] for a row-wise
    function ([vectorized=False], [adapt_return=True], [database_arg=None]);
    [name] is [f.__name__] and [parameters] the parameter names of [f]. *)
Definition from_function (coords : option (list string))
    (dependencies : option (gset string))
    (name : string) (parameters : list string) (f : dict → result fn_return) : t :=
  let coords := default [name] coords in
  let dependencies := default (list_to_set parameters) dependencies in
  mk (list_to_set coords) dependencies (rowwise (adapt_return coords f)).

End CoordComputer.

(** ** Data declarations *)

(** A [pathlib.Path]: the parts of the directory and the name of the file. *)
Record Path := { parent : list string; name : string }.

#[global] Instance Path_eq_dec : EqDecision Path.
Proof. solve_decision. Defined.

#[global] Instance Path_countable : Countable Path.
Proof.
  refine (inj_countable' (fun p => (parent p, name p))
                         (fun x => {| parent := x.1; name := x.2 |}) _).
  by intros [].
Defined.

(** The file system an action works on, seen through the set of the files
    that exist. *)
Definition World := gset Path.

(** [ActionProtocol]: an action receives the location and the other
    coordinates of its row, acts on the world and returns or raises. *)
Definition ActionProtocol := World → value → dict → World * result value.

Module Data.

Record t := mk {
  name : string;
  dependencies : gset string;
  get_location : dict → result value;
  actions : list (string * ActionProtocol)
}.

End Data.

(** ** The declaration registry *)

Inductive declarable :=
| ACoordComputer (cc : CoordComputer.t)
| AData (d : Data.t)
| AnythingElse (type_name : string).

(** [k in d] and [d[k]] for a dictionary kept in insertion order. *)
Definition dict_get {V} (d : list (string * V)) (k : string) : option V :=
  snd <$> List.find (fun kv => bool_decide (kv.1 = k)) d.

Definition dict_set {V} (d : list (string * V)) (k : string) (v : V) : list (string * V) :=
  if bool_decide (k ∈ d.*1)
  then map (fun kv => if bool_decide (kv.1 = k) then (k, v) else kv) d
  else d ++ [(k, v)].

Module Database.

Record t := mk {
  name : string;
  coord_computers : list CoordComputer.t;
  data : list (string * Data.t)
}.

(** [Database(name)] *)
Definition new (name : string) : t := mk name [] [].

Definition declare (self : t) (o : declarable) : result t :=
  match o with
  | ACoordComputer cc => Ok (mk (name self) (coord_computers self ++ [cc]) (data self))
  | AData d =>
      if bool_decide (Data.name d ∈ (data self).*1)
      then Raise (DataAlreadyExists (Data.name d))
      else Ok (mk (name self) (coord_computers self) (dict_set (data self) (Data.name d) d))
  | AnythingElse ty => Raise (CannotDeclare ty)
  end.

Definition register (self : t) (_databaseobject : declarable) : result t :=
  declare self _databaseobject.

(** [", ".join(l)] *)
Fixpoint str_join (sep : string) (l : list string) : string :=
  match l with
  | [] => EmptyString
  | [x] => x
  | x :: l' => x +:+ sep +:+ str_join sep l'
  end.

Definition join (dbs : list t) (new_name : option string) : result t :=
  let new_name := default ("Joined(" +:+ str_join ", " (map name dbs) +:+ ")") new_name in
  foldM (fun res db =>
           res ← foldM (fun res cc => declare res (ACoordComputer cc)) res (coord_computers db);
           foldM (fun res d => declare res (AData d)) res (data db).*2)
        (new new_name) dbs.

End Database.

(** ** The resolved instance *)

(** The value of a filter entry, as [_filter] tells them apart: a tuple of
    allowed values, a slice, a callable, or anything else, which is compared
    with [==].  The filter is part of the key of [functools.cache], so its
    values are hashable objects (a slice is one from Python 3.12 on). *)
Inductive selector :=
| SelTuple (vs : list value)
| SelSlice (start stop step : value)
| SelCallable (p : value → result bool)
| SelValue (v : value).

Definition selection := list (string * selector).

(** [d1 | d2] *)
Definition dict_union {V} (d1 d2 : list (string * V)) : list (string * V) :=
  foldl (fun d kv => dict_set d kv.1 kv.2) d1 d2.

(** The dictionary without the key [k]. *)
Definition dict_del {V} (d : list (string * V)) (k : string) : list (string * V) :=
  filter (fun kv => kv.1 ≠ k) d.

Module DatabaseInstance.

Record t := mk {
  db : Database.t;
  coords : gmap string CoordComputer.t;
  continue_on_error : bool
}.

Definition __init__ (db : Database.t) : result t :=
  coords ← foldM (fun coords cc =>
                    foldM (fun (coords : gmap string CoordComputer.t) c =>
                             if bool_decide (c ∈ dom coords)
                             then Raise (CoordinateHasTwoComputers c)
                             else Ok (<[c := cc]> coords))
                          coords (elements (CoordComputer.coords cc)))
                 ∅ (Database.coord_computers db);
  Ok (mk db coords false).

Fixpoint _get_dependencies (fuel : nat) (coords : gmap string CoordComputer.t)
    (names : gset string) : result (gset string) :=
  match fuel with
  | O => Timeout
  | S fuel' =>
      foldM (fun res n =>
               match coords !! n with
               | None => Raise (KeyError n)
               | Some cc =>
                   deps ← _get_dependencies fuel' coords (CoordComputer.dependencies cc);
                   Ok (res ∪ {[n]} ∪ deps)
               end)
            ∅ (elements names)
  end.

(** One entry [s, v] of the loop of [_filter]. *)
Definition _filter_entry (df : DataFrame) (sv : string * selector) : result DataFrame :=
  let '(s, v) := sv in
  if bool_decide (s ∈ columns df) then
    match v with
    | SelTuple vs => Ok (loc df (map (isin vs) (column df s)))
    | SelSlice start stop step =>
        (* [if v.step: Exception("step not handled")] builds an exception
           and drops it *)
        start_cond ← (if truthy start
                      then Some <$> mapM (fun x => pd_ge x start) (column df s)
                      else Ok None);
        end_cond ← (if truthy stop
                    then Some <$> mapM (fun x => pd_lt x stop) (column df s)
                    else Ok None);
        match start_cond, end_cond with
        | Some m1, Some m2 => Ok (loc df (zip_with andb m1 m2))
        | Some m, None | None, Some m => Ok (loc df m)
        | None, None => Raise (KeyError "True")
        end
    | SelCallable p => mask ← mapM p (column df s); Ok (loc df mask)
    | SelValue v => Ok (loc df (map (fun x => pd_eq x v) (column df s)))
    end
  else Ok df.

Definition _filter (df : DataFrame) (selection_dict : selection) : result DataFrame :=
  foldM _filter_entry df selection_dict.

(** The condition under which the scan of [_get_coords_impl] runs a
    computer. *)
Definition applicable (cc : CoordComputer.t) (all_names : gset string)
    (cols : list string) : bool :=
  bool_decide (CoordComputer.coords cc ∩ all_names ≠ ∅)
  && bool_decide (CoordComputer.dependencies cc ⊆ list_to_set cols)
  && negb (bool_decide (CoordComputer.coords cc ⊆ list_to_set cols)).

(** The frame a computer yields for the current [df], filtered: [tmp_df]. *)
Definition computed (selection_dict : selection) (df : DataFrame)
    (cc : CoordComputer.t) : result DataFrame :=
  let dep_list := elements (CoordComputer.dependencies cc) in
  sub ← getitem_list df dep_list;
  let param_df := drop_duplicates sub in
  with_note (NoteWhileComputing (CoordComputer.coords cc))
    (computed_df ← CoordComputer.compute cc param_df;
     _filter computed_df selection_dict).

(** The body of [for cc in self.db.coord_computers]. *)
Definition visit (selection_dict : selection) (all_names : gset string)
    (df : DataFrame) (cc : CoordComputer.t) : result DataFrame :=
  if applicable cc all_names (columns df) then
    let dep_list := elements (CoordComputer.dependencies cc) in
    tmp_df ← computed selection_dict df cc;
    if (0 <? length dep_list)%nat then merge df tmp_df dep_list
    else merge_cross df tmp_df
  else Ok df.

(** [while not all_names.issubset(set(df.columns)): for cc in ...] *)
Fixpoint join_loop (fuel : nat) (ccs : list CoordComputer.t) (selection_dict : selection)
    (all_names : gset string) (df : DataFrame) : result DataFrame :=
  if bool_decide (all_names ⊆ list_to_set (columns df)) then Ok df
  else
    match fuel with
    | O => Timeout
    | S fuel' =>
        df ← foldM (visit selection_dict all_names) df ccs;
        join_loop fuel' ccs selection_dict all_names df
    end.

(** The test of [keep_unique_columns] on one column of a group:
    [(df[col] == df[col].iat[0]).all() and ~pd.isna(df[col].iat[0])].
    [pd.isna] returns a [bool] on a scalar, so the second operand is [-1] or
    [-2], both true. *)
Definition is_unique_column (df : DataFrame) (col : string) : result bool :=
  match column df col with
  | [] => Raise IndexError
  | first :: _ =>
      Ok (forallb (fun x => pd_eq x first) (column df col)
          && int_truthy (invert_bool (isna first)))
  end.

(** [keep_unique_columns], with the list [cols_to_remove] of the enclosing
    call passed in and out. *)
Definition keep_unique_columns (cols_to_remove : list string) (df : DataFrame)
    : result (list string * DataFrame) :=
  '(cols, cols_to_remove) ←
    foldM (fun '(cols, cols_to_remove) col =>
             b ← is_unique_column df col;
             if b : bool then Ok (cols ++ [col], cols_to_remove)
             else Ok (cols, cols_to_remove ++ [col]))
          ([], cols_to_remove) (columns df);
  sub ← getitem_list df cols;
  Ok (cols_to_remove, head1 sub).

(** The cells of a row under the keys of a [groupby]. *)
Definition group_key (df : DataFrame) (keys : list string) (r : list value) : list value :=
  reindex (columns df) r keys.

(** The rows that belong to a group: those without a missing key cell
    ([dropna=True]). *)
Definition keyed_rows (df : DataFrame) (keys : list string) : list (list value) :=
  filter (fun r => forallb (fun v => negb (isna v)) (group_key df keys r) = true) (rows df).

(** The order in which [groupby] ([sort=True]) sorts the keys: a number
    before a string, numbers by value and strings by code point; keys of
    several cells are compared cell by cell, the first key first. *)
Definition value_leb (x y : value) : bool :=
  match x, y with
  | VInt a, VInt b => (a <=? b)%Z
  | VInt _, _ => true
  | VStr _, VInt _ => false
  | VStr a, VStr b => String.leb a b
  | VStr _, _ => true
  | _, (VInt _ | VStr _) => false
  | _, _ => true
  end.

Fixpoint key_leb (k1 k2 : list value) : bool :=
  match k1, k2 with
  | [], _ => true
  | _ :: _, [] => false
  | x :: k1', y :: k2' => if decide (x = y) then key_leb k1' k2' else value_leb x y
  end.

Fixpoint insert_key (k : list value) (ks : list (list value)) : list (list value) :=
  match ks with
  | [] => [k]
  | k' :: ks' => if key_leb k k' then k :: ks else k' :: insert_key k ks'
  end.

Definition sort_keys (ks : list (list value)) : list (list value) :=
  foldr insert_key [] ks.

(** [df.groupby(keys)]: the groups in the order in which pandas goes through
    them, that of their sorted keys; each group is a frame with the labels of
    [df] and holds its rows in the order of [df]. *)
Definition groupby (df : DataFrame) (keys : list string) : result (list DataFrame) :=
  match first_missing keys (columns df) with
  | Some k => Raise (KeyError k)
  | None =>
      Ok (map (fun k => {| columns := columns df;
                           rows := filter (fun r => group_key df keys r = k)
                                          (keyed_rows df keys) |})
              (sort_keys (first_occurrences (map (group_key df keys) (keyed_rows df keys)))))
  end.

(** The first row filed under the label [k]. *)
Fixpoint labelled_row (k : list value) (l : list (list value * list value))
    : option (list value) :=
  match l with
  | [] => None
  | (k', r) :: l' => if decide (k' = k) then Some r else labelled_row k l'
  end.

(** What [apply] does of the concatenated results when every result has the
    index of its group, here when every group is a single row:
    [result.reindex(ax)] puts the rows back in the order of the rows of [df]
    they come from.  A row of [df] is then known by its key. *)
Definition restore_order (df : DataFrame) (keys : list string) (groups : list DataFrame)
    (res : DataFrame) : DataFrame :=
  let labelled := zip (map (fun g => group_key df keys (hd [] (rows g))) groups) (rows res) in
  {| columns := columns res;
     rows := omap (fun r => labelled_row (group_key df keys r) labelled) (keyed_rows df keys) |}.

(** [df.groupby(list(names), group_keys=False).apply(keep_unique_columns)
      .reset_index(drop=True)], returned with the final [cols_to_remove].
    Without any group pandas hands back an empty frame with the labels of
    [df] and calls nothing.  The results come in the order of the sorted
    keys, unless each of them has the index of its group, in which case they
    come in the order of [df]. *)
Definition groupby_apply (df : DataFrame) (keys : list string)
    : result (list string * DataFrame) :=
  groups ← groupby df keys;
  match groups with
  | [] => Ok ([], {| columns := columns df; rows := [] |})
  | _ =>
      '(cols_to_remove, pieces) ←
        foldM (fun '(cols_to_remove, pieces) g =>
                 '(cols_to_remove, piece) ← keep_unique_columns cols_to_remove g;
                 Ok (cols_to_remove, pieces ++ [piece]))
              ([], []) groups;
      res ← pd_concat pieces;
      let indexed_same := forallb (fun g => (length (rows g) =? 1)%nat) groups in
      Ok (cols_to_remove, if indexed_same then restore_order df keys groups res else res)
  end.

(** The part of [_get_coords_impl] after the [while] loop. *)
Definition collapse (names : gset string) (df : DataFrame) : result DataFrame :=
  if (0 <? size names)%nat then
    '(cols_to_remove, res) ← groupby_apply df (elements names);
    getitem_list res (filter (fun col => col ∉ cols_to_remove) (columns res))
  else Raise Strange.

Definition _get_coords_impl (fuel : nat) (self : t) (names : gset string)
    (selection_dict : selection) : result DataFrame :=
  all_names ← _get_dependencies fuel (coords self) names;
  df ← join_loop fuel (Database.coord_computers (db self)) selection_dict all_names unit_frame;
  collapse names df.

(** [get_coords(names, selection_dict, single=False, **selection_kwargs)];
    [functools.cache] and the deep copy do not change the frame returned. *)
Definition get_coords (fuel : nat) (self : t) (names : list string)
    (selection_dict selection_kwargs : selection) : result DataFrame :=
  let selection_dict := dict_union selection_dict selection_kwargs in
  _get_coords_impl fuel self (list_to_set names) selection_dict.

(** [df[k] = vs] for a series [vs] with one cell per row. *)
Definition setitem_series (df : DataFrame) (k : string) (vs : list value) : DataFrame :=
  if bool_decide (k ∈ columns df) then
    {| columns := columns df;
       rows := zip_with (fun r v => map (fun c => if decide (c = k) then v
                                                  else cell (columns df) r c)
                                        (columns df))
                        (rows df) vs |}
  else
    {| columns := columns df ++ [k];
       rows := zip_with (fun r v => r ++ [v]) (rows df) vs |}.

Definition get_locations (fuel : nat) (self : t) (name : string)
    (selection_dict selection_kwargs : selection) : result DataFrame :=
  match dict_get (Database.data (db self)) name with
  | None => Raise (KeyError name)
  | Some d =>
      coords ← get_coords fuel self (elements (Data.dependencies d))
                          selection_dict selection_kwargs;
      location ← mapM (fun row => Data.get_location d (to_dict (columns coords) row))
                      (rows coords);
      let coords := setitem_series coords "location" location in
      Ok (loc coords (map (fun v => negb (isna v)) (column coords "location")))
  end.

Definition _extract_single (df : DataFrame) (col : string) : result value :=
  if negb (length (rows df) =? 1)%nat then Raise (ExpectedSingleLine df)
  else
    match rows df with
    | r :: _ => if bool_decide (col ∈ columns df) then Ok (cell (columns df) r col)
                else Raise (KeyError col)
    | [] => Raise IndexError
    end.

(** The static methods that the body of [class DatabaseInstance] binds with
    the signature [(df, col)], looked up by name on the class. *)
Definition class_getattr (attr : string) : option (DataFrame → string → result value) :=
  if bool_decide (attr = "_extract_single") then Some _extract_single else None.

(** The callee [DatabaseInstance._extract_unique] is evaluated before its
    arguments. *)
Definition get_single_location (fuel : nat) (self : t) (name : string)
    (selection_dict selection_kwargs : selection) : result value :=
  match class_getattr "_extract_unique" with
  | None => Raise (AttributeError "DatabaseInstance" "_extract_unique")
  | Some _extract_unique =>
      locs ← get_locations fuel self name selection_dict selection_kwargs;
      _extract_unique locs "location"
  end.

(** The rows of [locs] whose location occurs at an earlier row too:
    [locs["location"].duplicated()]. *)
Fixpoint duplicated (vs seen : list value) : list bool :=
  match vs with
  | [] => []
  | v :: vs' => bool_decide (v ∈ seen) :: duplicated vs' (seen ++ [v])
  end.

(** What the dispatcher leaves behind: the world and, for the record, the
    calls made to the action, in order. *)
Record trace := { world : World; invoked : list (value * dict) }.

(** The body of [for _, row in locs.iterrows()] with its [try]. *)
Definition dispatch_row (continue_on_error : bool) (action target : string)
    (act : option ActionProtocol) (cols : list string)
    (st : trace * list value * list exn) (row : list value)
    : trace * result (list value * list exn) :=
  let '(tr, results, errors) := st in
  let location := cell cols row "location" in
  let others := dict_del (to_dict cols row) "location" in
  let '(tr, outcome) :=
    match act with
    | None => (tr, Raise (KeyError action))
    | Some f =>
        let '(w, r) := f (world tr) location others in
        ({| world := w; invoked := invoked tr ++ [(location, others)] |}, r)
    end in
  match outcome with
  | Ok v => (tr, Ok (results ++ [v], errors))
  | Raise e =>
      let e := WithNote e (NoteDuring action target location others) in
      if negb continue_on_error then (tr, Raise e)
      else (tr, Ok (results, errors ++ [e]))
  | Timeout => (tr, Timeout)
  end.

Fixpoint dispatch (continue_on_error : bool) (action target : string)
    (act : option ActionProtocol) (cols : list string)
    (tr : trace) (results : list value) (errors : list exn) (rows : list (list value))
    : trace * result (list value * list exn) :=
  match rows with
  | [] => (tr, Ok (results, errors))
  | row :: rows' =>
      match dispatch_row continue_on_error action target act cols (tr, results, errors) row with
      | (tr, Ok (results, errors)) =>
          dispatch continue_on_error action target act cols tr results errors rows'
      | (tr, Raise e) => (tr, Raise e)
      | (tr, Timeout) => (tr, Timeout)
      end
  end.

Inductive action_result :=
| Table (df : DataFrame)
| Single (v : value).

(** The rows reported by the duplication error:
    [locs[locs["location"].isin(locs["location"][locs["location"].duplicated()])]]. *)
Definition offending (locs : DataFrame) : DataFrame :=
  let location := column locs "location" in
  loc locs (map (isin (mask_select location (duplicated location []))) location).

Definition run_action (fuel : nat) (self : t) (action target : string)
    (selection_dict : selection) (single : bool) (selection_kwargs : selection)
    (w : World) : trace * result action_result :=
  let tr := {| world := w; invoked := [] |} in
  match get_locations fuel self target selection_dict selection_kwargs with
  | Raise e => (tr, Raise e)
  | Timeout => (tr, Timeout)
  | Ok locs =>
      if existsb id (duplicated (column locs "location") []) then
        (tr, Raise (DuplicationProblem (offending locs)))
      else
        let '(tr, locs) :=
          if negb (bool_decide (action = "location")) then
            let act := d ← dict_get (Database.data (db self)) target;
                       dict_get (Data.actions d) action in
            match dispatch (continue_on_error self) action target act (columns locs)
                           tr [] [] (rows locs) with
            | (tr, Ok (results, errors)) =>
                if (0 <? length errors)%nat then
                  (tr, Raise (ExceptionGroup ("During " +:+ action +:+ " for " +:+ target)
                                             errors))
                else
                  (* with a single row the cell is written through [iat];
                     the frame obtained is the same *)
                  (tr, Ok (setitem_series locs action results))
            | (tr, Raise e) => (tr, Raise e)
            | (tr, Timeout) => (tr, Timeout)
            end
          else (tr, Ok locs) in
        (tr, locs ← locs;
             if single then Single <$> _extract_single locs action
             else Ok (Table locs))
  end.

Definition compute (fuel : nat) (self : t) (name : string)
    (selection_dict selection_kwargs : selection) (w : World) :=
  run_action fuel self "compute" name selection_dict false selection_kwargs w.

Definition compute_single (fuel : nat) (self : t) (name : string)
    (selection_dict selection_kwargs : selection) (w : World) :=
  run_action fuel self "compute" name selection_dict true selection_kwargs w.

End DatabaseInstance.

(** [Database.initialize] *)
Definition initialize (self : Database.t) : result DatabaseInstance.t :=
  DatabaseInstance.__init__ self.

(** ** Savers and the cache decorator *)

(** [name.rfind(".")] *)
Fixpoint rfind_dot (s : string) (i : nat) (last : option nat) : option nat :=
  match s with
  | EmptyString => last
  | String c s' => rfind_dot s' (S i) (if Ascii.eqb c (Ascii.ascii_of_nat 46) then Some i else last)
  end.

(** [path.suffix] and [path.stem] as [pathlib] computes them. *)
Definition split_name (name : string) : string * string :=
  match rfind_dot name 0 None with
  | Some i =>
      if ((0 <? i) && (i <? String.length name - 1))%nat
      then (substring 0 i name, substring i (String.length name - i) name)
      else (name, EmptyString)
  | None => (name, EmptyString)
  end.

Definition stem (path : Path) : string := (split_name (name path)).1.
Definition suffix (path : Path) : string := (split_name (name path)).2.

(** [path.exists()] *)
Definition path_exists (w : World) (path : Path) : bool := bool_decide (path ∈ w).

(** What an action hands to a saver: a frame or series, with or without a
    [RangeIndex], or any other object. *)
Inductive saved :=
| SavedFrame (df : DataFrame) (range_index : bool)
| SavedObject (v : value).

(** A saver called with a path. *)
Definition Saver := World → Path → saved → World * result unit.

(** The two library calls that write an object out, [o.to_csv(path, ...)]
    and [pickle.dump(o, f)]: whether they return or raise depends on the
    object (pickle refuses a lambda, an open file, ...).  By the time they
    raise the file has been created. *)
Record Writers := {
  to_csv : saved → result unit;
  pickle_dump : saved → result unit
}.

Definition default_saver (io : Writers) : Saver := fun w path o =>
  match o with
  | SavedFrame _ range_index =>
      if bool_decide (suffix path = ".tsv") then
        if negb range_index
        then (w, Raise (Exception ("Automatic tsv writing does not store index information. "
                                   +:+ "Please reset your index... (either to drop it or to "
                                   +:+ "name it as a column) or use a dedicated saver")))
        else ({[path]} ∪ w, to_csv io o)
      else ({[path]} ∪ w, pickle_dump io o)
  | SavedObject _ => ({[path]} ∪ w, pickle_dump io o)
  end.

(** [shutil.move(src, dst)] between files. *)
Definition shutil_move (w : World) (src dst : Path) : World * result unit :=
  if path_exists w src then ({[dst]} ∪ (w ∖ {[src]}), Ok ())
  else (w, Raise FileNotFoundError).

Definition safe_save (saver : Saver) : Saver := fun w path o =>
  let suffix := suffix path in
  let tmp_path := {| parent := parent path; name := stem path +:+ ".tmp" +:+ suffix |} in
  (* [tmp_path.parent.mkdir(exist_ok=True, parents=True)] creates no file *)
  match saver w tmp_path o with
  | (w, Ok _) => shutil_move w tmp_path path
  | (w, Raise e) => (w, Raise e)
  | (w, Timeout) => (w, Timeout)
  end.

(** [open_and_save(saver, mode)] for a saver that writes to an open file:
    opening creates the file unless the mode is a reading mode. *)
Definition open_and_save (saver : saved → result unit) (mode : string) : Saver :=
  fun w path o =>
    if bool_decide (mode = "r") || bool_decide (mode = "rb") then
      if path_exists w path then (w, saver o) else (w, Raise FileNotFoundError)
    else ({[path]} ∪ w, saver o).

(** The function wrapped by [cache]: it receives the target and the
    coordinates and returns an object to save, or [None] when it has nothing
    to hand over. *)
Definition Cached := World → Path → dict → World * result (option saved).

(** [cache(saver, open, force_recompute)(f)]; [msaver] is [saver] when [open]
    is [None] and [open_and_save saver open] otherwise.  The result comes with
    the targets [f] has been called on. *)
Definition cache (msaver : Saver) (force_recompute : bool) (f : Cached)
    (w : World) (out_location : Path) (coords : dict)
    : World * list Path * result Path :=
  if path_exists w out_location && negb force_recompute then
    (w, [], Ok out_location)
  else
    match f w out_location coords with
    | (w, Raise e) => (w, [out_location], Raise e)
    | (w, Timeout) => (w, [out_location], Timeout)
    | (w, Ok None) => (w, [out_location], Ok out_location)
    | (w, Ok (Some res)) =>
        match safe_save msaver w out_location res with
        | (w, Ok _) => (w, [out_location], Ok out_location)
        | (w, Raise e) => (w, [out_location], Raise e)
        | (w, Timeout) => (w, [out_location], Timeout)
        end
    end.

(** * Scenarios *)

Module Scenario.

(** [@CoordComputer.from_function() def a(): return [1, 2, 3]] *)
Definition a : CoordComputer.t :=
  CoordComputer.from_function None None "a" []
    (fun _ => Ok (RetData [[VInt 1]; [VInt 2]; [VInt 3]])).

(** [@CoordComputer.from_function() def b(a): return [a * 10]] *)
Definition b : CoordComputer.t :=
  CoordComputer.from_function None None "b" ["a"]
    (fun d => match dict_get d "a" with
              | Some (VInt a) => Ok (RetData [[VInt (a * 10)]])
              | _ => Raise TypeError
              end).

(** [@CoordComputer.from_function(coords=["a"]) def signed(): return [-1, 1, 7]] *)
Definition signed : CoordComputer.t :=
  CoordComputer.from_function (Some ["a"]) None "signed" []
    (fun _ => Ok (RetData [[VInt (-1)]; [VInt 1]; [VInt 7]])).

(** [@CoordComputer.from_function(coords=["a"]) def single(): return [1]] *)
Definition single : CoordComputer.t :=
  CoordComputer.from_function (Some ["a"]) None "single" []
    (fun _ => Ok (RetData [[VInt 1]])).

(** An action that fails at the location 2 and returns the location
    elsewhere. *)
Definition compute_art : ActionProtocol := fun w location _ =>
  if bool_decide (location = VInt 2) then (w, Raise (UserError "no input"))
  else (w, Ok location).

(** [class art: location(a) = a], with the action [compute]. *)
Definition art : Data.t :=
  Data.mk "art" {["a"]} (fun d => Ok (default VNone (dict_get d "a")))
          [("compute", compute_art)].

(** [class twin: location(a) = "same"], with the action [compute]. *)
Definition twin : Data.t :=
  Data.mk "twin" {["a"]} (fun _ => Ok (VStr "same")) [("compute", compute_art)].

(** The instance obtained by declaring the computers [ccs] and the data [ds]
    in turn and initializing. *)
Definition registry (ccs : list CoordComputer.t) (ds : list Data.t)
    : result DatabaseInstance.t :=
  db ← foldM Database.declare (Database.new "db")
             (map ACoordComputer ccs ++ map AData ds);
  initialize db.

(** The instance of a registry known to initialize, with the flag
    [continue_on_error] set as given. *)
Definition instance (ccs : list CoordComputer.t) (ds : list Data.t)
    (continue_on_error : bool) : DatabaseInstance.t :=
  match registry ccs ds with
  | Ok self =>
      DatabaseInstance.mk (DatabaseInstance.db self) (DatabaseInstance.coords self)
                          continue_on_error
  | _ => DatabaseInstance.mk (Database.new "db") ∅ continue_on_error
  end.

(** Library calls that write out every object they are given. *)
Definition writes_all : Writers := {| to_csv := fun _ => Ok (); pickle_dump := fun _ => Ok () |}.

(** Library calls of which [pickle.dump] fails on every object. *)
Definition pickle_fails : Writers :=
  {| to_csv := fun _ => Ok (); pickle_dump := fun _ => Raise TypeError |}.

(** Two registries, each with a computer for the coordinate [a]. *)
Definition left_db : Database.t := Database.mk "left" [a] [("art", art)].
Definition right_db : Database.t := Database.mk "right" [single] [("twin", twin)].

End Scenario.

(** * Vocabulary of the statements *)

Import DatabaseInstance.

(** A column is constant and not missing across the rows of a group. *)
Definition constant_in (g : DataFrame) (c : string) : Prop :=
  ∃ v, isna v = false ∧ ∀ r, r ∈ rows g → cell (columns g) r c = v.

(** The test of [keep_unique_columns] for a group that has a row. *)
Definition uniqb (g : DataFrame) (c : string) : bool :=
  match column g c with
  | [] => false
  | first :: _ => forallb (fun x => pd_eq x first) (column g c)
  end.

(** The columns a group keeps and the columns it gives up. *)
Definition kept (g : DataFrame) : list string :=
  filter (fun c => uniqb g c = true) (columns g).
Definition given_up (g : DataFrame) : list string :=
  filter (fun c => uniqb g c ≠ true) (columns g).

Definition piece (g : DataFrame) : DataFrame :=
  {| columns := kept g;
     rows := take 1 (map (fun r => reindex (columns g) r (kept g)) (rows g)) |}.

(** The groups of a [groupby]. *)
Definition live_rows (df : DataFrame) (keys : list string) : list (list value) :=
  filter (fun r => forallb (fun v => negb (isna v)) (group_key df keys r) = true) (rows df).

(** The group of the rows with the key [k]. *)
Definition group_of (df : DataFrame) (keys : list string) (k : list value) : DataFrame :=
  {| columns := columns df;
     rows := filter (fun r => group_key df keys r = k) (live_rows df keys) |}.

(** The rows that stand for the groups, in the order in which the collapse
    returns them: the first row of each group, group after group; when every
    group is a single row these are the rows of the frame that have a key, in
    the order of the frame. *)
Definition representatives (df : DataFrame) (keys : list string)
    (groups : list DataFrame) : list (list value) :=
  if forallb (fun g => (length (rows g) =? 1)%nat) groups then live_rows df keys
  else map (fun g => hd [] (rows g)) groups.

(** The labels that survive the collapse. *)
Definition surviving (groups : list DataFrame) (cols : list string) : list string :=
  filter (fun col => col ∉ concat (map given_up groups))
         (match groups with
          | [] => cols
          | _ => union_labels (map piece groups)
          end).

(** C2 as stated, on one call of the collapse: in the frame returned,
    the row that stands for a group [g] holds a value under a label [c] of the
    intermediate frame exactly when [c] is constant and not missing across
    [g]. *)
Definition keeps_per_group (names : gset string) (df : DataFrame) : Prop :=
  ∀ res groups,
    collapse names df = Ok res →
    groupby df (elements names) = Ok groups →
    ∀ g r c,
      g ∈ groups → r ∈ rows res → c ∈ columns df →
      group_key res (elements names) r = group_key df (elements names) (hd [] (rows g)) →
      (c ∈ columns res ∧ isna (cell (columns res) r c) = false) ↔ constant_in g c.

(** An intermediate frame where [c] is constant for [a = 1] and varies for
    [a = 2]. *)
Definition fan_out : DataFrame :=
  {| columns := ["a"; "c"];
     rows := [[VInt 1; VInt 5]; [VInt 2; VInt 6]; [VInt 2; VInt 7]] |}.

(** The frames returned by the computers in the course of a resolution, in
    the order in which they are computed. *)
Definition visit_frames (all_names : gset string) (df : DataFrame)
    (cc : CoordComputer.t) : list DataFrame :=
  if applicable cc all_names (columns df) then
    match getitem_list df (elements (CoordComputer.dependencies cc)) with
    | Ok sub =>
        match CoordComputer.compute cc (drop_duplicates sub) with
        | Ok computed_df => [computed_df]
        | _ => []
        end
    | _ => []
    end
  else [].

Fixpoint scan_frames (selection_dict : selection) (all_names : gset string)
    (df : DataFrame) (ccs : list CoordComputer.t) : list DataFrame :=
  match ccs with
  | [] => []
  | cc :: ccs' =>
      visit_frames all_names df cc
      ++ match visit selection_dict all_names df cc with
         | Ok df => scan_frames selection_dict all_names df ccs'
         | _ => []
         end
  end.

Fixpoint join_loop_frames (fuel : nat) (ccs : list CoordComputer.t)
    (selection_dict : selection) (all_names : gset string) (df : DataFrame)
    : list DataFrame :=
  if bool_decide (all_names ⊆ list_to_set (columns df)) then []
  else
    match fuel with
    | O => []
    | S fuel' =>
        scan_frames selection_dict all_names df ccs
        ++ match foldM (visit selection_dict all_names) df ccs with
           | Ok df => join_loop_frames fuel' ccs selection_dict all_names df
           | _ => []
           end
    end.

Definition computed_frames (fuel : nat) (self : DatabaseInstance.t) (names : list string)
    (selection_dict selection_kwargs : selection) : list DataFrame :=
  match _get_dependencies fuel (coords self) (list_to_set names) with
  | Ok all_names =>
      join_loop_frames fuel (Database.coord_computers (db self))
                       (dict_union selection_dict selection_kwargs) all_names unit_frame
  | _ => []
  end.

(** The test that [_filter] applies to a cell for an entry: membership for a
    tuple, [==] for a plain value, the predicate for a callable, and for a
    slice the comparison with each bound that is truthy. *)
Definition satisfies (v : selector) (x : value) : Prop :=
  match v with
  | SelTuple vs => x ∈ vs
  | SelSlice start stop _ =>
      (truthy start = true → pd_ge x start = Ok true)
      ∧ (truthy stop = true → pd_lt x stop = Ok true)
  | SelCallable p => p x = Ok true
  | SelValue v => pd_eq x v = true
  end.

(** The arguments the dispatcher hands to the action for a row. *)
Definition call_of (cols : list string) (row : list value) : value * dict :=
  (cell cols row "location", dict_del (to_dict cols row) "location").

(** What the action does on the rows, called on one after the other from
    the world [w] on: for each row, what the call returns or raises. *)
Fixpoint outcomes (act : ActionProtocol) (cols : list string) (w : World)
    (rows : list (list value)) : list (list value * result value) :=
  match rows with
  | [] => []
  | row :: rows' =>
      let '(w', r) := act w (call_of cols row).1 (call_of cols row).2 in
      (row, r) :: outcomes act cols w' rows'
  end.

(** The rows on which the action fails, each with its exception, and the
    values it returns on the others. *)
Definition failed (outs : list (list value * result value)) : list (list value * exn) :=
  omap (fun '(row, r) => match r with Raise e => Some (row, e) | _ => None end) outs.
Definition returned (outs : list (list value * result value)) : list value :=
  omap (fun '(_, r) => match r with Ok v => Some v | _ => None end) outs.
Definition succeeds (rr : list value * result value) : Prop := ∃ v, rr.2 = Ok v.

(** The failure recorded for a row: the exception of the action, with the
    context of that row as a note. *)
Definition failure_of (action target : string) (cols : list string)
    (re : list value * exn) : exn :=
  WithNote re.2 (NoteDuring action target (call_of cols re.1).1 (call_of cols re.1).2).

(** The frame returned when no action fails, or the cell extracted from it
    when [single] is set. *)
Definition attached (locs : DataFrame) (action : string) (single : bool)
    (results : list value) : result action_result :=
  let locs := setitem_series locs action results in
  if single then Single <$> _extract_single locs action else Ok (Table locs).

(** C8 as stated, on one target: two calls in a row, the second in the world
    left by the first, call the wrapped function at most once in total. *)
Definition computes_at_most_once (msaver : Saver) (f : Cached) (w : World)
    (out_location : Path) (coords : dict) : Prop :=
  ∀ w1 calls1 r1 w2 calls2 r2,
    cache msaver false f w out_location coords = (w1, calls1, r1) →
    cache msaver false f w1 out_location coords = (w2, calls2, r2) →
    (length (calls1 ++ calls2) ≤ 1)%nat.

(** An action that returns [None] and writes nothing. *)
Definition writes_nothing : Cached := fun w _ _ => (w, Ok None).

Definition some_target : Path := {| parent := ["data"]; name := "x.tsv" |}.

(** The names of the data of the registries, in the order [join] declares
    them. *)
Definition data_names (dbs : list Database.t) : list string :=
  concat (map (fun db => map Data.name (Database.data db).*2) dbs).

(** No computer of [ccs] produces a coordinate of [seen] or of an earlier
    computer of [ccs]. *)
Fixpoint conflict_free (seen : gset string) (ccs : list CoordComputer.t) : Prop :=
  match ccs with
  | [] => True
  | cc :: ccs' =>
      CoordComputer.coords cc ## seen
      ∧ conflict_free (seen ∪ CoordComputer.coords cc) ccs'
  end.

(** ** More of the module *)

(** What [_extract_single] returns for [get_coords(..., single=True)]: the
    cell under the name when one name is asked for, and otherwise the cells
    of the row under the names. *)
Inductive extracted :=
| Scalar (v : value)
| Cells (vs : list value).

(** [get_coords(names, selection_dict, single=True, **selection_kwargs)] for
    a list of names: [_extract_single(res, names[0] if len(names) == 1 else
    names)]. *)
Definition get_coords_single (fuel : nat) (self : DatabaseInstance.t) (names : list string)
    (selection_dict selection_kwargs : selection) : result extracted :=
  res ← get_coords fuel self names selection_dict selection_kwargs;
  match names with
  | [n] => Scalar <$> _extract_single res n
  | _ =>
      if negb (length (rows res) =? 1)%nat then Raise (ExpectedSingleLine res)
      else
        match rows res with
        | r :: _ =>
            match first_missing names (columns res) with
            | Some c => Raise (KeyError c)
            | None => Ok (Cells (reindex (columns res) r names))
            end
        | [] => Raise IndexError
        end
  end.

(** What [singleglob] returns: the answer of the [only_ok] mode, or the path
    found. *)
Inductive globbed :=
| OnlyOk (b : bool)
| Found (path : Path).

(** [singleglob(p, *patterns, only_ok=only_ok)]; [glob pat] lists what
    [p.glob(pat)] yields. *)
Definition singleglob (glob : string → list Path) (patterns : list string)
    (only_ok : bool) : result globbed :=
  let all := pat ← patterns; glob pat in
  if only_ok then Ok (OnlyOk (length all =? 1)%nat)
  else if (1 <? length all)%nat then Raise FileNotFoundError
  else if (length all =? 0)%nat then Raise FileNotFoundError
  else
    match all with
    | path :: _ => Ok (Found path)
    | [] => Raise IndexError
    end.

(** Every name of [S] has a computer, whose dependencies are in [S]. *)
Definition closed_under_dependencies (coords : gmap string CoordComputer.t)
    (S : gset string) : Prop :=
  ∀ n, n ∈ S → ∃ cc, coords !! n = Some cc ∧ CoordComputer.dependencies cc ⊆ S.

(** The rows a location is found for, each with its location appended. *)
Definition located (rows : list (list value)) (location : list value) : list (list value) :=
  map (fun rv => rv.1 ++ [rv.2]) (filter (fun rv => isna rv.2 = false) (zip rows location)).

(** The sibling that [safe_save] writes before it moves it onto [path]. *)
Definition tmp_path (path : Path) : Path :=
  {| parent := parent path; name := stem path +:+ ".tmp" +:+ suffix path |}.

(** A frame all of whose rows have one cell per column. *)
Definition rectangular (df : DataFrame) : Prop :=
  Forall (fun r => length r = length (columns df)) (rows df).

(** What [rowwise] makes of the rows of the parameters: a frame [piece]
    that has the coordinates and the parameters among its columns, and whose
    rows are rows of a result of the function, with the parameters of the call
    written into them. *)
Definition carries (coords : list string) (f : dict → result fn_return)
    (param : DataFrame) (piece : DataFrame) : Prop :=
  (∀ c, c ∈ coords ∨ c ∈ columns param → c ∈ columns piece)
  ∧ ∀ r', r' ∈ rows piece →
          ∃ row tmp r,
            row ∈ rows param
            ∧ CoordComputer.adapt_return coords f (to_dict (columns param) row) = Ok tmp
            ∧ r ∈ rows tmp
            ∧ (∀ k, k ∈ columns param →
                    cell (columns piece) r' k = cell (columns param) row k)
            ∧ ∀ c, c ∈ coords → c ∉ columns param →
                   cell (columns piece) r' c = cell (columns tmp) r c.

(** ** Scenarios of the further properties *)

(** [class echo: location(a) = a], whose action [compute] returns the
    location it is given. *)
Definition echo : Data.t :=
  Data.mk "echo" {["a"]} (fun d => Ok (default VNone (dict_get d "a")))
          [("compute", fun w location _ => (w, Ok location))].

(** [@CoordComputer.from_function() def loop(loop): return [loop]], a
    computer that depends on its own coordinate. *)
Definition loop : CoordComputer.t :=
  CoordComputer.from_function None None "loop" ["loop"]
    (fun d => Ok (RetData [[default VNone (dict_get d "loop")]])).

(** A row-wise function that returns a frame. *)
Definition tenfold (d : dict) : result fn_return :=
  match dict_get d "a" with
  | Some (VInt a) => Ok (RetFrame {| columns := ["b"]; rows := [[VInt (a * 10)]] |})
  | _ => Raise TypeError
  end.

(** The rank of the coordinates of [Scenario.a] and [Scenario.b]. *)
Definition rank_a_b (n : string) : nat := if String.eqb n "b" then 1 else 0.

(** * Properties *)

(** ** Results *)

Lemma bind_Ok {A B} (m : result A) (k : A → result B) (b : B) :
  m ≫= k = Ok b → ∃ a, m = Ok a ∧ k a = Ok b.
Proof. destruct m; simpl; intros; try discriminate; eauto. Qed.

Lemma map_fmap {A B} (f : A → B) (l : list A) : map f l = f <$> l.
Proof. reflexivity. Qed.

(** ** Cells *)

Lemma cell_reindex (cols : list string) (r : list value) (cs : list string) (c : string) :
  c ∈ cs → cell cs (reindex cols r cs) c = cell cols r c.
Proof.
  unfold reindex. induction cs as [|k cs IH]; intros Hc.
  - by apply elem_of_nil in Hc.
  - simpl. destruct (decide (k = c)) as [->|Hne]; [done|].
    apply IH. apply elem_of_cons in Hc as [?|?]; congruence.
Qed.

Lemma reindex_reindex (cols : list string) (r : list value) (cs ks : list string) :
  (∀ k, k ∈ ks → k ∈ cs) → reindex cs (reindex cols r cs) ks = reindex cols r ks.
Proof.
  intros Hsub. unfold reindex at 1 3. apply map_ext_in. intros k Hk.
  apply cell_reindex, Hsub. by apply list_elem_of_In.
Qed.

(** ** First occurrences *)

Lemma elem_of_first_occurrences {A} `{EqDecision A} (l : list A) (x : A) :
  x ∈ first_occurrences l ↔ x ∈ l.
Proof.
  induction l as [|y l IH]; simpl; [done|].
  rewrite !elem_of_cons, list_elem_of_filter, IH.
  destruct (decide (x = y)); naive_solver.
Qed.

Lemma NoDup_first_occurrences {A} `{EqDecision A} (l : list A) :
  NoDup (first_occurrences l).
Proof.
  induction l as [|y l IH]; simpl; [constructor|].
  apply NoDup_cons. split.
  - rewrite list_elem_of_filter. naive_solver.
  - by apply NoDup_filter.
Qed.

Lemma first_missing_None (cs cols : list string) :
  first_missing cs cols = None ↔ ∀ c, c ∈ cs → c ∈ cols.
Proof.
  induction cs as [|c cs IH]; simpl.
  - split; [intros _ c Hc; by apply elem_of_nil in Hc|done].
  - case_bool_decide as Hc.
    + rewrite IH. split.
      * intros H c' Hc'. apply elem_of_cons in Hc' as [->|?]; auto.
      * intros H c' Hc'. apply H. by right.
    + split; [done|]. intros H. exfalso. apply Hc, H. by left.
Qed.

Lemma getitem_list_Ok (df : DataFrame) (cs : list string) :
  (∀ c, c ∈ cs → c ∈ columns df) →
  getitem_list df cs
  = Ok {| columns := cs; rows := map (fun r => reindex (columns df) r cs) (rows df) |}.
Proof.
  intros H. unfold getitem_list. by rewrite (proj2 (first_missing_None _ _) H).
Qed.

(** ** The collapse step *)

Lemma invert_bool_truthy (b : bool) : int_truthy (invert_bool b) = true.
Proof. by destruct b. Qed.

Lemma is_unique_column_uniqb (g : DataFrame) (c : string) :
  rows g ≠ [] → is_unique_column g c = Ok (uniqb g c).
Proof.
  intros Hne. unfold is_unique_column, uniqb, column.
  destruct (rows g) as [|r rs]; [done|]. simpl.
  by rewrite invert_bool_truthy, andb_true_r.
Qed.

Lemma pd_eq_true (x v : value) : pd_eq x v = true ↔ x = v ∧ isna v = false.
Proof.
  unfold pd_eq. destruct (isna x) eqn:Hx, (isna v) eqn:Hv; simpl;
    try (split; [done|]; intros [-> ?]; congruence).
  rewrite bool_decide_eq_true. tauto.
Qed.

Lemma uniqb_constant_in (g : DataFrame) (c : string) :
  rows g ≠ [] → uniqb g c = true ↔ constant_in g c.
Proof.
  intros Hne. unfold uniqb, constant_in, column.
  destruct (rows g) as [|r0 rs]; [done|]. cbn [map].
  rewrite forallb_forall. split.
  - intros H. exists (cell (columns g) r0 c). split.
    + specialize (H (cell (columns g) r0 c) (or_introl eq_refl)).
      by apply pd_eq_true in H as [_ ?].
    + intros r Hr. apply list_elem_of_In in Hr.
      assert (In (cell (columns g) r c) (map (fun r => cell (columns g) r c) (r0 :: rs)))
        as Hin by (apply in_map_iff; eauto).
      by apply H, pd_eq_true in Hin as [? _].
  - intros (v & Hv & Hall) x Hx.
    change (In x (map (fun r => cell (columns g) r c) (r0 :: rs))) in Hx.
    apply in_map_iff in Hx as (r & <- & Hr). apply list_elem_of_In in Hr.
    apply pd_eq_true. rewrite (Hall r Hr), (Hall r0) by (by left). done.
Qed.

Lemma keep_unique_columns_scan (g : DataFrame) (cs cols rem : list string) :
  rows g ≠ [] →
  foldM (fun '(cols, cols_to_remove) col =>
           b ← is_unique_column g col;
           if b : bool then Ok (cols ++ [col], cols_to_remove)
           else Ok (cols, cols_to_remove ++ [col]))
        (cols, rem) cs
  = Ok (cols ++ filter (fun c => uniqb g c = true) cs,
        rem ++ filter (fun c => uniqb g c ≠ true) cs).
Proof.
  intros Hne. revert cols rem. induction cs as [|c cs IH]; intros cols rem.
  - simpl. by rewrite !app_nil_r.
  - cbn [foldM]. rewrite is_unique_column_uniqb by done. cbn [mbind result_bind].
    rewrite !filter_cons. destruct (uniqb g c) eqn:Hu.
    + cbn [mbind result_bind]. rewrite IH.
      rewrite decide_True by done. rewrite decide_False by (intros ?; congruence).
      by rewrite <- app_assoc.
    + cbn [mbind result_bind]. rewrite IH.
      rewrite decide_False by done. rewrite decide_True by done.
      by rewrite <- app_assoc.
Qed.

Lemma keep_unique_columns_Ok (rem : list string) (g : DataFrame) :
  rows g ≠ [] →
  keep_unique_columns rem g = Ok (rem ++ given_up g, piece g).
Proof.
  intros Hne. unfold keep_unique_columns.
  rewrite (keep_unique_columns_scan g (columns g) [] rem Hne).
  cbn [mbind result_bind app].
  rewrite getitem_list_Ok.
  - reflexivity.
  - intros c Hc. by apply list_elem_of_filter in Hc as [_ ?].
Qed.

Lemma apply_pieces (groups : list DataFrame) (rem : list string) (pieces : list DataFrame) :
  Forall (fun g => rows g ≠ []) groups →
  foldM (fun '(cols_to_remove, pieces) g =>
           '(cols_to_remove, piece) ← keep_unique_columns cols_to_remove g;
           Ok (cols_to_remove, pieces ++ [piece]))
        (rem, pieces) groups
  = Ok (rem ++ concat (map given_up groups), pieces ++ map piece groups).
Proof.
  intros Hall. revert rem pieces.
  induction Hall as [|g groups Hg _ IH]; intros rem pieces.
  - simpl. by rewrite !app_nil_r.
  - cbn [foldM]. rewrite keep_unique_columns_Ok by done. cbn [mbind result_bind].
    rewrite IH. cbn [map concat]. by rewrite <- !app_assoc.
Qed.

Lemma insert_key_Permutation (k : list value) (ks : list (list value)) :
  insert_key k ks ≡ₚ k :: ks.
Proof.
  induction ks as [|k' ks IH]; [done|]. cbn [insert_key].
  destruct (key_leb k k'); [done|]. rewrite IH. apply Permutation_swap.
Qed.

Lemma sort_keys_Permutation (ks : list (list value)) : sort_keys ks ≡ₚ ks.
Proof.
  induction ks as [|k ks IH]; [done|]. cbn [sort_keys foldr].
  rewrite insert_key_Permutation. by constructor.
Qed.

Lemma elem_of_group_keys (df : DataFrame) (keys : list string) (k : list value) :
  k ∈ sort_keys (first_occurrences (map (group_key df keys) (live_rows df keys)))
  ↔ ∃ r, r ∈ live_rows df keys ∧ group_key df keys r = k.
Proof.
  rewrite sort_keys_Permutation, elem_of_first_occurrences, list_elem_of_In, in_map_iff.
  split; intros (r & ? & ?); exists r; by rewrite ?list_elem_of_In in *.
Qed.

Lemma groupby_Ok (df : DataFrame) (keys : list string) (groups : list DataFrame) :
  groupby df keys = Ok groups →
  (∀ k, k ∈ keys → k ∈ columns df)
  ∧ groups = map (group_of df keys)
                 (sort_keys (first_occurrences (map (group_key df keys) (live_rows df keys)))).
Proof.
  unfold groupby. destruct (first_missing keys (columns df)) eqn:Hm; [done|].
  intros [= <-]. split; [by apply first_missing_None|done].
Qed.

Lemma group_of_key (df : DataFrame) (keys : list string) (k : list value) :
  (∃ r, r ∈ live_rows df keys ∧ group_key df keys r = k) →
  group_key df keys (hd [] (rows (group_of df keys k))) = k.
Proof.
  intros (r1 & Hr1 & Hk1). cbn [group_of rows].
  assert (r1 ∈ filter (fun r => group_key df keys r = k) (live_rows df keys)) as Hr1'
    by (by apply list_elem_of_filter).
  destruct (filter _ _) as [|r0 rs] eqn:Hrs; [by apply elem_of_nil in Hr1'|].
  assert (r0 ∈ filter (fun r => group_key df keys r = k) (live_rows df keys)) as Hr0
    by (rewrite Hrs; by left).
  by apply list_elem_of_filter in Hr0 as [? _].
Qed.

Lemma group_facts (df : DataFrame) (keys : list string) (groups : list DataFrame) (g : DataFrame) :
  groupby df keys = Ok groups → g ∈ groups →
  columns g = columns df
  ∧ (∃ r0 rs, rows g = r0 :: rs)
  ∧ ∀ r, r ∈ rows g →
      r ∈ rows df
      ∧ group_key df keys r = group_key df keys (hd [] (rows g))
      ∧ ∀ v, v ∈ group_key df keys r → isna v = false.
Proof.
  intros Hg Hin. apply groupby_Ok in Hg as [_ ->].
  apply list_elem_of_In, in_map_iff in Hin as (k & <- & Hk). cbn [group_of columns rows].
  apply list_elem_of_In, elem_of_group_keys in Hk as (r1 & Hr1 & Hk1).
  set (rs := filter (fun r => group_key df keys r = k) (live_rows df keys)).
  assert (r1 ∈ rs) as Hr1' by (by apply list_elem_of_filter).
  assert (∀ r, r ∈ rs → r ∈ rows df ∧ group_key df keys r = k
                         ∧ ∀ v, v ∈ group_key df keys r → isna v = false) as Hall.
  { intros r Hr. apply list_elem_of_filter in Hr as [Hk' Hr].
    apply list_elem_of_filter in Hr as [Hna Hr]. split_and!; [done..|].
    intros v Hv. rewrite forallb_forall in Hna.
    apply list_elem_of_In, Hna in Hv. by destruct (isna v). }
  split; [done|]. destruct rs as [|r0 rs'] eqn:Hrs; [by apply elem_of_nil in Hr1'|].
  split; [eauto|]. intros r Hr. cbn [hd].
  destruct (Hall r Hr) as (? & -> & ?), (Hall r0) as (_ & -> & _); [by left|done].
Qed.

Lemma groups_nonempty (df : DataFrame) (keys : list string) (groups : list DataFrame) :
  groupby df keys = Ok groups → Forall (fun g => rows g ≠ []) groups.
Proof.
  intros Hg. apply Forall_forall. intros g Hin.
  destruct (group_facts _ _ _ _ Hg Hin) as (_ & (r0 & rs & ->) & _). done.
Qed.

Lemma groups_keys (df : DataFrame) (keys : list string) (groups : list DataFrame) :
  groupby df keys = Ok groups →
  map (fun g => group_key df keys (hd [] (rows g))) groups
  = sort_keys (first_occurrences (map (group_key df keys) (live_rows df keys))).
Proof.
  intros Hg. pose proof (groupby_Ok _ _ _ Hg) as [_ Heq].
  rewrite Heq at 1. rewrite map_map.
  rewrite <- (map_id (sort_keys _)) at 2.
  apply map_ext_in. intros k Hk.
  apply group_of_key. by apply elem_of_group_keys, list_elem_of_In.
Qed.

Lemma groups_keys_NoDup (df : DataFrame) (keys : list string) (groups : list DataFrame) :
  groupby df keys = Ok groups →
  NoDup (map (fun g => group_key df keys (hd [] (rows g))) groups).
Proof.
  intros Hg. rewrite (groups_keys _ _ _ Hg), sort_keys_Permutation.
  apply NoDup_first_occurrences.
Qed.

(** When every group is a single row, no two rows with a key share it. *)
Lemma single_groups_keys (df : DataFrame) (keys : list string) (groups : list DataFrame) :
  groupby df keys = Ok groups →
  forallb (fun g => (length (rows g) =? 1)%nat) groups = true →
  ∀ r, r ∈ live_rows df keys →
       filter (fun r' => group_key df keys r' = group_key df keys r) (live_rows df keys) = [r].
Proof.
  intros Hg Hall r Hr. pose proof (groupby_Ok _ _ _ Hg) as [_ Heq].
  assert (group_of df keys (group_key df keys r) ∈ groups) as Hin.
  { rewrite Heq. apply list_elem_of_In, in_map, list_elem_of_In, elem_of_group_keys. eauto. }
  rewrite forallb_forall in Hall. apply list_elem_of_In, Hall, Nat.eqb_eq in Hin.
  cbn [group_of rows] in Hin.
  assert (r ∈ filter (fun r' => group_key df keys r' = group_key df keys r)
                     (live_rows df keys)) as Hr' by (by apply list_elem_of_filter).
  destruct (filter _ _) as [|r0 [|r1 rs]]; [done| |done].
  by apply list_elem_of_singleton in Hr' as ->.
Qed.

Lemma filter_singletons_NoDup {A B} `{EqDecision B} (f : A → B) (l : list A) :
  (∀ x, x ∈ l → filter (fun y => f y = f x) l = [x]) → NoDup l.
Proof.
  induction l as [|x l IH]; intros H; [constructor|].
  assert (∀ y, y ∈ l → f y ≠ f x) as Hne.
  { intros y Hy Heq. pose proof (H x (list_elem_of_here _ _)) as Hx.
    rewrite filter_cons_True in Hx by done. injection Hx as Hx.
    assert (y ∈ filter (fun y => f y = f x) l) as Hin by (by apply list_elem_of_filter).
    rewrite Hx in Hin. by apply elem_of_nil in Hin. }
  constructor.
  - intros Hx. by apply (Hne x Hx).
  - apply IH. intros y Hy. pose proof (H y (list_elem_of_further _ _ _ Hy)) as Hy'.
    rewrite filter_cons_False in Hy' by (intros Heq; by apply (Hne y Hy)). done.
Qed.

(** The rows that stand for the groups are the first rows of the groups, in
    some order. *)
Lemma representatives_Permutation (df : DataFrame) (keys : list string)
    (groups : list DataFrame) :
  groupby df keys = Ok groups →
  representatives df keys groups ≡ₚ map (fun g => hd [] (rows g)) groups.
Proof.
  intros Hg. unfold representatives.
  destruct (forallb _ groups) eqn:Hall; [|done].
  pose proof (single_groups_keys _ _ _ Hg Hall) as Hsingle.
  apply NoDup_Permutation.
  - by apply (filter_singletons_NoDup (group_key df keys)).
  - apply (NoDup_fmap_1 (group_key df keys)).
    rewrite <- list_fmap_compose. apply (groups_keys_NoDup _ _ _ Hg).
  - intros r. pose proof (groupby_Ok _ _ _ Hg) as [_ Heq]. split.
    + intros Hr. apply list_elem_of_In, in_map_iff.
      exists (group_of df keys (group_key df keys r)). split.
      * cbn [group_of rows]. by rewrite Hsingle.
      * rewrite Heq. apply in_map, list_elem_of_In, elem_of_group_keys. eauto.
    + intros Hr. apply list_elem_of_In, in_map_iff in Hr as (g & <- & Hin).
      apply list_elem_of_In in Hin.
      destruct (group_facts _ _ _ _ Hg Hin) as (_ & (r0 & rs & Hrows) & Hfacts).
      rewrite Hrows. cbn [hd]. destruct (Hfacts r0) as (Hdf & _ & Hna); [rewrite Hrows; by left|].
      apply list_elem_of_filter. split; [|done].
      apply forallb_forall. intros v Hv. apply list_elem_of_In, Hna in Hv. by rewrite Hv.
Qed.

Lemma pieces_rows (groups : list DataFrame) (cs : list string) :
  Forall (fun g => rows g ≠ []) groups →
  concat (map (fun f => map (fun r => reindex (columns f) r cs) (rows f)) (map piece groups))
  = map (fun g => reindex (kept g) (reindex (columns g) (hd [] (rows g)) (kept g)) cs) groups.
Proof.
  induction 1 as [|g groups Hg _ IH]; [done|].
  cbn [map concat]. rewrite IH. unfold piece. cbn [rows columns].
  destruct (rows g) as [|r0 rs]; [done|]. reflexivity.
Qed.

Lemma labelled_row_zip {A} (lab : A → list value) (F : A → list value) (l : list A) (x : A) :
  x ∈ l → (∀ y, y ∈ l → lab y = lab x → F y = F x) →
  labelled_row (lab x) (zip (map lab l) (map F l)) = Some (F x).
Proof.
  induction l as [|y l IH]; intros Hx Hinj; [by apply elem_of_nil in Hx|].
  cbn [map zip zip_with labelled_row]. destruct (decide (lab y = lab x)) as [Heq|Hne].
  - f_equal. apply Hinj; [by left|done].
  - apply IH.
    + apply elem_of_cons in Hx as [->|Hx]; [done|done].
    + intros z Hz. apply Hinj. by right.
Qed.

Lemma omap_Some_map {A B} (f : A → option B) (g : A → B) (l : list A) :
  (∀ x, x ∈ l → f x = Some (g x)) → omap f l = map g l.
Proof.
  induction l as [|x l IH]; intros H; [done|].
  cbn [omap list_omap map]. rewrite (H x) by (by left).
  f_equal. apply IH. intros y Hy. apply H. by right.
Qed.

Lemma collapse_Ok (names : gset string) (df : DataFrame) (groups : list DataFrame) :
  (0 < size names)%nat →
  groupby df (elements names) = Ok groups →
  collapse names df
  = Ok {| columns := surviving groups (columns df);
          rows := map (fun r => reindex (columns df) r (surviving groups (columns df)))
                      (representatives df (elements names) groups) |}.
Proof.
  intros Hsize Hg. unfold collapse.
  destruct (0 <? size names)%nat eqn:Hs; [|apply Nat.ltb_ge in Hs; lia].
  unfold groupby_apply. rewrite Hg. cbn [mbind result_bind].
  pose proof (groups_nonempty _ _ _ Hg) as Hne.
  destruct groups as [|g0 groups'] eqn:Hgroups.
  - cbn [mbind result_bind]. rewrite getitem_list_Ok.
    + cbn [columns rows map]. f_equal. f_equal. unfold representatives. cbn [forallb].
      apply groupby_Ok in Hg as [_ Heq]. symmetry in Heq. apply fmap_nil_inv in Heq.
      assert (∀ r, r ∉ live_rows df (elements names)) as Hno.
      { intros r Hr.
        assert (group_key df (elements names) r
                ∈ sort_keys (first_occurrences (map (group_key df (elements names))
                                                    (live_rows df (elements names))))) as Hin
          by (apply elem_of_group_keys; eauto).
        rewrite Heq in Hin. by apply elem_of_nil in Hin. }
      destruct (live_rows df (elements names)) as [|r rs]; [done|].
      exfalso. apply (Hno r). by left.
    + intros c Hc. cbn [columns] in *. by apply list_elem_of_filter in Hc as [_ ?].
  - rewrite <- Hgroups in *. rewrite (apply_pieces groups [] [] Hne).
    cbn [mbind result_bind app]. unfold pd_concat.
    destruct (map piece groups) as [|p ps] eqn:Hp; [by rewrite Hgroups in Hp|].
    rewrite <- Hp. cbn [mbind result_bind].
    assert (surviving groups (columns df)
            = filter (fun col => col ∉ concat (map given_up groups))
                     (union_labels (map piece groups))) as ->
      by (by rewrite Hgroups).
    set (cs := union_labels (map piece groups)).
    set (res0 := {| columns := cs; rows := _ |}).
    set (fin := filter _ cs).
    assert (∀ c, c ∈ fin → c ∈ cs) as Hfin1.
    { intros c Hc. by apply list_elem_of_filter in Hc as [_ ?]. }
    assert (∀ g, g ∈ groups →
                 reindex cs (reindex (kept g) (reindex (columns g) (hd [] (rows g)) (kept g)) cs)
                         fin
                 = reindex (columns df) (hd [] (rows g)) fin) as Hrow.
    { intros g Hin. destruct (group_facts _ _ _ _ Hg Hin) as (Hcols & _ & _).
      assert (∀ c, c ∈ fin → c ∈ kept g) as Hfin2.
      { intros c Hc. apply list_elem_of_filter in Hc as [Hnot Hc].
        unfold cs, union_labels in Hc. apply (proj1 (elem_of_first_occurrences _ _)) in Hc.
        apply list_elem_of_In, in_concat in Hc as (l & Hl & Hc).
        apply in_map_iff in Hl as (pc & <- & Hpc).
        apply in_map_iff in Hpc as (g' & <- & Hg').
        apply list_elem_of_In in Hc, Hg'. cbn [piece columns] in Hc.
        apply list_elem_of_filter in Hc as [_ Hc].
        destruct (group_facts _ _ _ _ Hg Hg') as (Hcols' & _ & _).
        apply list_elem_of_filter. split; [|congruence].
        destruct (uniqb g c) eqn:Hu; [done|]. exfalso. apply Hnot.
        apply list_elem_of_In, in_concat. exists (given_up g). split.
        - apply in_map_iff. exists g. split; [done|]. by apply list_elem_of_In.
        - apply list_elem_of_In, list_elem_of_filter. split; [congruence|].
          by rewrite Hcols, <- Hcols'. }
      rewrite reindex_reindex by done. rewrite reindex_reindex by done. by rewrite Hcols. }
    assert (rows res0
            = map (fun g => reindex (kept g) (reindex (columns g) (hd [] (rows g)) (kept g)) cs)
                  groups) as Hrows0
      by (unfold res0; cbn [rows]; by rewrite pieces_rows).
    unfold representatives.
    destruct (forallb (fun g => (length (rows g) =? 1)%nat) groups) eqn:Hall.
    + rewrite getitem_list_Ok by (intros c Hc; by apply Hfin1).
      cbn [columns rows restore_order]. f_equal. f_equal.
      pose proof (single_groups_keys _ _ _ Hg Hall) as Hsingle.
      pose proof (groupby_Ok _ _ _ Hg) as [_ Heq].
      rewrite Hrows0.
      rewrite (omap_Some_map _
                 (fun r => reindex (kept (group_of df (elements names)
                                            (group_key df (elements names) r)))
                             (reindex (columns df) r
                                (kept (group_of df (elements names)
                                         (group_key df (elements names) r)))) cs)).
      * rewrite map_map. apply map_ext_in. intros r Hr. apply list_elem_of_In in Hr.
        assert (group_of df (elements names) (group_key df (elements names) r) ∈ groups)
          as Hin.
        { rewrite Heq. apply list_elem_of_In, in_map, list_elem_of_In, elem_of_group_keys.
          eauto. }
        specialize (Hrow _ Hin). cbn [group_of rows columns] in Hrow.
        rewrite (Hsingle r Hr) in Hrow. exact Hrow.
      * intros r Hr. change (keyed_rows df (elements names)) with
          (live_rows df (elements names)) in Hr.
        set (g := group_of df (elements names) (group_key df (elements names) r)).
        assert (g ∈ groups) as Hin.
        { rewrite Heq. apply list_elem_of_In, in_map, list_elem_of_In, elem_of_group_keys.
          eauto. }
        assert (hd [] (rows g) = r) as Hhd
          by (unfold g; cbn [group_of rows]; by rewrite (Hsingle r Hr)).
        assert (columns g = columns df) as Hcols by done.
        pose proof (labelled_row_zip
                      (fun g => group_key df (elements names) (hd [] (rows g)))
                      (fun g => reindex (kept g)
                                  (reindex (columns g) (hd [] (rows g)) (kept g)) cs)
                      groups g Hin) as Hlab.
        cbn beta in Hlab. rewrite Hhd, Hcols in Hlab. apply Hlab.
        intros g' Hin' Hkey. rewrite Heq in Hin'.
        apply list_elem_of_In, in_map_iff in Hin' as (k & <- & Hk).
        apply list_elem_of_In, elem_of_group_keys in Hk.
        rewrite (group_of_key _ _ _ Hk) in Hkey. subst k. fold g. by rewrite Hhd, Hcols.
    + rewrite getitem_list_Ok by (intros c Hc; by apply Hfin1).
      cbn [columns rows]. f_equal. f_equal. rewrite Hrows0, !map_map.
      apply map_ext_in. intros g Hin. apply list_elem_of_In in Hin. by apply Hrow.
Qed.

Lemma surviving_spec (df : DataFrame) (keys : list string) (groups : list DataFrame) (c : string) :
  groupby df keys = Ok groups →
  c ∈ surviving groups (columns df)
  ↔ c ∈ columns df ∧ ∀ g, g ∈ groups → constant_in g c.
Proof.
  intros Hg.
  assert (∀ g, g ∈ groups → columns g = columns df ∧ rows g ≠ []) as Hfacts.
  { intros g Hin. destruct (group_facts _ _ _ _ Hg Hin) as (? & (r0 & rs & ->) & _). done. }
  assert (c ∈ concat (map given_up groups) ↔ ∃ g, g ∈ groups ∧ c ∈ given_up g) as Hgu.
  { rewrite list_elem_of_In, in_concat. split.
    - intros (l & Hl & Hc). apply in_map_iff in Hl as (g & <- & Hin).
      exists g. by rewrite !list_elem_of_In.
    - intros (g & Hin & Hc). exists (given_up g). split.
      + apply in_map_iff. exists g. by rewrite <- list_elem_of_In.
      + by apply list_elem_of_In. }
  unfold surviving. rewrite list_elem_of_filter, Hgu. clear Hgu.
  destruct groups as [|g0 groups'] eqn:Hgroups.
  - split.
    + intros [_ ?]. split; [done|]. intros g Hin. by apply elem_of_nil in Hin.
    + intros [? _]. split; [|done]. intros (g & Hin & _). by apply elem_of_nil in Hin.
  - rewrite <- Hgroups in *. unfold union_labels.
    rewrite elem_of_first_occurrences, list_elem_of_In, in_concat. split.
    + intros [Hnot (l & Hl & Hc)].
      apply in_map_iff in Hl as (pc & <- & Hpc). apply in_map_iff in Hpc as (g' & <- & Hg').
      apply list_elem_of_In in Hc, Hg'. cbn [piece columns] in Hc.
      apply list_elem_of_filter in Hc as [_ Hc].
      destruct (Hfacts g' Hg') as [Hcols' _]. rewrite Hcols' in Hc. split; [done|].
      intros g Hin. destruct (Hfacts g Hin) as [Hcols Hne].
      apply uniqb_constant_in; [done|]. destruct (uniqb g c) eqn:Hu; [done|].
      exfalso. apply Hnot. exists g. split; [done|].
      apply list_elem_of_filter. split; [congruence|by rewrite Hcols].
    + intros [Hc Hall]. split.
      * intros (g & Hin & Hgu). apply list_elem_of_filter in Hgu as [Hu _].
        destruct (Hfacts g Hin) as [_ Hne]. by apply Hu, uniqb_constant_in, Hall.
      * assert (g0 ∈ groups) as Hin0 by (rewrite Hgroups; by left).
        destruct (Hfacts g0 Hin0) as [Hcols Hne].
        exists (columns (piece g0)). split.
        -- rewrite Hgroups. cbn [map]. by left.
        -- apply list_elem_of_In. cbn [piece columns]. apply list_elem_of_filter.
           split; [by apply uniqb_constant_in, Hall|by rewrite Hcols].
Qed.

(** On [fan_out] the column [c] is constant in the group [a = 1] and yet
    absent from the row returned for that group. *)
Lemma collapse_is_not_per_group : ¬ keeps_per_group {["a"]} fan_out.
Proof.
  intros H.
  specialize (H {| columns := ["a"]; rows := [[VInt 1]; [VInt 2]] |}
                [ {| columns := ["a"; "c"]; rows := [[VInt 1; VInt 5]] |};
                  {| columns := ["a"; "c"]; rows := [[VInt 2; VInt 6]; [VInt 2; VInt 7]] |} ]
                eq_refl eq_refl
                {| columns := ["a"; "c"]; rows := [[VInt 1; VInt 5]] |} [VInt 1] "c").
  destruct H as [_ H].
  - by left.
  - by left.
  - right. by left.
  - reflexivity.
  - destruct H as [Hc _].
    + exists (VInt 5). split; [done|]. intros r Hr. apply list_elem_of_singleton in Hr as ->. done.
    + cbn in Hc. apply list_elem_of_singleton in Hc. done.
Qed.

(** C2, as the code has it: the frame returned by the collapse keeps exactly
    the columns that are constant and not missing within every group, and
    each group is represented by one row, which carries the values of the
    first row of the group under those columns; these rows come one per
    group. *)
Theorem collapse_keeps_columns_constant_in_every_group
    (names : gset string) (df res : DataFrame) (groups : list DataFrame) :
  collapse names df = Ok res →
  groupby df (elements names) = Ok groups →
  (∀ c, c ∈ columns res ↔ c ∈ columns df ∧ ∀ g, g ∈ groups → constant_in g c)
  ∧ rows res = map (fun r => reindex (columns df) r (columns res))
                   (representatives df (elements names) groups)
  ∧ representatives df (elements names) groups ≡ₚ map (fun g => hd [] (rows g)) groups.
Proof.
  intros Hc Hg.
  assert (0 < size names)%nat as Hsize.
  { unfold collapse in Hc. destruct (0 <? size names)%nat eqn:Hs; [|done].
    by apply Nat.ltb_lt in Hs. }
  rewrite (collapse_Ok _ _ _ Hsize Hg) in Hc. injection Hc as <-. cbn [columns rows].
  split_and!; [|done|by apply representatives_Permutation].
  intros c. by apply surviving_spec with (keys := elements names).
Qed.

(** ** One row per requested combination *)

Lemma collapse_inv (names : gset string) (df res : DataFrame) :
  collapse names df = Ok res →
  (0 < size names)%nat ∧ ∃ groups, groupby df (elements names) = Ok groups.
Proof.
  unfold collapse, groupby_apply.
  destruct (0 <? size names)%nat eqn:Hs; [|done]. apply Nat.ltb_lt in Hs.
  destruct (groupby df (elements names)) as [groups| |]; [eauto|done..].
Qed.

Lemma keys_survive (df : DataFrame) (keys : list string) (groups : list DataFrame) (k : string) :
  groupby df keys = Ok groups → k ∈ keys → k ∈ surviving groups (columns df).
Proof.
  intros Hg Hk. apply (surviving_spec _ _ _ _ Hg). split.
  - by apply (groupby_Ok _ _ _ Hg).
  - intros g Hin. destruct (group_facts _ _ _ _ Hg Hin) as (Hcols & (r0 & rs & Hrows) & Hall).
    exists (cell (columns df) r0 k). split.
    + destruct (Hall r0) as (_ & _ & Hna); [rewrite Hrows; by left|].
      apply Hna. apply list_elem_of_In, in_map_iff. exists k. by rewrite <- list_elem_of_In.
    + intros r Hr. destruct (Hall r Hr) as (_ & Heq & _).
      rewrite Hrows in Heq. cbn [hd] in Heq. unfold group_key, reindex in Heq.
      rewrite Hcols. apply (proj1 map_ext_in_iff Heq). by apply list_elem_of_In.
Qed.

Lemma collapse_unique (names : gset string) (df res : DataFrame) :
  collapse names df = Ok res →
  NoDup (map (group_key res (elements names)) (rows res)).
Proof.
  intros Hc. destruct (collapse_inv _ _ _ Hc) as (Hsize & groups & Hg).
  rewrite (collapse_Ok _ _ _ Hsize Hg) in Hc. injection Hc as <-.
  unfold group_key. cbn [columns rows]. rewrite map_map.
  rewrite (map_ext _ (group_key df (elements names))).
  - change (NoDup (group_key df (elements names)
                     <$> representatives df (elements names) groups)).
    rewrite (representatives_Permutation _ _ _ Hg), <- list_fmap_compose.
    apply (groups_keys_NoDup _ _ _ Hg).
  - intros r. apply reindex_reindex. intros k Hk. by eapply keys_survive.
Qed.

Lemma NoDup_map_coarser {A B C} (f : A → B) (g : A → C) (l : list A) :
  (∀ x y, g x = g y → f x = f y) → NoDup (map f l) → NoDup (map g l).
Proof.
  intros Hfg. induction l as [|x l IH]; cbn [map]; [constructor|].
  rewrite !NoDup_cons. intros [Hx Hl]. split; [|auto].
  intros Hin. apply Hx. apply list_elem_of_In, in_map_iff in Hin as (y & Hy & Hin).
  apply list_elem_of_In, in_map_iff. exists y. split; [by apply Hfg|done].
Qed.

(** C3: no two rows returned by [get_coords] agree on all the requested
    columns. *)
Theorem get_coords_unique (fuel : nat) (self : DatabaseInstance.t) (names : list string)
    (selection_dict selection_kwargs : selection) (res : DataFrame) :
  get_coords fuel self names selection_dict selection_kwargs = Ok res →
  NoDup (map (fun r => reindex (columns res) r names) (rows res)).
Proof.
  unfold get_coords, _get_coords_impl. intros H.
  apply bind_Ok in H as (all_names & _ & H). apply bind_Ok in H as (df & _ & H).
  apply collapse_unique in H. revert H. apply NoDup_map_coarser.
  intros r r' Heq. unfold group_key, reindex in *. apply map_ext_in. intros n Hn.
  apply (proj1 map_ext_in_iff Heq).
  apply list_elem_of_In. apply list_elem_of_In, elem_of_elements, elem_of_list_to_set in Hn. done.
Qed.

(** ** Filter entries on absent columns *)

Lemma filter_entry_columns (df df' : DataFrame) (sv : string * selector) :
  _filter_entry df sv = Ok df' → columns df' = columns df.
Proof.
  destruct sv as [s v]. unfold _filter_entry. case_bool_decide as Hs; [|by intros [= <-]].
  destruct v as [vs|start stop step|p|v].
  - by intros [= <-].
  - intros H. apply bind_Ok in H as (m1 & _ & H). apply bind_Ok in H as (m2 & _ & H).
    destruct m1, m2; try discriminate; by injection H as <-.
  - intros H. apply bind_Ok in H as (m & _ & H). by injection H as <-.
  - by intros [= <-].
Qed.

Lemma filter_ignores_absent (s : string) (selection_dict : selection) (df : DataFrame) :
  s ∉ columns df →
  _filter df (dict_del selection_dict s) = _filter df selection_dict.
Proof.
  unfold _filter, dict_del. revert df.
  induction selection_dict as [|[k v] sel IH]; intros df Hs; [done|].
  rewrite filter_cons. cbn [fst foldM]. destruct (decide (k ≠ s)) as [Hk|Hk].
  - cbn [foldM]. destruct (_filter_entry df (k, v)) as [df'| |] eqn:He; [|done..].
    cbn [mbind result_bind]. apply IH. by rewrite (filter_entry_columns _ _ _ He).
  - apply dec_stable in Hk as ->.
    assert (_filter_entry df (s, v) = Ok df) as ->
      by (unfold _filter_entry; by rewrite bool_decide_eq_false_2).
    cbn [mbind result_bind]. by apply IH.
Qed.

Lemma visit_ignores_absent (s : string) (selection_dict : selection)
    (all_names : gset string) (df : DataFrame) (cc : CoordComputer.t) :
  (∀ t, t ∈ visit_frames all_names df cc → s ∉ columns t) →
  visit (dict_del selection_dict s) all_names df cc = visit selection_dict all_names df cc.
Proof.
  unfold visit, visit_frames, computed. destruct (applicable _ _ _); [|done].
  destruct (getitem_list _ _) as [sub| |]; [|done..]. cbn [mbind result_bind].
  destruct (CoordComputer.compute cc _) as [computed_df| |]; [|done..].
  intros H. cbn [mbind result_bind]. rewrite filter_ignores_absent; [done|].
  apply H. by left.
Qed.

Lemma scan_ignores_absent (s : string) (selection_dict : selection)
    (all_names : gset string) (ccs : list CoordComputer.t) (df : DataFrame) :
  (∀ t, t ∈ scan_frames selection_dict all_names df ccs → s ∉ columns t) →
  foldM (visit (dict_del selection_dict s) all_names) df ccs
  = foldM (visit selection_dict all_names) df ccs.
Proof.
  revert df. induction ccs as [|cc ccs IH]; intros df H; [done|].
  cbn [foldM scan_frames] in *.
  rewrite visit_ignores_absent by (intros t Ht; apply H, elem_of_app; by left).
  destruct (visit selection_dict all_names df cc) as [df'| |]; [|done..].
  cbn [mbind result_bind]. apply IH. intros t Ht. apply H, elem_of_app. by right.
Qed.

Lemma join_loop_ignores_absent (s : string) (selection_dict : selection)
    (all_names : gset string) (ccs : list CoordComputer.t) (fuel : nat) (df : DataFrame) :
  (∀ t, t ∈ join_loop_frames fuel ccs selection_dict all_names df → s ∉ columns t) →
  join_loop fuel ccs (dict_del selection_dict s) all_names df
  = join_loop fuel ccs selection_dict all_names df.
Proof.
  revert df. induction fuel as [|fuel IH]; intros df H; [done|].
  cbn [join_loop join_loop_frames] in *. case_bool_decide as Hsub; [done|].
  rewrite scan_ignores_absent by (intros t Ht; apply H, elem_of_app; by left).
  destruct (foldM _ df ccs) as [df'| |]; [|done..].
  cbn [mbind result_bind]. apply IH. intros t Ht. apply H, elem_of_app. by right.
Qed.

Lemma dict_del_keys {V} (d : list (string * V)) (k s : string) :
  k ≠ s → k ∈ (dict_del d s).*1 ↔ k ∈ d.*1.
Proof.
  intros Hk. unfold dict_del. rewrite !list_elem_of_fmap. split.
  - intros (kv & -> & Hin). apply list_elem_of_filter in Hin as [_ ?]. eauto.
  - intros (kv & -> & Hin). exists kv. split; [done|]. by apply list_elem_of_filter.
Qed.

Lemma dict_del_replace {V} (d : list (string * V)) (k s : string) (v : V) :
  dict_del (map (fun kv => if bool_decide (kv.1 = k) then (k, v) else kv) d) s
  = if decide (k = s) then dict_del d s
    else map (fun kv => if bool_decide (kv.1 = k) then (k, v) else kv) (dict_del d s).
Proof.
  unfold dict_del. induction d as [|[k' v'] d IH]; cbn [map fst].
  - by destruct (decide (k = s)).
  - rewrite !filter_cons, IH. cbn [fst]. clear IH.
    destruct (decide (k = s)) as [->|Hk].
    + case_bool_decide as Hk'; cbn [fst].
      * subst k'. by rewrite !decide_False by (intros ?; done).
      * done.
    + case_bool_decide as Hk'; cbn [fst].
      * subst k'. rewrite !decide_True by done. cbn [map fst].
        by rewrite bool_decide_eq_true_2.
      * destruct (decide (k' ≠ s)); [|done]. cbn [map fst].
        by rewrite bool_decide_eq_false_2.
Qed.

Lemma dict_del_set {V} (d : list (string * V)) (k s : string) (v : V) :
  dict_del (dict_set d k v) s
  = if decide (k = s) then dict_del d s else dict_set (dict_del d s) k v.
Proof.
  unfold dict_set. case_bool_decide as Hin.
  - rewrite dict_del_replace. destruct (decide (k = s)) as [->|Hk]; [done|].
    by rewrite bool_decide_eq_true_2 by (by apply dict_del_keys).
  - unfold dict_del at 1. rewrite filter_app, filter_cons, filter_nil. cbn [fst].
    destruct (decide (k = s)) as [->|Hk].
    + rewrite decide_False by (intros ?; done). by rewrite app_nil_r.
    + rewrite decide_True by done.
      by rewrite bool_decide_eq_false_2 by (by rewrite dict_del_keys).
Qed.

Lemma dict_del_union {V} (d1 d2 : list (string * V)) (s : string) :
  dict_union (dict_del d1 s) (dict_del d2 s) = dict_del (dict_union d1 d2) s.
Proof.
  unfold dict_union. revert d1. induction d2 as [|[k v] d2 IH]; intros d1; [done|].
  cbn [foldl fst snd]. rewrite <- IH, dict_del_set. unfold dict_del at 2.
  rewrite filter_cons. cbn [fst]. destruct (decide (k = s)) as [->|Hk].
  - by rewrite decide_False by (intros ?; done).
  - by rewrite decide_True by done.
Qed.

(** C10: a filter entry whose column is in none of the frames returned by the
    computers during the resolution changes nothing: the call behaves as the
    call without the entry, with the same frame or the same failure. *)
Theorem absent_filter_entry_is_ignored (fuel : nat) (self : DatabaseInstance.t)
    (names : list string) (selection_dict selection_kwargs : selection) (s : string) :
  (∀ t, t ∈ computed_frames fuel self names selection_dict selection_kwargs →
        s ∉ columns t) →
  get_coords fuel self names (dict_del selection_dict s) (dict_del selection_kwargs s)
  = get_coords fuel self names selection_dict selection_kwargs.
Proof.
  unfold computed_frames, get_coords, _get_coords_impl. rewrite dict_del_union.
  destruct (_get_dependencies _ _ _) as [all_names| |]; [|done..].
  intros H. cbn [mbind result_bind]. by rewrite join_loop_ignores_absent.
Qed.

(** ** What a filter guarantees *)

Lemma mask_select_subset {A} (l : list A) (mask : list bool) (x : A) :
  x ∈ mask_select l mask → x ∈ l.
Proof.
  revert mask. induction l as [|y l IH]; intros [|b mask] Hx;
    try by apply elem_of_nil in Hx.
  cbn in Hx. destruct b.
  - apply elem_of_cons in Hx as [->|Hx]; [by left|right; eauto].
  - right. eauto.
Qed.

Lemma mask_select_map_true {A} (p : A → bool) (l : list A) (x : A) :
  x ∈ mask_select l (map p l) → p x = true.
Proof.
  induction l as [|y l IH]; cbn; intros Hx; [by apply elem_of_nil in Hx|].
  destruct (p y) eqn:Hy; [|auto].
  apply elem_of_cons in Hx as [->|Hx]; auto.
Qed.

Lemma mask_select_mapM_true {A} (p : A → result bool) (l : list A) (mask : list bool) (x : A) :
  mapM p l = Ok mask → x ∈ mask_select l mask → p x = Ok true.
Proof.
  revert mask. induction l as [|y l IH]; intros mask Hm Hx.
  - by apply elem_of_nil in Hx.
  - cbn in Hm. apply bind_Ok in Hm as (b & Hb & Hm).
    apply bind_Ok in Hm as (mask' & Hmask & [= <-]). cbn in Hx. destruct b.
    + apply elem_of_cons in Hx as [->|Hx]; eauto.
    + eauto.
Qed.

Lemma mask_select_and {A} (l : list A) (m1 m2 : list bool) (x : A) :
  x ∈ mask_select l (zip_with andb m1 m2) →
  x ∈ mask_select l m1 ∧ x ∈ mask_select l m2.
Proof.
  revert m1 m2. induction l as [|y l IH]; intros [|b1 m1] [|b2 m2] Hx;
    try by apply elem_of_nil in Hx.
  cbn in Hx. destruct b1, b2; cbn in Hx |- *;
    try (apply elem_of_cons in Hx as [->|Hx]; [split; by left|]);
    apply IH in Hx as [? ?]; split; try right; done.
Qed.

Lemma filter_entry_sound (df df' : DataFrame) (s : string) (v : selector) (r : list value) :
  _filter_entry df (s, v) = Ok df' → r ∈ rows df' →
  r ∈ rows df ∧ (s ∈ columns df → satisfies v (cell (columns df) r s)).
Proof.
  unfold _filter_entry. case_bool_decide as Hs; [|intros [= <-] ?; by split].
  destruct v as [vs|start stop step|p|v]; cbn [satisfies].
  - intros [= <-] Hr. unfold column in Hr. cbn [loc rows] in Hr.
    split; [by eapply mask_select_subset|].
    intros _. rewrite map_map in Hr.
    apply (mask_select_map_true (fun r => isin vs (cell (columns df) r s))) in Hr.
    by apply bool_decide_eq_true in Hr.
  - intros H Hr. apply bind_Ok in H as (m1 & Hm1 & H). apply bind_Ok in H as (m2 & Hm2 & H).
    assert (∀ bound cmp m,
              (if truthy bound then Some <$> mapM (fun x => cmp x bound) (column df s)
               else Ok None) = Ok (Some m) →
              r ∈ mask_select (rows df) m →
              truthy bound = true ∧ cmp (cell (columns df) r s) bound = Ok true) as Hside.
    { intros bound cmp m Hb Hin. revert Hb. destruct (truthy bound); [|done].
      destruct (mapM (fun x => cmp x bound) (column df s)) as [mask| |] eqn:Hmask; [|done..].
      intros [= ->]. split; [done|].
      unfold column in Hmask.
      assert (mapM (fun r => cmp (cell (columns df) r s) bound) (rows df) = Ok m) as Hmask'.
      { clear -Hmask. revert m Hmask. induction (rows df) as [|y l IH]; intros m Hm; [done|].
        cbn in Hm |- *. destruct (cmp _ bound) as [b| |]; [|done..]. cbn in Hm |- *.
        destruct (mapM _ (map _ l)) as [m'| |] eqn:Hl; [|done..].
        by rewrite (IH m' eq_refl). }
      by apply (mask_select_mapM_true _ _ _ _ Hmask'). }
    assert (∀ bound (cmp : value → value → result bool),
              (if truthy bound then Some <$> mapM (fun x => cmp x bound) (column df s)
               else Ok None) = Ok None → truthy bound = false) as Hnone.
    { intros bound cmp. destruct (truthy bound); [|done].
      by destruct (mapM (fun x => cmp x bound) (column df s)). }
    destruct m1 as [m1|], m2 as [m2|]; try discriminate; injection H as <-;
      cbn [loc rows] in Hr.
    + apply mask_select_and in Hr as [Hr1 Hr2].
      split; [by eapply mask_select_subset|]. intros _.
      destruct (Hside _ _ _ Hm1 Hr1), (Hside _ _ _ Hm2 Hr2). by split.
    + split; [by eapply mask_select_subset|]. intros _.
      destruct (Hside _ _ _ Hm1 Hr). rewrite (Hnone _ _ Hm2). by split.
    + split; [by eapply mask_select_subset|]. intros _.
      destruct (Hside _ _ _ Hm2 Hr). rewrite (Hnone _ _ Hm1). by split.
  - intros H Hr. apply bind_Ok in H as (mask & Hmask & [= <-]). cbn [loc rows] in Hr.
    split; [by eapply mask_select_subset|]. intros _.
    unfold column in Hmask.
    assert (mapM (fun r => p (cell (columns df) r s)) (rows df) = Ok mask) as Hmask'.
    { clear -Hmask. revert mask Hmask. induction (rows df) as [|y l IH]; intros m Hm; [done|].
      cbn in Hm |- *. destruct (p _) as [b| |]; [|done..]. cbn in Hm |- *.
      destruct (mapM _ (map _ l)) as [m'| |] eqn:Hl; [|done..].
      by rewrite (IH m' eq_refl). }
    by apply (mask_select_mapM_true _ _ _ _ Hmask').
  - intros [= <-] Hr. unfold column in Hr. cbn [loc rows] in Hr.
    split; [by eapply mask_select_subset|].
    intros _. rewrite map_map in Hr.
    by apply (mask_select_map_true (fun r => pd_eq (cell (columns df) r s) v)) in Hr.
Qed.

(** Every row that [_filter] lets through passes the test of every entry
    whose column the frame has. *)
Lemma filter_sound (selection_dict : selection) (df df' : DataFrame) (r : list value) :
  _filter df selection_dict = Ok df' → r ∈ rows df' →
  columns df' = columns df
  ∧ r ∈ rows df
  ∧ ∀ s v, (s, v) ∈ selection_dict → s ∈ columns df →
           satisfies v (cell (columns df) r s).
Proof.
  unfold _filter. revert df. induction selection_dict as [|[s v] sel IH]; intros df H Hr.
  - injection H as <-. split_and!; [done..|]. intros s v Hin. by apply elem_of_nil in Hin.
  - cbn [foldM] in H. apply bind_Ok in H as (df1 & H1 & H).
    destruct (IH df1 H Hr) as (Hcols & Hr1 & Hall).
    pose proof (filter_entry_columns _ _ _ H1) as Hcols1.
    destruct (filter_entry_sound _ _ _ _ _ H1 Hr1) as [Hr0 Hsat].
    split_and!; [congruence|done|]. intros s' v' Hin Hs'.
    apply elem_of_cons in Hin as [[= -> ->]|Hin]; [by apply Hsat|].
    rewrite <- Hcols1. apply Hall; [done|]. by rewrite Hcols1.
Qed.

(** ** Duplicate locations *)

Lemma duplicated_later (vs seen : list value) (j : nat) (v : value) :
  vs !! j = Some v →
  (v ∈ seen ∨ ∃ i, (i < j)%nat ∧ vs !! i = Some v) →
  duplicated vs seen !! j = Some true.
Proof.
  revert seen j. induction vs as [|x vs IH]; intros seen j Hj Hv; [done|].
  destruct j as [|j]; cbn [duplicated].
  - injection Hj as ->. destruct Hv as [Hv|(i & Hi & _)]; [|lia].
    cbn. by rewrite bool_decide_eq_true_2.
  - cbn in Hj |- *. apply IH; [done|]. destruct Hv as [Hv|(i & Hi & Hvi)].
    + left. apply elem_of_app. by left.
    + destruct i as [|i].
      * injection Hvi as ->. left. apply elem_of_app. right. by left.
      * right. exists i. split; [lia|done].
Qed.

Lemma mask_select_lookup {A} (l : list A) (mask : list bool) (j : nat) (x : A) :
  l !! j = Some x → mask !! j = Some true → x ∈ mask_select l mask.
Proof.
  revert mask j. induction l as [|y l IH]; intros mask j Hl Hm; [done|].
  destruct mask as [|b mask]; [done|]. destruct j as [|j]; cbn in *.
  - injection Hl as ->. injection Hm as ->. by left.
  - destruct b; [right|]; by eapply IH.
Qed.

Lemma mask_select_map {A} (p : A → bool) (l : list A) (x : A) :
  x ∈ l → p x = true → x ∈ mask_select l (map p l).
Proof.
  intros Hx Hp. induction l as [|y l IH]; [by apply elem_of_nil in Hx|].
  cbn. apply elem_of_cons in Hx as [<-|Hx].
  - rewrite Hp. by left.
  - destruct (p y); [right|]; auto.
Qed.

Lemma get_locations_columns (fuel : nat) (self : DatabaseInstance.t) (name : string)
    (selection_dict selection_kwargs : selection) (locs : DataFrame) :
  get_locations fuel self name selection_dict selection_kwargs = Ok locs →
  "location" ∈ columns locs.
Proof.
  unfold get_locations. destruct (dict_get _ _) as [d|]; [|done]. intros H.
  apply bind_Ok in H as (coords & _ & H). apply bind_Ok in H as (location & _ & H).
  injection H as <-. cbn [loc columns]. unfold setitem_series.
  case_bool_decide as Hin; cbn [columns]; [done|]. apply elem_of_app. right. by left.
Qed.

(** C6: when two rows of the resolved locations carry the same location,
    [run_action] raises the duplication error, whatever the action; the error
    holds the rows with a repeated location, among them the two rows, with
    their location column; no action has been called and the world is
    untouched. *)
Theorem run_action_rejects_shared_location (fuel : nat) (self : DatabaseInstance.t)
    (action target : string) (selection_dict : selection) (single : bool)
    (selection_kwargs : selection) (w : World)
    (locs : DataFrame) (i j : nat) (ri rj : list value) :
  get_locations fuel self target selection_dict selection_kwargs = Ok locs →
  i ≠ j →
  rows locs !! i = Some ri →
  rows locs !! j = Some rj →
  cell (columns locs) ri "location" = cell (columns locs) rj "location" →
  run_action fuel self action target selection_dict single selection_kwargs w
  = ({| world := w; invoked := [] |}, Raise (DuplicationProblem (offending locs)))
  ∧ columns (offending locs) = columns locs
  ∧ "location" ∈ columns locs
  ∧ ri ∈ rows (offending locs)
  ∧ rj ∈ rows (offending locs).
Proof.
  intros Hlocs Hij Hi Hj Heq.
  set (location := column locs "location").
  assert (∃ k, duplicated location [] !! k = Some true
               ∧ location !! k = Some (cell (columns locs) ri "location")) as (k & Hk & Hlk).
  { assert (location !! i = Some (cell (columns locs) ri "location")) as Hli.
    { unfold location, column. rewrite map_fmap, list_lookup_fmap, Hi. done. }
    assert (location !! j = Some (cell (columns locs) ri "location")) as Hlj.
    { unfold location, column. rewrite map_fmap, list_lookup_fmap, Hj, Heq. done. }
    destruct (decide (i < j)%nat).
    - exists j. split; [|done]. eapply duplicated_later; [done|]. right. eauto.
    - exists i. split; [|done]. eapply duplicated_later; [done|]. right. exists j.
      split; [lia|done]. }
  assert (∀ r, r ∈ rows locs →
               cell (columns locs) r "location" = cell (columns locs) ri "location" →
               r ∈ rows (offending locs)) as Hoff.
  { intros r Hr Hloc. unfold offending, loc, column. cbn [rows]. rewrite map_map.
    apply (mask_select_map (fun r => isin _ (cell (columns locs) r "location"))); [done|].
    unfold isin. apply bool_decide_eq_true_2. rewrite Hloc.
    by apply mask_select_lookup with (j := k). }
  split_and!.
  - unfold run_action. rewrite Hlocs. fold location.
    assert (existsb id (duplicated location []) = true) as ->; [|done].
    apply existsb_exists. exists true. split; [|done].
    apply list_elem_of_In, list_elem_of_lookup. eauto.
  - done.
  - by eapply get_locations_columns.
  - apply Hoff; [|done]. apply list_elem_of_lookup. eauto.
  - apply Hoff; [|done]. apply list_elem_of_lookup. eauto.
Qed.

(** ** Partial failures *)

Lemma dispatch_cons (coe : bool) (action target : string) (act : ActionProtocol)
    (cols : list string) (tr : trace) (results : list value) (errors : list exn)
    (row : list value) (rows : list (list value)) :
  dispatch coe action target (Some act) cols tr results errors (row :: rows)
  = let tr1 := {| world := (act (world tr) (call_of cols row).1 (call_of cols row).2).1;
                  invoked := invoked tr ++ [call_of cols row] |} in
    match (act (world tr) (call_of cols row).1 (call_of cols row).2).2 with
    | Ok v => dispatch coe action target (Some act) cols tr1 (results ++ [v]) errors rows
    | Raise e =>
        let e := WithNote e (NoteDuring action target (call_of cols row).1
                                        (call_of cols row).2) in
        if coe then dispatch coe action target (Some act) cols tr1 results (errors ++ [e]) rows
        else (tr1, Raise e)
    | Timeout => (tr1, Timeout)
    end.
Proof.
  cbn [dispatch dispatch_row]. unfold call_of. cbn [fst snd].
  destruct (act _ _ _) as [w [v|e|]]; cbn [fst snd]; [done| |done].
  by destruct coe.
Qed.

Lemma outcomes_cons (act : ActionProtocol) (cols : list string) (w : World)
    (row : list value) (rows : list (list value)) :
  outcomes act cols w (row :: rows)
  = (row, (act w (call_of cols row).1 (call_of cols row).2).2)
    :: outcomes act cols (act w (call_of cols row).1 (call_of cols row).2).1 rows.
Proof. cbn [outcomes]. by destruct (act _ _ _). Qed.

Lemma outcomes_rows (act : ActionProtocol) (cols : list string) (w : World)
    (rows : list (list value)) :
  (outcomes act cols w rows).*1 = rows.
Proof.
  revert w. induction rows as [|row rows IH]; intros w; [done|].
  rewrite outcomes_cons. cbn [fmap list_fmap fst]. by rewrite IH.
Qed.

(** With [continue_on_error] the dispatcher goes through all the rows and
    collects what the action returns and what it raises. *)
Lemma dispatch_continue (action target : string) (act : ActionProtocol)
    (cols : list string) (rows : list (list value))
    (tr : trace) (results : list value) (errors : list exn) :
  Forall (fun rr => rr.2 ≠ Timeout) (outcomes act cols (world tr) rows) →
  ∃ tr',
    dispatch true action target (Some act) cols tr results errors rows
    = (tr', Ok (results ++ returned (outcomes act cols (world tr) rows),
                errors ++ map (failure_of action target cols)
                              (failed (outcomes act cols (world tr) rows))))
    ∧ invoked tr' = invoked tr ++ map (call_of cols) rows.
Proof.
  revert tr results errors. induction rows as [|row rows IH]; intros tr results errors Hno.
  - exists tr. cbn. by rewrite !app_nil_r.
  - rewrite outcomes_cons in Hno |- *. apply Forall_cons in Hno as [Hrow Hno].
    rewrite dispatch_cons. cbn zeta. cbn [fst snd] in Hrow.
    set (tr1 := {| world := _; invoked := _ |}).
    unfold returned, failed. cbn [omap list_omap].
    destruct (act _ _ _).2 as [v|e|]; [| |done].
    + destruct (IH tr1 (results ++ [v]) errors Hno) as (tr' & -> & Hinv).
      exists tr'. split.
      * cbn [tr1 world]. by rewrite <- app_assoc.
      * rewrite Hinv. cbn [invoked map tr1]. by rewrite <- app_assoc.
    + set (e' := WithNote e _).
      destruct (IH tr1 results (errors ++ [e']) Hno) as (tr' & -> & Hinv).
      exists tr'. split.
      * cbn [tr1 world map]. by rewrite <- app_assoc.
      * rewrite Hinv. cbn [invoked map tr1]. by rewrite <- app_assoc.
Qed.

(** Without it the dispatcher stops at the first row on which the action
    raises, and goes through all the rows when there is none. *)
Lemma dispatch_fail_fast (action target : string) (act : ActionProtocol)
    (cols : list string) (rows : list (list value))
    (tr : trace) (results : list value) (errors : list exn) :
  Forall (fun rr => rr.2 ≠ Timeout) (outcomes act cols (world tr) rows) →
  ∃ tr',
    (∀ pre row e post,
       outcomes act cols (world tr) rows = pre ++ (row, Raise e) :: post →
       Forall succeeds pre →
       invoked tr' = invoked tr ++ map (call_of cols) (pre.*1 ++ [row])
       ∧ dispatch false action target (Some act) cols tr results errors rows
         = (tr', Raise (failure_of action target cols (row, e))))
    ∧ (failed (outcomes act cols (world tr) rows) = [] →
       invoked tr' = invoked tr ++ map (call_of cols) rows
       ∧ dispatch false action target (Some act) cols tr results errors rows
         = (tr', Ok (results ++ returned (outcomes act cols (world tr) rows), errors))).
Proof.
  revert tr results errors. induction rows as [|row rows IH]; intros tr results errors Hno.
  - exists tr. split.
    + intros pre row e post Heq. by destruct pre.
    + intros _. cbn. by rewrite !app_nil_r.
  - rewrite outcomes_cons in Hno |- *. apply Forall_cons in Hno as [Hrow Hno].
    rewrite dispatch_cons. cbn zeta. cbn [fst snd] in Hrow.
    set (tr1 := {| world := _; invoked := _ |}).
    unfold returned, failed. cbn [omap list_omap].
    destruct (act _ _ _).2 as [v|e|] eqn:Hact; [| |done].
    + destruct (IH tr1 (results ++ [v]) errors Hno) as (tr' & Hraise & Hok).
      exists tr'. split.
      * intros pre row' e' post Heq Hpre. destruct pre as [|x pre]; [by injection Heq|].
        injection Heq as <- Heq. apply Forall_cons in Hpre as [_ Hpre].
        destruct (Hraise pre row' e' post Heq Hpre) as (Hinv & ->).
        split; [|done]. rewrite Hinv. cbn [invoked map app tr1 fmap list_fmap fst].
        by rewrite <- app_assoc.
      * intros Hnone. destruct (Hok Hnone) as (Hinv & ->). split.
        -- rewrite Hinv. cbn [invoked map tr1]. by rewrite <- app_assoc.
        -- cbn [tr1 world]. by rewrite <- app_assoc.
    + exists tr1. split.
      * intros pre row' e' post Heq Hpre. destruct pre as [|x pre].
        -- injection Heq as <- <- _. cbn [invoked map app tr1 fmap list_fmap]. done.
        -- injection Heq as <- _. apply Forall_cons in Hpre as [[v Hv] _]. done.
      * intros Hnone. done.
Qed.

(** C7: for an action that returns or raises on each row: with
    [continue_on_error] every row is handed to the action, in order, and the
    call raises one [ExceptionGroup] holding one failure per failing row, in
    order, each the exception of the action with the context of its row, or,
    when no row fails, returns the locations with the values returned by the
    action attached; without it the call raises the failure of the first
    failing row, the action having been called on the rows up to that one
    only, or returns the same frame when no row fails. *)
Theorem run_action_partial_failures (fuel : nat) (self : DatabaseInstance.t)
    (action target : string) (selection_dict : selection) (single : bool)
    (selection_kwargs : selection) (w : World)
    (locs : DataFrame) (d : Data.t) (act : ActionProtocol) :
  get_locations fuel self target selection_dict selection_kwargs = Ok locs →
  existsb id (duplicated (column locs "location") []) = false →
  action ≠ "location" →
  dict_get (Database.data (db self)) target = Some d →
  dict_get (Data.actions d) action = Some act →
  let outs := outcomes act (columns locs) w (rows locs) in
  Forall (fun rr => rr.2 ≠ Timeout) outs →
  ∃ tr r,
    run_action fuel self action target selection_dict single selection_kwargs w = (tr, r)
    ∧ outs.*1 = rows locs
    ∧ if continue_on_error self then
        invoked tr = map (call_of (columns locs)) (rows locs)
        ∧ r = match failed outs with
              | [] => attached locs action single (returned outs)
              | _ => Raise (ExceptionGroup
                              ("During " +:+ action +:+ " for " +:+ target)
                              (map (failure_of action target (columns locs)) (failed outs)))
              end
      else
        (∀ pre row e post,
           outs = pre ++ (row, Raise e) :: post → Forall succeeds pre →
           invoked tr = map (call_of (columns locs)) (pre.*1 ++ [row])
           ∧ r = Raise (failure_of action target (columns locs) (row, e)))
        ∧ (failed outs = [] →
           invoked tr = map (call_of (columns locs)) (rows locs)
           ∧ r = attached locs action single (returned outs)).
Proof.
  intros Hlocs Hdup Hact Hd Ha outs Hno. unfold run_action. rewrite Hlocs, Hdup.
  rewrite bool_decide_eq_false_2 by done. cbn [negb]. rewrite Hd. cbn [mbind option_bind].
  rewrite Ha. destruct (continue_on_error self).
  - destruct (dispatch_continue action target act (columns locs) (rows locs)
                {| world := w; invoked := [] |} [] [] Hno) as (tr' & -> & Hinv).
    cbn [app world] in *. fold outs.
    destruct (failed outs) as [|re res]; cbn [map length Nat.ltb Nat.leb];
      (eexists _, _; split; [reflexivity|]; split; [apply outcomes_rows|]; split; [done|]);
      reflexivity.
  - destruct (dispatch_fail_fast action target act (columns locs) (rows locs)
                {| world := w; invoked := [] |} [] [] Hno) as (tr' & Hraise & Hok).
    cbn [app world invoked] in *. fold outs in Hraise, Hok.
    destruct (dispatch false _ _ _ _ _ _ _ _) as [tr r] eqn:Hdisp.
    destruct r as [[results errors]|e|];
      [destruct (0 <? length errors)%nat eqn:Hlen| |];
      (eexists _, _; split; [reflexivity|]; split; [apply outcomes_rows|]; split;
       [ intros pre row e' post Heq Hpre;
         destruct (Hraise pre row e' post Heq Hpre) as (Hinv & Heq'); by simplify_eq
       | intros Hnone; destruct (Hok Hnone) as (Hinv & Heq'); simplify_eq;
         try (cbn in Hlen; discriminate); by split ]).
Qed.

(** ** The cache decorator *)

(** A wrapped function that returns [None] and writes nothing is called by
    each of two calls in a row. *)
Lemma cache_can_compute_twice :
  ¬ computes_at_most_once (default_saver Scenario.writes_all) writes_nothing ∅ some_target [].
Proof.
  intros H.
  specialize (H ∅ [some_target] (Ok some_target) ∅ [some_target] (Ok some_target)
                eq_refl eq_refl).
  cbn in H. lia.
Qed.

Lemma cache_hit (msaver : Saver) (f : Cached) (w : World) (out_location : Path)
    (coords : dict) :
  path_exists w out_location = true →
  cache msaver false f w out_location coords = (w, [], Ok out_location).
Proof. intros H. unfold cache. by rewrite H. Qed.

Lemma cache_calls (msaver : Saver) (force : bool) (f : Cached) (w : World)
    (out_location : Path) (coords : dict) :
  (length (cache msaver force f w out_location coords).1.2 ≤ 1)%nat.
Proof.
  unfold cache. destruct (_ && _); [cbn; lia|].
  destruct (f w out_location coords) as [w1 [[res|]|e|]]; try (cbn; lia).
  destruct (safe_save _ _ _ _) as [w2 [?|?|]]; cbn; lia.
Qed.

Lemma safe_save_publishes (saver : Saver) (w w' : World) (path : Path) (o : saved) (u : unit) :
  safe_save saver w path o = (w', Ok u) → path_exists w' path = true.
Proof.
  unfold safe_save. destruct (saver _ _ _) as [w1 [?|?|]]; [|done..].
  unfold shutil_move. destruct (path_exists w1 _); [|done].
  intros [= <- _]. unfold path_exists. apply bool_decide_eq_true_2. set_solver.
Qed.

(** C8, as the code has it: after a first call that returns, the artifact is
    at the target exactly when it was there before, or the wrapped function
    returned an object (which the wrapper saved), or the wrapped function
    wrote it itself; and when the artifact is at the target after the first
    call and is still there in a later world, the wrapped function has been
    called at most once by the first call, and the second call returns the
    target without calling it and without touching the world. *)
Theorem cache_second_call_is_a_hit (msaver : Saver) (f : Cached) (w w1 w2 : World)
    (out_location : Path) (coords : dict) (calls1 : list Path) (r1 : result Path) :
  cache msaver false f w out_location coords = (w1, calls1, r1) →
  (path_exists w1 out_location = true → path_exists w2 out_location = true) →
  (r1 = Ok out_location →
   (path_exists w1 out_location = true
    ↔ path_exists w out_location = true
      ∨ ∃ wf rf, f w out_location coords = (wf, Ok rf)
                 ∧ (is_Some rf ∨ path_exists wf out_location = true)))
  ∧ (path_exists w1 out_location = true →
     ∃ calls2,
       cache msaver false f w2 out_location coords = (w2, calls2, Ok out_location)
       ∧ calls2 = []
       ∧ (length (calls1 ++ calls2) ≤ 1)%nat).
Proof.
  intros Hfirst Hkept. split.
  - intros ->. unfold cache in Hfirst.
    destruct (path_exists w out_location) eqn:Hw; cbn [andb negb] in Hfirst.
    + injection Hfirst as <- _. split; [by left|done].
    + destruct (f w out_location coords) as [wf [[res|]|e|]] eqn:Hf; [| |done..].
      * destruct (safe_save _ _ _ _) as [w' [u|?|]] eqn:Hsave; [|done..].
        injection Hfirst as <- _. split.
        -- intros _. right. exists wf, (Some res). split; [done|]. by left.
        -- intros _. by eapply safe_save_publishes.
      * injection Hfirst as <- _. split.
        -- intros Hex. right. exists wf, None. split; [done|]. by right.
        -- intros [?|(wf' & rf & [= <- <-] & [[? [=]]|?])]; done.
  - intros Hex. exists []. split; [by apply cache_hit, Hkept|]. split; [done|].
    rewrite app_nil_r. pose proof (cache_calls msaver false f w out_location coords) as Hc.
    by rewrite Hfirst in Hc.
Qed.

(** ** Joining registries *)

Lemma declare_coord_computers (res : Database.t) (ccs : list CoordComputer.t) :
  foldM (fun res cc => Database.declare res (ACoordComputer cc)) res ccs
  = Ok (Database.mk (Database.name res) (Database.coord_computers res ++ ccs)
                    (Database.data res)).
Proof.
  revert res. induction ccs as [|cc ccs IH]; intros res.
  - cbn [foldM]. rewrite app_nil_r. by destruct res.
  - cbn [foldM]. unfold Database.declare at 2. cbn [mbind result_bind]. rewrite IH.
    cbn [Database.name Database.coord_computers Database.data].
    by rewrite <- app_assoc.
Qed.

Lemma dict_set_fresh_keys {V} (d : list (string * V)) (k : string) (v : V) :
  k ∉ d.*1 → (dict_set d k v).*1 = d.*1 ++ [k].
Proof.
  intros Hk. unfold dict_set. rewrite bool_decide_eq_false_2 by done.
  by rewrite fmap_app.
Qed.

(** Declaring data one after the other succeeds exactly when no name is
    taken; nothing but a name collision can stop it. *)
Lemma declare_data (res : Database.t) (ds : list Data.t) :
  (NoDup ((Database.data res).*1 ++ map Data.name ds) →
   ∃ res', foldM (fun res d => Database.declare res (AData d)) res ds = Ok res'
           ∧ Database.name res' = Database.name res
           ∧ Database.coord_computers res' = Database.coord_computers res
           ∧ (Database.data res').*1 = (Database.data res).*1 ++ map Data.name ds)
  ∧ (¬ NoDup ((Database.data res).*1 ++ map Data.name ds) →
     NoDup (Database.data res).*1 →
     ∃ n, foldM (fun res d => Database.declare res (AData d)) res ds
          = Raise (DataAlreadyExists n)).
Proof.
  revert res. induction ds as [|d ds IH]; intros res.
  - cbn [map foldM]. rewrite app_nil_r. split; [|done].
    intros _. by exists res.
  - cbn [map foldM].
    assert (Database.declare res (AData d)
            = if bool_decide (Data.name d ∈ (Database.data res).*1)
              then Raise (DataAlreadyExists (Data.name d))
              else Ok (Database.mk (Database.name res) (Database.coord_computers res)
                                   (dict_set (Database.data res) (Data.name d) d))) as ->
      by done.
    case_bool_decide as Hin.
    + cbn [mbind result_bind]. split.
      * intros Hnd. exfalso. apply NoDup_app in Hnd as (_ & Hdisj & _).
        apply (Hdisj _ Hin). by left.
      * eauto.
    + cbn [mbind result_bind].
      set (res1 := Database.mk _ _ _).
      assert ((Database.data res1).*1 = (Database.data res).*1 ++ [Data.name d]) as Hkeys
        by (by apply dict_set_fresh_keys).
      destruct (IH res1) as [IHok IHbad]. rewrite Hkeys, <- app_assoc in IHok, IHbad.
      split.
      * intros Hnd. destruct (IHok Hnd) as (res' & -> & ? & ? & Hk).
        by exists res'.
      * intros Hnd Hres. apply IHbad; [done|].
        apply NoDup_app. split_and!; [done| |apply NoDup_singleton].
        intros x Hx Hx'. apply list_elem_of_singleton in Hx' as ->. done.
Qed.

Lemma join_fold (dbs : list Database.t) (res : Database.t) :
  NoDup (Database.data res).*1 →
  (NoDup ((Database.data res).*1 ++ data_names dbs) →
   ∃ res',
     foldM (fun res db =>
              res ← foldM (fun res cc => Database.declare res (ACoordComputer cc)) res
                          (Database.coord_computers db);
              foldM (fun res d => Database.declare res (AData d)) res (Database.data db).*2)
           res dbs = Ok res'
     ∧ Database.coord_computers res'
       = Database.coord_computers res ++ concat (map Database.coord_computers dbs))
  ∧ (¬ NoDup ((Database.data res).*1 ++ data_names dbs) →
     ∃ n,
       foldM (fun res db =>
                res ← foldM (fun res cc => Database.declare res (ACoordComputer cc)) res
                            (Database.coord_computers db);
                foldM (fun res d => Database.declare res (AData d)) res (Database.data db).*2)
             res dbs = Raise (DataAlreadyExists n)).
Proof.
  revert res. induction dbs as [|db dbs IH]; intros res Hres.
  - cbn. rewrite !app_nil_r. split; [|done]. intros _. by exists res.
  - cbn [foldM]. rewrite declare_coord_computers. cbn [mbind result_bind].
    set (res1 := Database.mk _ _ _).
    unfold data_names. cbn [map concat]. fold (data_names dbs).
    destruct (declare_data res1 (Database.data db).*2) as [Hok Hbad].
    cbn [res1 Database.data Database.name Database.coord_computers] in Hok, Hbad.
    rewrite app_assoc.
    destruct (decide (NoDup ((Database.data res).*1 ++ map Data.name (Database.data db).*2)))
      as [Hnd|Hnd].
    + destruct (Hok Hnd) as (res2 & -> & _ & Hccs & Hkeys). cbn [mbind result_bind].
      destruct (IH res2) as [IHok IHbad]; [by rewrite Hkeys|].
      rewrite Hkeys in IHok, IHbad. split; [|done].
      intros Hnd'. destruct (IHok Hnd') as (res' & -> & Hccs').
      exists res'. split; [done|]. rewrite Hccs', Hccs. cbn [map concat].
      by rewrite app_assoc.
    + destruct (Hbad Hnd Hres) as (n & ->). cbn [mbind result_bind]. split; [|eauto].
      intros Hnd'. exfalso. apply Hnd. by apply NoDup_app in Hnd' as (? & _).
Qed.

(** ** Two computers for one coordinate *)

Lemma init_coordinates_spec (cc : CoordComputer.t) (l : list string)
    (coords : gmap string CoordComputer.t) :
  NoDup l →
  ((∀ c, c ∈ l → c ∉ dom coords) →
   ∃ coords',
     foldM (fun (coords : gmap string CoordComputer.t) c =>
              if bool_decide (c ∈ dom coords)
              then Raise (CoordinateHasTwoComputers c)
              else Ok (<[c := cc]> coords)) coords l = Ok coords'
     ∧ dom coords' = dom coords ∪ list_to_set l)
  ∧ ((∃ c, c ∈ l ∧ c ∈ dom coords) →
     ∃ c, c ∈ l ∧ c ∈ dom coords
          ∧ foldM (fun (coords : gmap string CoordComputer.t) c =>
                     if bool_decide (c ∈ dom coords)
                     then Raise (CoordinateHasTwoComputers c)
                     else Ok (<[c := cc]> coords)) coords l
            = Raise (CoordinateHasTwoComputers c)).
Proof.
  revert coords. induction l as [|x l IH]; intros coords Hnd.
  - split.
    + intros _. exists coords. split; [done|]. set_solver.
    + intros (c & Hc & _). by apply elem_of_nil in Hc.
  - apply NoDup_cons in Hnd as [Hx Hnd]. cbn [foldM]. case_bool_decide as Hin.
    + cbn [mbind result_bind]. split.
      * intros H. exfalso. apply (H x); [by left|done].
      * intros _. exists x. split_and!; [by left|done..].
    + cbn [mbind result_bind]. destruct (IH (<[x := cc]> coords) Hnd) as [IHok IHbad].
      split.
      * intros H. destruct IHok as (coords' & -> & Hdom).
        { intros c Hc. rewrite dom_insert_L. 
          assert (c ≠ x) by (intros ->; done).
          assert (c ∉ dom coords) by (apply H; by right). set_solver. }
        exists coords'. split; [done|]. rewrite Hdom, dom_insert_L. set_solver.
      * intros (c & Hc & Hdomc). apply elem_of_cons in Hc as [->|Hc]; [done|].
        destruct IHbad as (c' & Hc' & Hdom' & ->).
        { exists c. split; [done|]. rewrite dom_insert_L. set_solver. }
        exists c'. split_and!; [by right| |done].
        rewrite dom_insert_L in Hdom'. 
        assert (c' ≠ x) by (intros ->; done). set_solver.
Qed.

Lemma init_computers_spec (ccs : list CoordComputer.t) (coords : gmap string CoordComputer.t) :
  (conflict_free (dom coords) ccs →
   ∃ coords',
     foldM (fun coords cc =>
              foldM (fun (coords : gmap string CoordComputer.t) c =>
                       if bool_decide (c ∈ dom coords)
                       then Raise (CoordinateHasTwoComputers c)
                       else Ok (<[c := cc]> coords))
                    coords (elements (CoordComputer.coords cc)))
           coords ccs = Ok coords')
  ∧ (¬ conflict_free (dom coords) ccs →
     ∃ c,
       foldM (fun coords cc =>
                foldM (fun (coords : gmap string CoordComputer.t) c =>
                         if bool_decide (c ∈ dom coords)
                         then Raise (CoordinateHasTwoComputers c)
                         else Ok (<[c := cc]> coords))
                      coords (elements (CoordComputer.coords cc)))
             coords ccs = Raise (CoordinateHasTwoComputers c)).
Proof.
  revert coords. induction ccs as [|cc ccs IH]; intros coords.
  - split; [by exists coords|]. intros H. by destruct H.
  - cbn [foldM conflict_free].
    destruct (init_coordinates_spec cc (elements (CoordComputer.coords cc)) coords
                (NoDup_elements _)) as [Hok Hbad].
    destruct (decide (CoordComputer.coords cc ∩ dom coords = ∅)) as [Hdisj|Hdisj].
    + destruct Hok as (coords1 & -> & Hdom).
      { intros c Hc. apply elem_of_elements in Hc. set_solver. }
      cbn [mbind result_bind]. destruct (IH coords1) as [IHok IHbad].
      rewrite Hdom, list_to_set_elements_L in IHok, IHbad. split.
      * intros [_ Hfree]. by apply IHok.
      * intros Hfree. apply IHbad. intros H. apply Hfree. split; [set_solver|done].
    + apply set_choose_L in Hdisj as (c0 & Hc0).
      destruct Hbad as (c & _ & _ & ->).
      { exists c0. rewrite elem_of_elements. set_solver. }
      cbn [mbind result_bind]. split; [|eauto].
      intros [Hdisj _]. set_solver.
Qed.

Lemma seen_conflict (ccs : list CoordComputer.t) (seen : gset string) (j : nat)
    (ccj : CoordComputer.t) (c : string) :
  c ∈ seen → ccs !! j = Some ccj → c ∈ CoordComputer.coords ccj →
  ¬ conflict_free seen ccs.
Proof.
  revert seen j. induction ccs as [|cc ccs IH]; intros seen j Hc Hj Hcj; [done|].
  intros [Hdisj Hfree]. destruct j as [|j].
  - injection Hj as ->. set_solver.
  - apply (IH (seen ∪ CoordComputer.coords cc) j); [set_solver|done..].
Qed.

Lemma shared_conflict (ccs : list CoordComputer.t) (seen : gset string) (i j : nat)
    (cci ccj : CoordComputer.t) (c : string) :
  (i < j)%nat → ccs !! i = Some cci → ccs !! j = Some ccj →
  c ∈ CoordComputer.coords cci → c ∈ CoordComputer.coords ccj →
  ¬ conflict_free seen ccs.
Proof.
  revert seen i j. induction ccs as [|cc ccs IH]; intros seen i j Hij Hi Hj Hci Hcj; [done|].
  intros [Hdisj Hfree]. destruct j as [|j]; [lia|]. destruct i as [|i].
  - injection Hi as ->. revert Hfree. apply (seen_conflict _ _ j ccj c); [set_solver|done..].
  - revert Hfree. apply (IH _ i j); [lia|done..].
Qed.

(** C9: [join] succeeds exactly when the data of the registries have distinct
    names, and fails with the data-name error otherwise, whatever the
    computers; the registry it returns lists all the computers, and when two
    of them produce a same coordinate [initialize] raises the two-computers
    error. *)
Theorem join_leaves_duplicate_producers_to_initialize
    (dbs : list Database.t) (new_name : option string) :
  (NoDup (data_names dbs) → ∃ res, Database.join dbs new_name = Ok res)
  ∧ (¬ NoDup (data_names dbs) →
     ∃ n, Database.join dbs new_name = Raise (DataAlreadyExists n))
  ∧ ∀ res,
      Database.join dbs new_name = Ok res →
      Database.coord_computers res = concat (map Database.coord_computers dbs)
      ∧ ∀ i j cci ccj c,
          i ≠ j →
          Database.coord_computers res !! i = Some cci →
          Database.coord_computers res !! j = Some ccj →
          c ∈ CoordComputer.coords cci →
          c ∈ CoordComputer.coords ccj →
          ∃ c', initialize res = Raise (CoordinateHasTwoComputers c').
Proof.
  unfold Database.join.
  set (new_name' := default _ new_name).
  destruct (join_fold dbs (Database.new new_name') (NoDup_nil_2)) as [Hok Hbad].
  cbn [Database.new Database.data Database.coord_computers fmap list_fmap app] in Hok, Hbad.
  split_and!.
  - intros Hnd. destruct (Hok Hnd) as (res & -> & _). eauto.
  - done.
  - intros res Hres.
    assert (Database.coord_computers res = concat (map Database.coord_computers dbs)) as Hccs.
    { destruct (decide (NoDup (data_names dbs))) as [Hnd|Hnd].
      - destruct (Hok Hnd) as (res' & Hres' & Hccs). congruence.
      - destruct (Hbad Hnd) as (n & Hn). congruence. }
    split; [done|]. intros i j cci ccj c Hij Hi Hj Hci Hcj.
    unfold initialize, DatabaseInstance.__init__.
    destruct (init_computers_spec (Database.coord_computers res) ∅) as [_ Hraise].
    destruct Hraise as (c' & ->); [|by exists c'].
    destruct (decide (i < j)%nat).
    + by apply (shared_conflict _ _ i j cci ccj c).
    + apply (shared_conflict _ _ j i ccj cci c); [lia|done..].
Qed.

(** ** The scenarios *)

(** C1: with [a] = 1, 2, 3 (no dependency) and [b = a * 10] (dependency [a]),
    resolving [a] and [b] with an empty filter returns the rows (1,10),
    (2,20), (3,30) and no other, each once, in whichever order the two
    computers were declared. *)
Theorem resolve_a_b (fuel : nat) :
  Forall (fun ccs =>
            ∃ res,
              (self ← Scenario.registry ccs [];
               get_coords (3 + fuel) self ["a"; "b"] [] []) = Ok res
              ∧ columns res = ["a"; "b"]
              ∧ Permutation (rows res)
                  [[VInt 1; VInt 10]; [VInt 2; VInt 20]; [VInt 3; VInt 30]])
         [[Scenario.a; Scenario.b]; [Scenario.b; Scenario.a]].
Proof.
  repeat constructor;
    (eexists; split; [vm_compute; reflexivity|]; split; [reflexivity|apply Permutation_refl]).
Qed.

(** C4, at the input where the code departs from it: with the filter
    [{"a": slice(0, 5)}] on a coordinate [a] = -1, 1, 7 the resolution returns
    the row [a = -1], which is below the start of the range; the start [0] is
    taken for an absent bound. *)
Theorem slice_from_zero_keeps_negative_values (fuel : nat) :
  (self ← Scenario.registry [Scenario.signed] [];
   get_coords (2 + fuel) self ["a"] [("a", SelSlice (VInt 0) (VInt 5) VNone)] [])
  = Ok {| columns := ["a"]; rows := [[VInt (-1)]; [VInt 1]] |}
  ∧ pd_ge (VInt (-1)) (VInt 0) = Ok false.
Proof. split; [vm_compute; reflexivity|reflexivity]. Qed.

(** C5, at the input where the code departs from it: the locations of [art]
    resolve to a single row, [_extract_single] would return its location, and
    [get_single_location] raises an [AttributeError], as it does on every
    input. *)
Theorem get_single_location_raises_on_a_single_row (fuel : nat) :
  let self := Scenario.instance [Scenario.single] [Scenario.art] false in
  ∃ locs,
    Scenario.registry [Scenario.single] [Scenario.art] = Ok self
    ∧ get_locations (2 + fuel) self "art" [] [] = Ok locs
    ∧ length (rows locs) = 1%nat
    ∧ _extract_single locs "location" = Ok (VInt 1)
    ∧ (∀ fuel self name selection_dict selection_kwargs,
         get_single_location fuel self name selection_dict selection_kwargs
         = Raise (AttributeError "DatabaseInstance" "_extract_unique")).
Proof.
  eexists. split; [vm_compute; reflexivity|]. split; [vm_compute; reflexivity|].
  split; [reflexivity|]. split; [reflexivity|]. reflexivity.
Qed.

(** ** Instances of the general statements *)

Lemma collapse_keeps_columns_example :
  ∃ res groups,
    collapse {["a"]} fan_out = Ok res
    ∧ groupby fan_out (elements ({["a"]} : gset string)) = Ok groups
    ∧ (∀ c, c ∈ columns res ↔ c ∈ columns fan_out ∧ ∀ g, g ∈ groups → constant_in g c)
    ∧ rows res = map (fun r => reindex (columns fan_out) r (columns res))
                     (representatives fan_out (elements ({["a"]} : gset string)) groups)
    ∧ representatives fan_out (elements ({["a"]} : gset string)) groups
      ≡ₚ map (fun g => hd [] (rows g)) groups.
Proof.
  exists {| columns := ["a"]; rows := [[VInt 1]; [VInt 2]] |},
         [ {| columns := ["a"; "c"]; rows := [[VInt 1; VInt 5]] |};
           {| columns := ["a"; "c"]; rows := [[VInt 2; VInt 6]; [VInt 2; VInt 7]] |} ].
  split; [reflexivity|]. split; [reflexivity|].
  apply (collapse_keeps_columns_constant_in_every_group {["a"]} fan_out); reflexivity.
Defined.

Lemma get_coords_unique_example :
  let self := Scenario.instance [Scenario.a; Scenario.b] [] false in
  ∃ res,
    get_coords 3 self ["b"] [] [] = Ok res
    ∧ NoDup (map (fun r => reindex (columns res) r ["b"]) (rows res)).
Proof.
  eexists. split; [vm_compute; reflexivity|].
  apply (get_coords_unique 3 (Scenario.instance [Scenario.a; Scenario.b] [] false)
                           ["b"] [] []).
  vm_compute. reflexivity.
Defined.

Lemma absent_filter_entry_example :
  let self := Scenario.instance [Scenario.a; Scenario.b] [] false in
  get_coords 3 self ["a"; "b"] (dict_del [("zone", SelValue (VInt 4))] "zone") (dict_del [] "zone")
  = get_coords 3 self ["a"; "b"] [("zone", SelValue (VInt 4))] [].
Proof.
  apply (absent_filter_entry_is_ignored 3
           (Scenario.instance [Scenario.a; Scenario.b] [] false) ["a"; "b"]
           [("zone", SelValue (VInt 4))] [] "zone").
  intros t Ht. vm_compute in Ht.
  repeat (apply elem_of_cons in Ht as [->|Ht]; [vm_compute; set_solver|]).
  by apply elem_of_nil in Ht.
Defined.

Lemma run_action_rejects_shared_location_example :
  let self := Scenario.instance [Scenario.a] [Scenario.twin] false in
  let locs := {| columns := ["a"; "location"];
                 rows := [[VInt 1; VStr "same"]; [VInt 2; VStr "same"];
                          [VInt 3; VStr "same"]] |} in
  run_action 2 self "compute" "twin" [] false [] ∅
  = ({| world := ∅; invoked := [] |}, Raise (DuplicationProblem (offending locs)))
  ∧ columns (offending locs) = columns locs
  ∧ "location" ∈ columns locs
  ∧ [VInt 1; VStr "same"] ∈ rows (offending locs)
  ∧ [VInt 2; VStr "same"] ∈ rows (offending locs).
Proof.
  apply (run_action_rejects_shared_location 2
           (Scenario.instance [Scenario.a] [Scenario.twin] false)
           "compute" "twin" [] false [] ∅ _ 0 1).
  - vm_compute. reflexivity.
  - lia.
  - reflexivity.
  - reflexivity.
  - reflexivity.
Defined.

Lemma run_action_partial_failures_example :
  let self := Scenario.instance [Scenario.a] [Scenario.art] true in
  let cols := ["a"; "location"] in
  let locs := {| columns := cols;
                 rows := [[VInt 1; VInt 1]; [VInt 2; VInt 2]; [VInt 3; VInt 3]] |} in
  let outs := outcomes Scenario.compute_art cols ∅ (rows locs) in
  ∃ tr r,
    run_action 2 self "compute" "art" [] false [] ∅ = (tr, r)
    ∧ outs.*1 = rows locs
    ∧ invoked tr = map (call_of cols) (rows locs)
    ∧ r = match failed outs with
          | [] => attached locs "compute" false (returned outs)
          | _ => Raise (ExceptionGroup "During compute for art"
                                       (map (failure_of "compute" "art" cols) (failed outs)))
          end.
Proof.
  refine (run_action_partial_failures 2
            (Scenario.instance [Scenario.a] [Scenario.art] true)
            "compute" "art" [] false [] ∅
            {| columns := ["a"; "location"];
               rows := [[VInt 1; VInt 1]; [VInt 2; VInt 2]; [VInt 3; VInt 3]] |}
            Scenario.art Scenario.compute_art
            _ _ _ _ _ _).
  - vm_compute. reflexivity.
  - reflexivity.
  - done.
  - reflexivity.
  - reflexivity.
  - vm_compute. repeat constructor; discriminate.
Defined.

Lemma cache_second_call_example :
  let f : Cached := fun w _ _ => (w, Ok (Some (SavedObject (VInt 1)))) in
  let saver := default_saver Scenario.writes_all in
  let first := cache saver false f ∅ some_target [] in
  (first.2 = Ok some_target →
   (path_exists first.1.1 some_target = true
    ↔ path_exists ∅ some_target = true
      ∨ ∃ wf rf, f ∅ some_target [] = (wf, Ok rf)
                 ∧ (is_Some rf ∨ path_exists wf some_target = true)))
  ∧ (path_exists first.1.1 some_target = true →
     ∃ calls2,
       cache saver false f first.1.1 some_target [] = (first.1.1, calls2, Ok some_target)
       ∧ calls2 = []
       ∧ (length (first.1.2 ++ calls2) ≤ 1)%nat).
Proof.
  apply (cache_second_call_is_a_hit (default_saver Scenario.writes_all)
           (fun w _ _ => (w, Ok (Some (SavedObject (VInt 1))))) ∅ _ _ some_target []
           _ (Ok some_target)).
  - vm_compute. reflexivity.
  - done.
Defined.

Lemma join_then_initialize_example :
  ∃ res c,
    Database.join [Scenario.left_db; Scenario.right_db] None = Ok res
    ∧ initialize res = Raise (CoordinateHasTwoComputers c).
Proof.
  destruct (join_leaves_duplicate_producers_to_initialize
              [Scenario.left_db; Scenario.right_db] None) as (Hok & _ & Hall).
  destruct Hok as (res & Hres).
  { vm_compute. repeat constructor; set_solver. }
  destruct (Hall res Hres) as (Hccs & Hdup).
  destruct (Hdup 0%nat 1%nat Scenario.a Scenario.single "a") as (c & Hc).
  - lia.
  - by rewrite Hccs.
  - by rewrite Hccs.
  - vm_compute. set_solver.
  - vm_compute. set_solver.
  - by exists res, c.
Defined.

(** * Further properties *)

(** ** The closure of the dependencies *)

Lemma get_dependencies_closure (fuel : nat)
    (coords : gmap string CoordComputer.t) (names res : gset string) :
  _get_dependencies fuel coords names = Ok res →
  names ⊆ res
  ∧ closed_under_dependencies coords res
  ∧ ∀ S, names ⊆ S → closed_under_dependencies coords S → res ⊆ S.
Proof.
  revert names res. induction fuel as [|fuel IH]; intros names res; [done|].
  cbn [_get_dependencies].
  assert (∀ l acc res,
            foldM (fun res n =>
                     match coords !! n with
                     | None => Raise (KeyError n)
                     | Some cc =>
                         deps ← _get_dependencies fuel coords (CoordComputer.dependencies cc);
                         Ok (res ∪ {[n]} ∪ deps)
                     end) acc l = Ok res →
            acc ⊆ res
            ∧ (∀ n, n ∈ l → n ∈ res)
            ∧ (closed_under_dependencies coords acc → closed_under_dependencies coords res)
            ∧ ∀ S, acc ⊆ S → (∀ n, n ∈ l → n ∈ S) →
                   closed_under_dependencies coords S → res ⊆ S) as Hfold.
  { clear names res. induction l as [|n l IHl]; intros acc res H.
    - injection H as <-. split_and!; [done| |done|auto].
      intros n Hn. by apply elem_of_nil in Hn.
    - cbn [foldM] in H. apply bind_Ok in H as (acc' & Hn & H).
      destruct (coords !! n) as [cc|] eqn:Hcc; [|done].
      apply bind_Ok in Hn as (deps & Hdeps & [= <-]).
      destruct (IH _ _ Hdeps) as (Hsub & Hclosed & Hleast).
      destruct (IHl _ _ H) as (Hacc & Hl & Hcl & Hmin).
      assert (acc ⊆ acc ∪ {[n]} ∪ deps) as Hinc
        by (intros m Hm; rewrite !elem_of_union; tauto).
      assert (n ∈ acc ∪ {[n]} ∪ deps) as Hn
        by (rewrite !elem_of_union, elem_of_singleton; tauto).
      split_and!.
      + by etrans.
      + intros m Hm. apply elem_of_cons in Hm as [->|Hm]; [by apply Hacc|auto].
      + intros Hc. apply Hcl. intros m Hm.
        rewrite !elem_of_union, elem_of_singleton in Hm.
        destruct Hm as [[Hm| ->]|Hm].
        * destruct (Hc m Hm) as (cc' & ? & Hd). exists cc'. split; [done|].
          intros k Hk. rewrite !elem_of_union. left. left. by apply Hd.
        * exists cc. split; [done|].
          intros k Hk. rewrite !elem_of_union. right. by apply Hsub.
        * destruct (Hclosed m Hm) as (cc' & ? & Hd). exists cc'. split; [done|].
          intros k Hk. rewrite !elem_of_union. right. by apply Hd.
      + intros S HS Hin Hclosed'. apply Hmin; [|intros m Hm; apply Hin; by right|done].
        assert (n ∈ S) as HnS by (apply Hin; by left).
        destruct (Hclosed' n HnS) as (cc' & Hcc' & Hdep). simplify_eq.
        assert (deps ⊆ S) as Hdeps' by (by apply Hleast).
        intros m Hm. rewrite !elem_of_union, elem_of_singleton in Hm.
        destruct Hm as [[Hm| ->]|Hm]; [by apply HS|done|by apply Hdeps']. }
  intros H. destruct (Hfold _ _ _ H) as (_ & Hl & Hcl & Hmin). split_and!.
  - intros n Hn. apply Hl. by apply elem_of_elements.
  - apply Hcl. intros n Hn. by apply not_elem_of_empty in Hn.
  - intros S HS Hclosed. apply Hmin; [apply empty_subseteq| |done].
    intros n Hn. apply HS. by apply elem_of_elements.
Qed.

(** X1: when [_get_dependencies] returns, the set it returns contains the
    names asked for, every name in it has a computer whose dependencies are in
    it too, and it is the least such set. *)
Theorem get_dependencies_is_the_closure (fuel : nat)
    (coords : gmap string CoordComputer.t) (names res : gset string) :
  _get_dependencies fuel coords names = Ok res →
  names ⊆ res
  ∧ closed_under_dependencies coords res
  ∧ ∀ S, names ⊆ S → closed_under_dependencies coords S → res ⊆ S.
Proof. apply get_dependencies_closure. Qed.

(** ** Termination of the closure *)

Lemma foldM_Ok_steps {A B} (body : A → B → result A) (l : list B) (acc res : A) (x : B) :
  foldM body acc l = Ok res → x ∈ l → ∃ acc' res', body acc' x = Ok res'.
Proof.
  revert acc. induction l as [|y l IH]; intros acc H Hx; [by apply elem_of_nil in Hx|].
  cbn [foldM] in H. apply bind_Ok in H as (acc' & Hstep & H).
  apply elem_of_cons in Hx as [->|Hx]; [by exists acc, acc'|by eapply IH].
Qed.

Lemma foldM_steps_Ok {A B} (body : A → B → result A) (l : list B) (acc : A) :
  (∀ acc x, x ∈ l → ∃ acc', body acc x = Ok acc') → ∃ res, foldM body acc l = Ok res.
Proof.
  revert acc. induction l as [|y l IH]; intros acc H; [by exists acc|].
  cbn [foldM]. destruct (H acc y) as [acc' ->]; [by left|]. cbn.
  apply IH. intros acc0 x Hx. apply H. by right.
Qed.

(** X2: on a registry without circular dependencies [_get_dependencies]
    returns: when the names asked for lie in a set of names that all have a
    computer, and a measure [rank] decreases from each of them to its
    dependencies, a fuel above the ranks of the names is enough. *)
Theorem get_dependencies_returns_without_a_cycle (rank : string → nat)
    (coords : gmap string CoordComputer.t) (S0 names : gset string) (fuel : nat) :
  (∀ n, n ∈ S0 →
        ∃ cc, coords !! n = Some cc
              ∧ ∀ m, m ∈ CoordComputer.dependencies cc → m ∈ S0 ∧ (rank m < rank n)%nat) →
  names ⊆ S0 →
  (∀ n, n ∈ names → (rank n < fuel)%nat) →
  ∃ res, _get_dependencies (S fuel) coords names = Ok res.
Proof.
  intros Hacyclic. revert names. induction fuel as [|fuel IH]; intros names Hsub Hrank.
  - cbn [_get_dependencies]. apply foldM_steps_Ok. intros acc n Hn.
    apply elem_of_elements, Hrank in Hn. lia.
  - remember (S fuel) as fuel1 eqn:Hfuel. cbn [_get_dependencies].
    apply foldM_steps_Ok. intros acc n Hn. apply elem_of_elements in Hn.
    destruct (Hacyclic n (Hsub n Hn)) as (cc & -> & Hdeps).
    destruct (IH (CoordComputer.dependencies cc)) as [deps Hdeps'].
    + intros m Hm. by apply Hdeps.
    + intros m Hm. apply Hdeps in Hm as [_ Hm]. apply Hrank in Hn. lia.
    + subst fuel1. rewrite Hdeps'. cbn. eexists. reflexivity.
Qed.

(** X3: a circular dependency never resolves: when some name asked for lies
    in a set of names each of which has no computer or depends on a name of
    the set, [_get_dependencies] returns no set, whatever the fuel (the
    recursion of the source has no end other than an error). *)
Theorem get_dependencies_never_returns_on_a_cycle
    (coords : gmap string CoordComputer.t) (C names : gset string) (n : string)
    (fuel : nat) (res : gset string) :
  (∀ n, n ∈ C →
        ∀ cc, coords !! n = Some cc → ∃ m, m ∈ CoordComputer.dependencies cc ∧ m ∈ C) →
  n ∈ names → n ∈ C →
  _get_dependencies fuel coords names ≠ Ok res.
Proof.
  intros Hcycle. revert names n res.
  induction fuel as [|fuel IH]; intros names n res Hn HC H; [done|].
  cbn [_get_dependencies] in H.
  eapply foldM_Ok_steps in H as (acc & res' & H); [|apply elem_of_elements, Hn].
  cbn beta in H. destruct (coords !! n) as [cc|] eqn:Hcc; [|done].
  apply bind_Ok in H as (deps & Hdeps & _).
  destruct (Hcycle n HC cc Hcc) as (m & Hm & HmC).
  exact (IH _ m _ Hm HmC Hdeps).
Qed.

(** ** The index of an instance *)

Lemma init_coordinates_index (cc : CoordComputer.t) (l : list string)
    (coords coords' : gmap string CoordComputer.t) :
  foldM (fun (coords : gmap string CoordComputer.t) c =>
           if bool_decide (c ∈ dom coords)
           then Raise (CoordinateHasTwoComputers c)
           else Ok (<[c := cc]> coords)) coords l = Ok coords' →
  (∀ c, c ∈ l → c ∉ dom coords)
  ∧ ∀ c, coords' !! c = if decide (c ∈ l) then Some cc else coords !! c.
Proof.
  revert coords. induction l as [|x l IH]; intros coords H.
  - injection H as <-. split.
    + intros c Hc. by apply elem_of_nil in Hc.
    + intros c. rewrite decide_False; [done|]. apply not_elem_of_nil.
  - cbn [foldM] in H. case_bool_decide as Hx; [done|]. cbn [mbind result_bind] in H.
    destruct (IH _ H) as [Hfresh Hlook]. split.
    + intros c Hc. apply elem_of_cons in Hc as [->|Hc]; [done|].
      specialize (Hfresh c Hc). rewrite dom_insert_L in Hfresh. set_solver.
    + intros c. rewrite Hlook. destruct (decide (c ∈ l)) as [Hc|Hc].
      * rewrite decide_True; [done|]. by right.
      * destruct (decide (c = x)) as [->|Hne].
        -- rewrite lookup_insert_eq. rewrite decide_True; [done|]. by left.
        -- rewrite lookup_insert_ne by done. rewrite decide_False; [done|].
           intros Hin. apply elem_of_cons in Hin as [?|?]; done.
Qed.

Lemma init_computers_index (ccs : list CoordComputer.t)
    (coords coords' : gmap string CoordComputer.t) :
  foldM (fun coords cc =>
           foldM (fun (coords : gmap string CoordComputer.t) c =>
                    if bool_decide (c ∈ dom coords)
                    then Raise (CoordinateHasTwoComputers c)
                    else Ok (<[c := cc]> coords))
                 coords (elements (CoordComputer.coords cc)))
        coords ccs = Ok coords' →
  conflict_free (dom coords) ccs
  ∧ ∀ c cc, coords' !! c = Some cc
            ↔ coords !! c = Some cc ∨ (cc ∈ ccs ∧ c ∈ CoordComputer.coords cc).
Proof.
  revert coords. induction ccs as [|cc0 ccs IH]; intros coords H.
  - injection H as <-. split; [done|]. intros c cc. split; [by left|].
    intros [?|[Hin _]]; [done|]. by apply elem_of_nil in Hin.
  - cbn [foldM] in H. apply bind_Ok in H as (coords1 & H1 & H).
    destruct (init_coordinates_index _ _ _ _ H1) as [Hfresh Hlook1].
    destruct (IH _ H) as [Hfree Hlook].
    assert (dom coords1 = dom coords ∪ CoordComputer.coords cc0) as Hdom.
    { apply set_eq. intros c. rewrite elem_of_dom, Hlook1, elem_of_union, elem_of_dom.
      destruct (decide (c ∈ elements (CoordComputer.coords cc0))) as [Hc|Hc].
      - apply elem_of_elements in Hc. split; [by right|by eexists].
      - rewrite elem_of_elements in Hc. tauto. }
    split.
    + cbn [conflict_free]. rewrite <- Hdom. split; [|done].
      apply elem_of_disjoint. intros c Hc Hd. apply (Hfresh c); [|done].
      by apply elem_of_elements.
    + intros c cc. rewrite Hlook, Hlook1.
      destruct (decide (c ∈ elements (CoordComputer.coords cc0))) as [Hc|Hc].
      * pose proof (Hfresh c Hc) as Hnone. apply not_elem_of_dom in Hnone.
        apply elem_of_elements in Hc. rewrite Hnone, elem_of_cons. split.
        -- intros [[= <-]|[? ?]]; right; split; try done; [by left|by right].
        -- intros [?|[[->|Hin] Hcc]]; [done|by left|].
           right. by split.
      * rewrite elem_of_elements in Hc. rewrite elem_of_cons. split.
        -- intros [?|[? ?]]; [by left|]. right. split; [by right|done].
        -- intros [?|[[->|Hin] Hcc]]; [by left|done|]. right. by split.
Qed.

(** X4: [initialize] succeeds exactly when no coordinate is produced by two
    computers of the registry; the instance it returns is bound to the
    registry, has [continue_on_error] unset, and its index sends a coordinate
    to a computer exactly when that computer is declared and produces it. *)
Theorem initialize_indexes_each_coordinate (db : Database.t) :
  (conflict_free ∅ (Database.coord_computers db) → ∃ self, initialize db = Ok self)
  ∧ ∀ self,
      initialize db = Ok self →
      conflict_free ∅ (Database.coord_computers db)
      ∧ DatabaseInstance.db self = db
      ∧ continue_on_error self = false
      ∧ ∀ c cc, coords self !! c = Some cc
                ↔ cc ∈ Database.coord_computers db ∧ c ∈ CoordComputer.coords cc.
Proof.
  unfold initialize, __init__. split.
  - intros Hfree. destruct (init_computers_spec (Database.coord_computers db) ∅) as [Hok _].
    rewrite dom_empty_L in Hok. destruct (Hok Hfree) as (coords' & ->). by eexists.
  - intros self H. apply bind_Ok in H as (coords' & H & [= <-]).
    destruct (init_computers_index _ _ _ H) as [Hfree Hlook].
    rewrite dom_empty_L in Hfree. split_and!; [done..|].
    intros c cc. rewrite Hlook, lookup_empty. cbn [coords]. split; [|by right].
    intros [?|?]; done.
Qed.

(** ** Declarations *)

Lemma dict_get_None {V} (d : list (string * V)) (k : string) :
  dict_get d k = None ↔ k ∉ d.*1.
Proof.
  unfold dict_get. induction d as [|[k' v'] d IH]; cbn.
  - split; [intros _; apply not_elem_of_nil|done].
  - case_bool_decide as Hk; cbn in *.
    + subst k'. split; [done|]. intros Hn. exfalso. apply Hn. by left.
    + rewrite IH. rewrite not_elem_of_cons. split; [by split|by intros [_ ?]].
Qed.

Lemma dict_get_app {V} (d : list (string * V)) (k k' : string) (v : V) :
  dict_get (d ++ [(k, v)]) k'
  = match dict_get d k' with
    | Some x => Some x
    | None => if decide (k = k') then Some v else None
    end.
Proof.
  unfold dict_get. induction d as [|[k0 v0] d IH]; cbn.
  - case_bool_decide; cbn; by rewrite ?decide_True, ?decide_False by done.
  - case_bool_decide; cbn; [done|]. apply IH.
Qed.

Lemma declare_data_inv (self self' : Database.t) (d : Data.t) :
  Database.declare self (AData d) = Ok self' →
  dict_get (Database.data self) (Data.name d) = None
  ∧ dict_get (Database.data self') (Data.name d) = Some d
  ∧ (∀ k, k ≠ Data.name d →
          dict_get (Database.data self') k = dict_get (Database.data self) k)
  ∧ Database.coord_computers self' = Database.coord_computers self
  ∧ Database.name self' = Database.name self
  ∧ Database.declare self' (AData d) = Raise (DataAlreadyExists (Data.name d)).
Proof.
  cbn [Database.declare]. case_bool_decide as Hin; [done|]. intros [= <-].
  cbn [Database.data Database.coord_computers Database.name].
  unfold dict_set. rewrite bool_decide_eq_false_2 by done.
  pose proof (proj2 (dict_get_None _ _) Hin) as Hnone.
  split_and!; [done| | |done|done|].
  - by rewrite dict_get_app, Hnone, decide_True.
  - intros k Hk. rewrite dict_get_app. destruct (dict_get _ k); [done|].
    by rewrite decide_False.
  - rewrite bool_decide_eq_true_2; [done|]. rewrite fmap_app. apply elem_of_app.
    right. by left.
Qed.

Lemma declare_data_lookups (ds : list Data.t) (res res' : Database.t) :
  foldM (fun res d => Database.declare res (AData d)) res ds = Ok res' →
  (∀ d, d ∈ ds → dict_get (Database.data res') (Data.name d) = Some d)
  ∧ (∀ k, dict_get (Database.data res) k ≠ None →
          dict_get (Database.data res') k = dict_get (Database.data res) k)
  ∧ Database.coord_computers res' = Database.coord_computers res
  ∧ Database.name res' = Database.name res.
Proof.
  revert res. induction ds as [|d ds IH]; intros res H.
  - injection H as <-. split_and!; [|done..]. intros d Hd. by apply elem_of_nil in Hd.
  - cbn [foldM] in H. apply bind_Ok in H as (res1 & H1 & H).
    destruct (declare_data_inv _ _ _ H1)
      as (Hfree & Hd & Hother & Hccs & Hname & _).
    destruct (IH _ H) as (Hall & Hkeep & Hccs' & Hname').
    split_and!; [| |congruence..].
    + intros d' Hd'. apply elem_of_cons in Hd' as [->|Hd']; [|auto].
      rewrite Hkeep; [done|]. by rewrite Hd.
    + intros k Hk. assert (k ≠ Data.name d) as Hne by (intros ->; done).
      rewrite Hkeep; [by apply Hother|]. by rewrite Hother.
Qed.

(** X5: a successful [declare] of a data object registers it under its name,
    which was free before, leaves the other names and the computers as they
    were, and makes a second [declare] of the same object fail. *)
Theorem declare_data_registers_the_name (self self' : Database.t) (d : Data.t) :
  Database.declare self (AData d) = Ok self' →
  dict_get (Database.data self) (Data.name d) = None
  ∧ dict_get (Database.data self') (Data.name d) = Some d
  ∧ (∀ k, k ≠ Data.name d →
          dict_get (Database.data self') k = dict_get (Database.data self) k)
  ∧ Database.coord_computers self' = Database.coord_computers self
  ∧ Database.name self' = Database.name self
  ∧ Database.declare self' (AData d) = Raise (DataAlreadyExists (Data.name d)).
Proof. apply declare_data_inv. Qed.

Lemma join_fold_lookups (dbs : list Database.t) (res res' : Database.t) :
  foldM (fun res db =>
           res ← foldM (fun res cc => Database.declare res (ACoordComputer cc)) res
                       (Database.coord_computers db);
           foldM (fun res d => Database.declare res (AData d)) res (Database.data db).*2)
        res dbs = Ok res' →
  (∀ db d, db ∈ dbs → d ∈ (Database.data db).*2 →
           dict_get (Database.data res') (Data.name d) = Some d)
  ∧ (∀ k, dict_get (Database.data res) k ≠ None →
          dict_get (Database.data res') k = dict_get (Database.data res) k)
  ∧ Database.name res' = Database.name res.
Proof.
  revert res. induction dbs as [|db dbs IH]; intros res H.
  - injection H as <-. split_and!; [|done..]. intros db d Hdb. by apply elem_of_nil in Hdb.
  - cbn [foldM] in H. apply bind_Ok in H as (res2 & H2 & H).
    rewrite declare_coord_computers in H2. cbn [mbind result_bind] in H2.
    destruct (declare_data_lookups _ _ _ H2) as (Hall & Hkeep & _ & Hname).
    cbn [Database.data Database.name] in Hkeep, Hname.
    destruct (IH _ H) as (IHall & IHkeep & IHname).
    split_and!; [| |congruence].
    + intros db' d Hdb Hd. apply elem_of_cons in Hdb as [->|Hdb]; [|eauto].
      rewrite IHkeep; [by apply Hall|]. by rewrite Hall.
    + intros k Hk. rewrite IHkeep; [by apply Hkeep|]. by rewrite Hkeep.
Qed.

(** X6: the registry returned by [join] bears the name given, or the default
    name built from the names of the registries, and resolves the name of
    every data object of every registry to that object. *)
Theorem join_keeps_every_data (dbs : list Database.t) (new_name : option string)
    (res : Database.t) :
  Database.join dbs new_name = Ok res →
  Database.name res
  = default ("Joined(" +:+ Database.str_join ", " (map Database.name dbs) +:+ ")") new_name
  ∧ ∀ db d, db ∈ dbs → d ∈ (Database.data db).*2 →
            dict_get (Database.data res) (Data.name d) = Some d.
Proof.
  unfold Database.join. intros H.
  destruct (join_fold_lookups _ _ _ H) as (Hall & _ & Hname). by split.
Qed.

(** ** What a filter keeps *)

Lemma mask_select_sublist {A} (l : list A) (mask : list bool) :
  mask_select l mask `sublist_of` l.
Proof.
  revert mask. induction l as [|x l IH]; intros [|b mask]; cbn;
    try apply sublist_nil_l.
  destruct b; [by apply sublist_skip|by apply sublist_cons].
Qed.

Lemma mapM_column {A} (p : value → result A) (df : DataFrame) (s : string) (m : list A) :
  mapM p (column df s) = Ok m →
  mapM (fun r => p (cell (columns df) r s)) (rows df) = Ok m.
Proof.
  unfold column. revert m. induction (rows df) as [|y l IH]; intros m Hm; [done|].
  cbn in Hm |- *. destruct (p _) as [b| |]; [|done..]. cbn in Hm |- *.
  destruct (mapM _ (map _ l)) as [m'| |] eqn:Hl; [|done..].
  by rewrite (IH m' eq_refl).
Qed.

Lemma mask_select_mapM_intro {A} (p : A → result bool) (l : list A) (mask : list bool) (x : A) :
  mapM p l = Ok mask → x ∈ l → p x = Ok true → x ∈ mask_select l mask.
Proof.
  revert mask. induction l as [|y l IH]; intros mask Hm Hx Hp.
  - by apply elem_of_nil in Hx.
  - cbn in Hm. apply bind_Ok in Hm as (b & Hb & Hm).
    apply bind_Ok in Hm as (mask' & Hmask & [= <-]). cbn.
    apply elem_of_cons in Hx as [<-|Hx].
    + rewrite Hp in Hb. injection Hb as <-. by left.
    + destruct b; [right|]; eauto.
Qed.

Lemma mask_select_and_intro {A} (p1 p2 : A → result bool) (l : list A)
    (m1 m2 : list bool) (x : A) :
  mapM p1 l = Ok m1 → mapM p2 l = Ok m2 →
  x ∈ l → p1 x = Ok true → p2 x = Ok true →
  x ∈ mask_select l (zip_with andb m1 m2).
Proof.
  revert m1 m2. induction l as [|y l IH]; intros m1 m2 H1 H2 Hx Hp1 Hp2.
  - by apply elem_of_nil in Hx.
  - cbn in H1, H2. apply bind_Ok in H1 as (b1 & Hb1 & H1).
    apply bind_Ok in H1 as (m1' & Hm1 & [= <-]).
    apply bind_Ok in H2 as (b2 & Hb2 & H2).
    apply bind_Ok in H2 as (m2' & Hm2 & [= <-]). cbn.
    apply elem_of_cons in Hx as [<-|Hx].
    + rewrite Hp1 in Hb1. rewrite Hp2 in Hb2. injection Hb1 as <-. injection Hb2 as <-.
      by left.
    + destruct (b1 && b2); [right|]; eauto.
Qed.

Lemma filter_entry_complete (df df' : DataFrame) (s : string) (v : selector) (r : list value) :
  _filter_entry df (s, v) = Ok df' → r ∈ rows df →
  (s ∈ columns df → satisfies v (cell (columns df) r s)) →
  r ∈ rows df'.
Proof.
  unfold _filter_entry. case_bool_decide as Hs; [|by intros [= <-]].
  intros H Hr Hsat. specialize (Hsat Hs).
  destruct v as [vs|start stop step|p|v]; cbn [satisfies] in Hsat.
  - injection H as <-. unfold column. cbn [loc rows]. rewrite map_map.
    apply (mask_select_map (fun r => isin vs (cell (columns df) r s))); [done|].
    by apply bool_decide_eq_true_2.
  - destruct Hsat as [Hge Hlt].
    apply bind_Ok in H as (m1 & Hm1 & H). apply bind_Ok in H as (m2 & Hm2 & H).
    destruct (truthy start) eqn:Hts, (truthy stop) eqn:Hte.
    + destruct (mapM (fun x => pd_ge x start) (column df s)) as [a1| |] eqn:Ha1; [|done..].
      destruct (mapM (fun x => pd_lt x stop) (column df s)) as [a2| |] eqn:Ha2; [|done..].
      cbn in Hm1, Hm2. injection Hm1 as <-. injection Hm2 as <-. injection H as <-.
      cbn [loc rows].
      eapply mask_select_and_intro; [by apply mapM_column|by apply mapM_column|done|auto..].
    + destruct (mapM (fun x => pd_ge x start) (column df s)) as [a1| |] eqn:Ha1; [|done..].
      cbn in Hm1, Hm2. injection Hm1 as <-. injection Hm2 as <-. injection H as <-.
      cbn [loc rows]. eapply mask_select_mapM_intro; [by apply mapM_column|done|auto].
    + destruct (mapM (fun x => pd_lt x stop) (column df s)) as [a2| |] eqn:Ha2; [|done..].
      cbn in Hm1, Hm2. injection Hm1 as <-. injection Hm2 as <-. injection H as <-.
      cbn [loc rows]. eapply mask_select_mapM_intro; [by apply mapM_column|done|auto].
    + injection Hm1 as <-. injection Hm2 as <-. done.
  - apply bind_Ok in H as (mask & Hmask & [= <-]). cbn [loc rows].
    eapply mask_select_mapM_intro; [by apply mapM_column|done|done].
  - injection H as <-. unfold column. cbn [loc rows]. rewrite map_map.
    by apply (mask_select_map (fun r => pd_eq (cell (columns df) r s) v)).
Qed.

Lemma filter_entry_sublist (df df' : DataFrame) (sv : string * selector) :
  _filter_entry df sv = Ok df' → rows df' `sublist_of` rows df.
Proof.
  destruct sv as [s v]. unfold _filter_entry. case_bool_decide as Hs; [|by intros [= <-]].
  destruct v as [vs|start stop step|p|v].
  - intros [= <-]. apply mask_select_sublist.
  - intros H. apply bind_Ok in H as (m1 & _ & H). apply bind_Ok in H as (m2 & _ & H).
    destruct m1, m2; try discriminate; injection H as <-; apply mask_select_sublist.
  - intros H. apply bind_Ok in H as (m & _ & [= <-]). apply mask_select_sublist.
  - intros [= <-]. apply mask_select_sublist.
Qed.

(** X7: when [_filter] returns, the frame has the columns of the input, its
    rows are rows of the input in their order, and a row of the input is kept
    exactly when it passes the test of every entry whose column the frame
    has. *)
Theorem filter_keeps_exactly_the_passing_rows (selection_dict : selection)
    (df df' : DataFrame) :
  _filter df selection_dict = Ok df' →
  columns df' = columns df
  ∧ rows df' `sublist_of` rows df
  ∧ ∀ r, r ∈ rows df'
         ↔ r ∈ rows df
           ∧ ∀ s v, (s, v) ∈ selection_dict → s ∈ columns df →
                    satisfies v (cell (columns df) r s).
Proof.
  unfold _filter. revert df. induction selection_dict as [|[s v] sel IH]; intros df H.
  - injection H as <-. split_and!; [done..|]. intros r. split; [|by intros [? _]].
    intros Hr. split; [done|]. intros s v Hin. by apply elem_of_nil in Hin.
  - cbn [foldM] in H. apply bind_Ok in H as (df1 & H1 & H).
    destruct (IH _ H) as (Hcols & Hsub & Hiff).
    pose proof (filter_entry_columns _ _ _ H1) as Hcols1.
    split_and!; [congruence|by etrans; [|eapply filter_entry_sublist]|].
    intros r. rewrite Hiff. split.
    + intros [Hr1 Hall]. destruct (filter_entry_sound _ _ _ _ _ H1 Hr1) as [Hr0 Hsat].
      split; [done|]. intros s' v' Hin Hs'.
      apply elem_of_cons in Hin as [[= -> ->]|Hin]; [by apply Hsat|].
      rewrite <- Hcols1. apply Hall; [done|]. by rewrite Hcols1.
    + intros [Hr0 Hall]. split.
      * eapply filter_entry_complete; [done..|]. intros Hs. apply Hall; [by left|done].
      * intros s' v' Hin Hs'. rewrite Hcols1. apply Hall; [by right|]. by rewrite <- Hcols1.
Qed.

(** ** The frame returned by a resolution *)

Lemma collapse_keys (names : gset string) (df res : DataFrame) :
  collapse names df = Ok res →
  map (group_key res (elements names)) (rows res)
  ≡ₚ first_occurrences (map (group_key df (elements names))
                            (live_rows df (elements names))).
Proof.
  intros Hc. destruct (collapse_inv _ _ _ Hc) as (Hsize & groups & Hg).
  rewrite (collapse_Ok _ _ _ Hsize Hg) in Hc. injection Hc as <-.
  unfold group_key at 1. cbn [columns rows]. rewrite map_map.
  rewrite (map_ext _ (group_key df (elements names))).
  2:{ intros r. apply reindex_reindex. intros k Hk. by eapply keys_survive. }
  change (group_key df (elements names) <$> representatives df (elements names) groups
          ≡ₚ first_occurrences (map (group_key df (elements names))
                                    (live_rows df (elements names)))).
  rewrite (representatives_Permutation _ _ _ Hg), <- list_fmap_compose.
  change (map (fun g => group_key df (elements names) (hd [] (rows g))) groups
          ≡ₚ first_occurrences (map (group_key df (elements names))
                                    (live_rows df (elements names)))).
  rewrite (groups_keys _ _ _ Hg). apply sort_keys_Permutation.
Qed.

(** X8: the collapse returns one row for each combination of the requested
    columns that occurs, without a missing cell, in a row of the joined frame:
    read on the requested columns, the rows returned are pairwise distinct and
    are exactly those combinations. *)
Theorem collapse_has_one_row_per_combination (names : gset string) (df res : DataFrame) :
  collapse names df = Ok res →
  NoDup (map (group_key res (elements names)) (rows res))
  ∧ ∀ k, k ∈ map (group_key res (elements names)) (rows res)
         ↔ ∃ r, r ∈ rows df
                ∧ group_key df (elements names) r = k
                ∧ ∀ v, v ∈ k → isna v = false.
Proof.
  intros Hc. pose proof (collapse_keys _ _ _ Hc) as Hkeys.
  split; [rewrite Hkeys; apply NoDup_first_occurrences|].
  intros k. rewrite Hkeys, elem_of_first_occurrences, list_elem_of_In, in_map_iff.
  unfold live_rows. split.
  - intros (r & <- & Hr). apply list_elem_of_In, list_elem_of_filter in Hr as [Hna Hr].
    exists r. split_and!; [done..|]. intros v Hv. rewrite forallb_forall in Hna.
    apply list_elem_of_In, Hna in Hv. by destruct (isna v).
  - intros (r & Hr & <- & Hna). exists r. split; [done|].
    apply list_elem_of_In, list_elem_of_filter. split; [|done].
    apply forallb_forall. intros v Hv. apply list_elem_of_In, Hna in Hv. by rewrite Hv.
Qed.

Lemma collapse_requested (names : gset string) (df res : DataFrame) (n : string) :
  collapse names df = Ok res → n ∈ names →
  n ∈ columns res ∧ ∀ r, r ∈ rows res → isna (cell (columns res) r n) = false.
Proof.
  intros Hc Hn. destruct (collapse_inv _ _ _ Hc) as (Hsize & groups & Hg).
  rewrite (collapse_Ok _ _ _ Hsize Hg) in Hc. injection Hc as <-. cbn [columns rows].
  assert (n ∈ elements names) as Hn' by (by apply elem_of_elements).
  pose proof (keys_survive _ _ _ _ Hg Hn') as Hsurv. split; [done|].
  intros r Hr. apply list_elem_of_In, in_map_iff in Hr as (r1 & <- & Hin).
  apply list_elem_of_In in Hin. rewrite cell_reindex by done.
  rewrite (representatives_Permutation _ _ _ Hg) in Hin.
  apply list_elem_of_In, in_map_iff in Hin as (g & <- & Hin). apply list_elem_of_In in Hin.
  destruct (group_facts _ _ _ _ Hg Hin) as (_ & (r0 & rs & Hrows) & Hall).
  destruct (Hall r0) as (_ & _ & Hna); [rewrite Hrows; by left|].
  rewrite Hrows. cbn [hd]. apply Hna.
  apply list_elem_of_In, in_map_iff. exists n. by rewrite <- list_elem_of_In.
Qed.

(** X9: when [get_coords] returns a frame, every requested name has a
    computer, is a column of the frame, and has no missing cell in it. *)
Theorem get_coords_returns_the_requested_columns (fuel : nat) (self : DatabaseInstance.t)
    (names : list string) (selection_dict selection_kwargs : selection) (res : DataFrame)
    (n : string) :
  get_coords fuel self names selection_dict selection_kwargs = Ok res →
  n ∈ names →
  is_Some (coords self !! n)
  ∧ n ∈ columns res
  ∧ ∀ r, r ∈ rows res → isna (cell (columns res) r n) = false.
Proof.
  unfold get_coords, _get_coords_impl. intros H Hn.
  apply bind_Ok in H as (all_names & Hdeps & H). apply bind_Ok in H as (df & _ & H).
  assert (n ∈ (list_to_set names : gset string)) as Hn' by (by apply elem_of_list_to_set).
  split.
  - destruct (get_dependencies_closure _ _ _ _ Hdeps) as (Hsub & Hclosed & _).
    destruct (Hclosed n (Hsub n Hn')) as (cc & -> & _). by eexists.
  - by apply (collapse_requested _ _ _ _ H).
Qed.

(** X10: asking for no coordinate at all raises the error of the code,
    whatever the registry and the filter. *)
Theorem get_coords_of_no_name_raises (fuel : nat) (self : DatabaseInstance.t)
    (selection_dict selection_kwargs : selection) :
  get_coords (S fuel) self [] selection_dict selection_kwargs = Raise Strange.
Proof.
  unfold get_coords, _get_coords_impl. cbn [list_to_set foldr _get_dependencies].
  rewrite elements_empty. cbn [foldM mbind result_bind].
  assert (∀ ccs sel, join_loop (S fuel) ccs sel ∅ unit_frame = Ok unit_frame) as ->.
  { intros ccs sel. cbn [join_loop]. rewrite bool_decide_eq_true_2; [done|].
    apply empty_subseteq. }
  cbn [mbind result_bind]. unfold collapse. by rewrite size_empty.
Qed.

(** ** Locations *)

Lemma collapse_rows_length (names : gset string) (df res : DataFrame) (r : list value) :
  collapse names df = Ok res → r ∈ rows res → length r = length (columns res).
Proof.
  intros Hc Hr. destruct (collapse_inv _ _ _ Hc) as (Hsize & groups & Hg).
  rewrite (collapse_Ok _ _ _ Hsize Hg) in Hc. injection Hc as <-. cbn [columns rows] in *.
  apply list_elem_of_In, in_map_iff in Hr as (g & <- & _). unfold reindex.
  by rewrite length_map.
Qed.

Lemma get_coords_rows_length (fuel : nat) (self : DatabaseInstance.t) (names : list string)
    (selection_dict selection_kwargs : selection) (res : DataFrame) (r : list value) :
  get_coords fuel self names selection_dict selection_kwargs = Ok res →
  r ∈ rows res → length r = length (columns res).
Proof.
  unfold get_coords, _get_coords_impl. intros H.
  apply bind_Ok in H as (all_names & _ & H). apply bind_Ok in H as (df & _ & H).
  by apply collapse_rows_length with (names := list_to_set names) (df := df).
Qed.

Lemma mapM_Forall2 {A B} (f : A → result B) (l : list A) (k : list B) :
  mapM f l = Ok k → Forall2 (fun x y => f x = Ok y) l k.
Proof.
  revert k. induction l as [|x l IH]; intros k H.
  - injection H as <-. constructor.
  - cbn in H. apply bind_Ok in H as (y & Hy & H).
    apply bind_Ok in H as (k' & Hk & [= <-]). constructor; auto.
Qed.

Lemma cell_app_new (cols : list string) (r : list value) (k : string) (v : value) :
  k ∉ cols → length r = length cols → cell (cols ++ [k]) (r ++ [v]) k = v.
Proof.
  revert r. induction cols as [|c cols IH]; intros [|x r] Hk Hlen; try done.
  - cbn. by rewrite decide_True.
  - cbn. apply not_elem_of_cons in Hk as [Hne Hk].
    rewrite decide_False by done. apply IH; [done|]. by injection Hlen.
Qed.

Lemma located_rows (cols : list string) (rows : list (list value)) (location : list value) :
  "location" ∉ cols →
  Forall (fun r => length r = length cols) rows →
  length rows = length location →
  mask_select (zip_with (fun r v => r ++ [v]) rows location)
              (map (fun v => negb (isna v))
                   (map (fun r => cell (cols ++ ["location"]) r "location")
                        (zip_with (fun r v => r ++ [v]) rows location)))
  = located rows location.
Proof.
  intros Hk Hwf. unfold located. revert location.
  induction Hwf as [|r rows Hr _ IH]; intros [|v location] Hlen; try done.
  injection Hlen as Hlen. cbn [zip_with map mask_select].
  rewrite cell_app_new by done. rewrite filter_cons. cbn [snd fst].
  rewrite (IH location Hlen). destruct (isna v); cbn [negb].
  - by rewrite decide_False by done.
  - by rewrite decide_True by done.
Qed.

(** X12: when [get_locations] returns, the data name is declared, the
    coordinates of its dependencies resolve, and, [location] not being one of
    their columns, the frame returned has the column [location] added and
    holds exactly the coordinate rows whose location is not missing, each
    with the value its location function returns for it. *)
Theorem get_locations_appends_the_locations (fuel : nat) (self : DatabaseInstance.t)
    (name : string) (selection_dict selection_kwargs : selection) (locs : DataFrame) :
  get_locations fuel self name selection_dict selection_kwargs = Ok locs →
  ∃ d coords location,
    dict_get (Database.data (db self)) name = Some d
    ∧ get_coords fuel self (elements (Data.dependencies d)) selection_dict selection_kwargs
      = Ok coords
    ∧ Forall2 (fun row v => Data.get_location d (to_dict (columns coords) row) = Ok v)
              (rows coords) location
    ∧ ("location" ∉ columns coords →
       columns locs = columns coords ++ ["location"]
       ∧ rows locs = located (rows coords) location).
Proof.
  unfold get_locations. destruct (dict_get _ _) as [d|]; [|done]. intros H.
  apply bind_Ok in H as (coords & Hcoords & H).
  apply bind_Ok in H as (location & Hloc & [= <-]).
  exists d, coords, location. apply mapM_Forall2 in Hloc as Hall.
  split_and!; [done..|]. intros Hk. unfold setitem_series.
  rewrite bool_decide_eq_false_2 by done. unfold loc, column. cbn [columns rows].
  split; [done|]. apply located_rows; [done| |by eapply Forall2_length].
  apply Forall_forall. intros r Hr. by eapply get_coords_rows_length.
Qed.

(** X13: no row returned by [get_locations] has a missing location. *)
Theorem get_locations_drops_missing_locations (fuel : nat) (self : DatabaseInstance.t)
    (name : string) (selection_dict selection_kwargs : selection) (locs : DataFrame)
    (r : list value) :
  get_locations fuel self name selection_dict selection_kwargs = Ok locs →
  r ∈ rows locs →
  "location" ∈ columns locs ∧ isna (cell (columns locs) r "location") = false.
Proof.
  intros H Hr. split; [by eapply get_locations_columns|]. revert H Hr.
  unfold get_locations. destruct (dict_get _ _) as [d|]; [|done]. intros H.
  apply bind_Ok in H as (coords & Hcoords & H).
  apply bind_Ok in H as (location & Hloc & [= <-]).
  unfold loc, column. cbn [columns rows]. rewrite map_map. intros Hr.
  apply (mask_select_map_true
           (fun r => negb (isna (cell (columns (setitem_series coords "location" location))
                                      r "location")))) in Hr.
  by apply negb_true_iff in Hr.
Qed.

(** ** More on the dispatcher *)

(** X14: the action [location] calls nothing: when the locations resolve
    without a repeated location, [run_action] returns them as they are and
    leaves the world untouched; with [single] set and exactly one row it
    returns the location of that row. *)
Theorem run_action_location_returns_the_locations (fuel : nat) (self : DatabaseInstance.t)
    (target : string) (selection_dict : selection) (single : bool)
    (selection_kwargs : selection) (w : World) (locs : DataFrame) :
  get_locations fuel self target selection_dict selection_kwargs = Ok locs →
  existsb id (duplicated (column locs "location") []) = false →
  run_action fuel self "location" target selection_dict single selection_kwargs w
  = ({| world := w; invoked := [] |},
     if single then Single <$> _extract_single locs "location" else Ok (Table locs))
  ∧ ∀ row, rows locs = [row] →
           _extract_single locs "location" = Ok (cell (columns locs) row "location").
Proof.
  intros Hlocs Hdup. split.
  - unfold run_action. rewrite Hlocs, Hdup. rewrite bool_decide_eq_true_2 by done.
    cbn [negb mbind result_bind]. by destruct single.
  - intros row Hrow. unfold _extract_single. rewrite Hrow. cbn [length Nat.eqb negb].
    rewrite bool_decide_eq_true_2; [done|]. by eapply get_locations_columns.
Qed.

Lemma dispatch_unknown_action (coe : bool) (action target : string) (cols : list string)
    (rows : list (list value)) (tr : trace) (results : list value) (errors : list exn) :
  dispatch coe action target None cols tr results errors rows
  = match rows with
    | [] => (tr, Ok (results, errors))
    | row :: _ =>
        if coe then
          (tr, Ok (results,
                   errors ++ map (fun row => WithNote (KeyError action)
                                               (NoteDuring action target (call_of cols row).1
                                                           (call_of cols row).2)) rows))
        else (tr, Raise (WithNote (KeyError action)
                                  (NoteDuring action target (call_of cols row).1
                                              (call_of cols row).2)))
    end.
Proof.
  revert errors. induction rows as [|row rows IH]; intros errors; [done|].
  cbn [dispatch dispatch_row]. destruct tr as [w inv]. destruct coe; cbn [negb]; [|done].
  rewrite IH. destruct rows as [|row' rows]; cbn [map].
  - done.
  - by rewrite <- app_assoc.
Qed.

(** X15: an action name that the data object does not define is found out row
    by row: no action is called and the world is untouched; without any row
    the call returns normally, with [continue_on_error] it raises a group
    holding one [KeyError] per row, and without it the [KeyError] of the first
    row. *)
Theorem run_action_of_an_unknown_action (fuel : nat) (self : DatabaseInstance.t)
    (action target : string) (selection_dict : selection) (single : bool)
    (selection_kwargs : selection) (w : World) (locs : DataFrame) (d : Data.t) :
  get_locations fuel self target selection_dict selection_kwargs = Ok locs →
  existsb id (duplicated (column locs "location") []) = false →
  action ≠ "location" →
  dict_get (Database.data (db self)) target = Some d →
  dict_get (Data.actions d) action = None →
  let failure row :=
    WithNote (KeyError action)
             (NoteDuring action target (call_of (columns locs) row).1
                         (call_of (columns locs) row).2) in
  run_action fuel self action target selection_dict single selection_kwargs w
  = ({| world := w; invoked := [] |},
     match rows locs with
     | [] => attached locs action single []
     | row :: _ =>
         if continue_on_error self
         then Raise (ExceptionGroup ("During " +:+ action +:+ " for " +:+ target)
                                    (map failure (rows locs)))
         else Raise (failure row)
     end).
Proof.
  intros Hlocs Hdup Hact Hd Ha failure. unfold run_action. rewrite Hlocs, Hdup.
  rewrite bool_decide_eq_false_2 by done. cbn [negb]. rewrite Hd. cbn [mbind option_bind].
  rewrite Ha, dispatch_unknown_action.
  destruct (rows locs) as [|row rows]; [by destruct single|].
  destruct (continue_on_error self); [|done]. cbn [app map length Nat.ltb Nat.leb]. done.
Qed.

Lemma dispatch_successes (coe : bool) (action target : string) (act : ActionProtocol)
    (g : value → dict → value) (cols : list string) (rows : list (list value))
    (tr : trace) (results : list value) (errors : list exn) :
  (∀ w location others, (act w location others).2 = Ok (g location others)) →
  ∃ w',
    dispatch coe action target (Some act) cols tr results errors rows
    = ({| world := w'; invoked := invoked tr ++ map (call_of cols) rows |},
       Ok (results ++ map (fun row => g (call_of cols row).1 (call_of cols row).2) rows,
           errors)).
Proof.
  intros Hg. revert tr results. induction rows as [|row rows IH]; intros tr results.
  - exists (world tr). cbn. rewrite !app_nil_r. by destruct tr.
  - rewrite dispatch_cons. cbn zeta. rewrite Hg.
    destruct (IH {| world := (act (world tr) (call_of cols row).1 (call_of cols row).2).1;
                    invoked := invoked tr ++ [call_of cols row] |}
                 (results ++ [g (call_of cols row).1 (call_of cols row).2]))
      as (w' & ->).
    exists w'. cbn [invoked map]. by rewrite <- !app_assoc.
Qed.

(** X16: when the action succeeds on every call, with a result that depends
    on the location and the coordinates only, [run_action] calls it once per
    row, in the order of the rows, and attaches the results in that order as
    the column named after the action, whether [continue_on_error] is set or
    not. *)
Theorem run_action_attaches_the_results_in_order (fuel : nat) (self : DatabaseInstance.t)
    (action target : string) (selection_dict : selection) (single : bool)
    (selection_kwargs : selection) (w : World)
    (locs : DataFrame) (d : Data.t) (act : ActionProtocol) (g : value → dict → value) :
  get_locations fuel self target selection_dict selection_kwargs = Ok locs →
  existsb id (duplicated (column locs "location") []) = false →
  action ≠ "location" →
  dict_get (Database.data (db self)) target = Some d →
  dict_get (Data.actions d) action = Some act →
  (∀ w location others, (act w location others).2 = Ok (g location others)) →
  ∃ w',
    run_action fuel self action target selection_dict single selection_kwargs w
    = ({| world := w'; invoked := map (call_of (columns locs)) (rows locs) |},
       attached locs action single
                (map (fun row => g (call_of (columns locs) row).1
                                   (call_of (columns locs) row).2) (rows locs))).
Proof.
  intros Hlocs Hdup Hact Hd Ha Hg. unfold run_action. rewrite Hlocs, Hdup.
  rewrite bool_decide_eq_false_2 by done. cbn [negb]. rewrite Hd. cbn [mbind option_bind].
  rewrite Ha.
  destruct (dispatch_successes (continue_on_error self) action target act g (columns locs)
              (rows locs) {| world := w; invoked := [] |} [] [] Hg) as (w' & ->).
  exists w'. cbn [app length Nat.ltb Nat.leb invoked]. by destruct single.
Qed.

(** ** Saving *)

Lemma string_length_app (s1 s2 : string) :
  String.length (s1 +:+ s2) = (String.length s1 + String.length s2)%nat.
Proof. induction s1 as [|c s1 IH]; simpl; [done|]. by f_equal. Qed.

Lemma substring_all (s : string) : substring 0 (String.length s) s = s.
Proof. induction s as [|c s IH]; simpl; [done|]. by f_equal. Qed.

Lemma substring_split (s : string) (i : nat) :
  (i ≤ String.length s)%nat →
  substring 0 i s +:+ substring i (String.length s - i) s = s.
Proof.
  revert i. induction s as [|c s IH]; intros [|i] Hi; simpl in *; try lia.
  - done.
  - by rewrite substring_all.
  - change (String c (substring 0 i s +:+ substring i (String.length s - i) s)
            = String c s).
    f_equal. apply IH. lia.
Qed.

Lemma string_app_empty (s : string) : s +:+ EmptyString = s.
Proof.
  induction s as [|c s IH]; [done|].
  change (String c (s +:+ EmptyString) = String c s). by f_equal.
Qed.

Lemma stem_suffix (path : Path) : stem path +:+ suffix path = name path.
Proof.
  unfold stem, suffix, split_name. destruct (rfind_dot _ _ _) as [i|]; cbn [fst snd].
  - destruct ((0 <? i) && (i <? String.length (name path) - 1))%nat eqn:Hi; cbn [fst snd].
    + apply substring_split. apply andb_true_iff in Hi as [_ Hi].
      apply Nat.ltb_lt in Hi. lia.
    + apply string_app_empty.
  - apply string_app_empty.
Qed.

Lemma tmp_path_differs (path : Path) : tmp_path path ≠ path.
Proof.
  intros Heq. assert (name (tmp_path path) = name path) as Hname by (by rewrite Heq).
  cbn [tmp_path name] in Hname.
  assert (String.length (stem path +:+ ".tmp" +:+ suffix path)
          = String.length (stem path +:+ suffix path) + 4)%nat as Hlen.
  { rewrite !string_length_app. cbn [String.length]. lia. }
  rewrite Hname, stem_suffix in Hlen. lia.
Qed.

Lemma default_saver_spec (io : Writers) (w w' : World) (path : Path) (o : saved)
    (r : result unit) :
  default_saver io w path o = (w', r) →
  w' = {[path]} ∪ w ∨ (w' = w ∧ ∃ e, r = Raise e).
Proof.
  unfold default_saver. destruct o as [df range_index|v].
  - case_bool_decide; [destruct range_index; cbn [negb]|]; intros [= <- <-]; eauto.
  - intros [= <- <-]. eauto.
Qed.

Lemma safe_save_default (io : Writers) (w w' : World) (path : Path) (o : saved)
    (r : result unit) :
  safe_save (default_saver io) w path o = (w', r) →
  match r with
  | Ok _ => ∀ q, q ∈ w' ↔ q = path ∨ (q ∈ w ∧ q ≠ tmp_path path)
  | _ => w' = w ∨ w' = {[tmp_path path]} ∪ w
  end.
Proof.
  unfold safe_save. fold (tmp_path path).
  destruct (default_saver io w (tmp_path path) o) as [w1 r1] eqn:Hsave.
  destruct (default_saver_spec _ _ _ _ _ _ Hsave) as [->|(-> & e & ->)].
  - destruct r1 as [u|e|].
    + unfold shutil_move, path_exists. rewrite bool_decide_eq_true_2.
      2:{ apply elem_of_union. left. by apply elem_of_singleton. }
      intros [= <- <-]. intros q.
      rewrite elem_of_union, elem_of_singleton, elem_of_difference, elem_of_union,
        !elem_of_singleton.
      pose proof (tmp_path_differs path). split.
      * intros [?|[[?|?] ?]]; [by left|done|by right].
      * intros [?|[? ?]]; [by left|]. right. split; [by right|done].
    + intros [= <- <-]. by right.
    + intros [= <- <-]. by right.
  - intros [= <- <-]. by left.
Qed.

Lemma orphan_spares_the_target (w w' : World) (path : Path) :
  w' = w ∨ w' = {[tmp_path path]} ∪ w → path ∈ w' ↔ path ∈ w.
Proof.
  intros [->| ->]; [done|]. rewrite elem_of_union, elem_of_singleton.
  pose proof (tmp_path_differs path). split; [intros [?|?]; [congruence|done]|by right].
Qed.

(** X17: [safe_save] around [default_saver] publishes or leaves the target
    alone: when it returns, the target exists, the temporary sibling (another
    path of the same directory) does not, and every other file is as before;
    when it does not, no file has gone, the target is there exactly if it was
    before, and the only file that can have appeared is the temporary
    sibling, left behind by a write that failed. *)
Theorem safe_save_publishes_or_leaves_the_files (io : Writers) (w w' : World) (path : Path)
    (o : saved) (r : result unit) :
  safe_save (default_saver io) w path o = (w', r) →
  tmp_path path ≠ path
  ∧ parent (tmp_path path) = parent path
  ∧ match r with
    | Ok _ => ∀ q, q ∈ w' ↔ q = path ∨ (q ∈ w ∧ q ≠ tmp_path path)
    | _ => (w' = w ∨ w' = {[tmp_path path]} ∪ w) ∧ (path ∈ w' ↔ path ∈ w)
    end.
Proof.
  intros H. split; [apply tmp_path_differs|]. split; [done|].
  pose proof (safe_save_default _ _ _ _ _ _ H) as Hr.
  destruct r; [done|split; [done|by apply orphan_spares_the_target]..].
Qed.

(** X18: the function built by [cache] around [default_saver] either finds the
    artifact and calls nothing, or calls the wrapped function once; in the
    second case, when it returns, it returns the target, and the files are
    those the wrapped function left if it returned [None], or those with the
    target published and the temporary sibling gone if it returned an object;
    when it does not return, the files are those the wrapped function left,
    but for the temporary sibling that a failed write of the object leaves
    behind, and the target is there exactly if the wrapped function left it
    there. *)
Theorem cache_calls_once_and_publishes_or_not (io : Writers) (force_recompute : bool)
    (f : Cached) (w w' : World) (out_location : Path) (coords : dict) (calls : list Path)
    (r : result Path) :
  cache (default_saver io) force_recompute f w out_location coords = (w', calls, r) →
  (calls = [] ∧ force_recompute = false ∧ path_exists w out_location = true
   ∧ w' = w ∧ r = Ok out_location)
  ∨ (calls = [out_location]
     ∧ (force_recompute = true ∨ path_exists w out_location = false)
     ∧ ∃ wf rf,
         f w out_location coords = (wf, rf)
         ∧ match r with
           | Ok p =>
               p = out_location
               ∧ ((rf = Ok None ∧ w' = wf)
                  ∨ (∃ res, rf = Ok (Some res)
                            ∧ ∀ q, q ∈ w' ↔ q = out_location
                                            ∨ (q ∈ wf ∧ q ≠ tmp_path out_location)))
           | _ =>
               (w' = wf
                ∨ (∃ res, rf = Ok (Some res)) ∧ w' = {[tmp_path out_location]} ∪ wf)
               ∧ (out_location ∈ w' ↔ out_location ∈ wf)
           end).
Proof.
  unfold cache. destruct (path_exists w out_location && negb force_recompute) eqn:Hhit.
  - intros [= <- <- <-]. left. apply andb_true_iff in Hhit as [? Hf].
    apply negb_true_iff in Hf. done.
  - intros H. right.
    assert (force_recompute = true ∨ path_exists w out_location = false) as Hmiss.
    { apply andb_false_iff in Hhit as [?|Hf]; [by right|left].
      by apply negb_false_iff in Hf. }
    destruct (f w out_location coords) as [wf rf] eqn:Hf.
    destruct rf as [[res|]|e|].
    + destruct (safe_save (default_saver io) wf out_location res) as [w2 r2] eqn:Hsave.
      pose proof (safe_save_default _ _ _ _ _ _ Hsave) as Hw.
      destruct r2 as [u|e|]; injection H as <- <- <-; (split_and!; [done..|]);
        exists wf, (Ok (Some res)); (split; [done|]).
      * split; [done|]. right. eauto.
      * split; [|by apply orphan_spares_the_target]. destruct Hw as [?|?]; eauto.
      * split; [|by apply orphan_spares_the_target]. destruct Hw as [?|?]; eauto.
    + injection H as <- <- <-. split_and!; [done..|]. exists wf, (Ok None).
      split; [done|]. split; [done|]. by left.
    + injection H as <- <- <-. split_and!; [done..|]. exists wf, (Raise e).
      split; [done|]. split; [by left|done].
    + injection H as <- <- <-. split_and!; [done..|]. exists wf, Timeout.
      split; [done|]. split; [by left|done].
Qed.

(** X19: [singleglob] returns a path exactly when the patterns yield one
    match in all, a path that several patterns yield being counted once per
    pattern; otherwise it raises [FileNotFoundError]; and the [only_ok] mode
    answers [True] exactly when the plain call returns a path. *)
Theorem singleglob_finds_the_only_match (glob : string → list Path) (patterns : list string) :
  (∀ path, singleglob glob patterns false = Ok (Found path)
           ↔ concat (map glob patterns) = [path])
  ∧ ((∃ path, singleglob glob patterns false = Ok (Found path))
     ∨ singleglob glob patterns false = Raise FileNotFoundError)
  ∧ ∃ b, singleglob glob patterns true = Ok (OnlyOk b)
         ∧ (b = true ↔ ∃ path, singleglob glob patterns false = Ok (Found path)).
Proof.
  unfold singleglob.
  assert ((pat ← patterns; glob pat) = concat (map glob patterns)) as ->.
  { induction patterns as [|p ps IH]; [done|]. cbn. by rewrite <- IH. }
  destruct (concat (map glob patterns)) as [|x [|y l]]; cbn.
  - split_and!; [intros path; split; intros; done|by right|].
    exists false. split; [done|]. split; [done|]. by intros [? ?].
  - split_and!; [intros path; split; intros [= ->]; done|left; eauto|].
    exists true. split; [done|]. split; eauto.
  - split_and!; [intros path; split; intros; done|by right|].
    exists false. split; [done|]. split; [done|]. by intros [? ?].
Qed.

(** X11: asking [get_coords] for the single value of one name returns the
    cell of the only row when the resolution has exactly one row, and this
    cell is not missing; with any other number of rows it raises the
    single-line error; the name is never reported as a missing column. *)
Theorem get_coords_single_value (fuel : nat) (self : DatabaseInstance.t) (n : string)
    (selection_dict selection_kwargs : selection) (res : DataFrame) :
  get_coords fuel self [n] selection_dict selection_kwargs = Ok res →
  get_coords_single fuel self [n] selection_dict selection_kwargs
  = match rows res with
    | [r] => Ok (Scalar (cell (columns res) r n))
    | _ => Raise (ExpectedSingleLine res)
    end
  ∧ ∀ r, rows res = [r] → isna (cell (columns res) r n) = false.
Proof.
  intros H. unfold get_coords_single. rewrite H. cbn [mbind result_bind].
  assert (n ∈ [n]) as Hn by (by left).
  assert (n ∈ columns res ∧ ∀ r, r ∈ rows res → isna (cell (columns res) r n) = false)
    as [Hcol Hna].
  { revert H. unfold get_coords, _get_coords_impl. intros H.
    apply bind_Ok in H as (all_names & _ & H). apply bind_Ok in H as (df & _ & H).
    apply (collapse_requested _ _ _ _ H). by apply elem_of_list_to_set. }
  split.
  - unfold _extract_single. destruct (rows res) as [|r [|r' rs]]; cbn; [done| |done].
    by rewrite bool_decide_eq_true_2.
  - intros r Hr. apply Hna. rewrite Hr. by left.
Qed.

(** ** Row-wise computers *)

(** X20: a computer built by [from_function] cannot be run on a frame without
    rows: the scan of the resolution then fails with the [ValueError] of
    [pd.concat], annotated with the coordinates being computed, instead of
    returning an empty frame. *)
Theorem rowwise_computer_fails_without_rows (coords : option (list string))
    (dependencies : option (gset string)) (name : string) (parameters : list string) (f : dict → result fn_return)
    (selection_dict : selection) (all_names : gset string) (df : DataFrame) :
  let cc := CoordComputer.from_function coords dependencies name parameters f in
  rows df = [] →
  applicable cc all_names (columns df) = true →
  visit selection_dict all_names df cc
  = Raise (WithNote ValueError (NoteWhileComputing (CoordComputer.coords cc))).
Proof.
  intros cc Hrows Happ. unfold visit, computed. rewrite Happ.
  assert (∀ c, c ∈ elements (CoordComputer.dependencies cc) → c ∈ columns df) as Hdeps.
  { intros c Hc. unfold applicable in Happ. apply andb_true_iff in Happ as [Happ _].
    apply andb_true_iff in Happ as [_ Hsub]. apply bool_decide_eq_true in Hsub.
    apply elem_of_elements in Hc. apply Hsub in Hc. by apply elem_of_list_to_set in Hc. }
  rewrite getitem_list_Ok by done. rewrite Hrows. cbn [map mbind result_bind].
  assert (∀ cs, drop_duplicates {| columns := cs; rows := [] |}
                = {| columns := cs; rows := [] |}) as -> by (by intros []).
  done.
Qed.

Lemma cell_map (cs : list string) (g : string → value) (c : string) :
  c ∈ cs → cell cs (map g cs) c = g c.
Proof.
  induction cs as [|k cs IH]; intros Hc; [by apply elem_of_nil in Hc|].
  cbn. destruct (decide (k = c)) as [->|Hne]; [done|].
  apply IH. apply elem_of_cons in Hc as [?|?]; congruence.
Qed.

Lemma cell_app_old (cols : list string) (r : list value) (k c : string) (v : value) :
  c ≠ k → length r = length cols → cell (cols ++ [k]) (r ++ [v]) c = cell cols r c.
Proof.
  intros Hc. revert r. induction cols as [|c' cols IH]; intros [|x r] Hlen; try done.
  - cbn. by rewrite decide_False.
  - cbn. destruct (decide (c' = c)); [done|]. apply IH. by injection Hlen.
Qed.

Lemma setitem_scalar_spec (df : DataFrame) (k : string) (v : value) :
  rectangular df →
  rectangular (setitem_scalar df k v)
  ∧ (∀ c, c ∈ columns (setitem_scalar df k v) ↔ c ∈ columns df ∨ c = k)
  ∧ (rows df = [] ↔ rows (setitem_scalar df k v) = [])
  ∧ ∀ r', r' ∈ rows (setitem_scalar df k v) →
          cell (columns (setitem_scalar df k v)) r' k = v
          ∧ ∃ r, r ∈ rows df
                 ∧ ∀ c, c ≠ k →
                        cell (columns (setitem_scalar df k v)) r' c = cell (columns df) r c.
Proof.
  intros Hwf. unfold setitem_scalar, rectangular in *.
  case_bool_decide as Hk; cbn [columns rows].
  - split_and!.
    + apply Forall_forall. intros r' Hr'.
      apply list_elem_of_In, in_map_iff in Hr' as (r & <- & _). by rewrite length_map.
    + intros c. split; [by left|]. by intros [?| ->].
    + by destruct (rows df).
    + intros r' Hr'. apply list_elem_of_In, in_map_iff in Hr' as (r & <- & Hr).
      split.
      * rewrite (cell_map _ (fun c => if decide (c = k) then v else cell (columns df) r c))
          by done. by rewrite decide_True.
      * exists r. split; [by apply list_elem_of_In|]. intros c Hc.
        destruct (decide (c ∈ columns df)) as [Hin|Hin].
        -- rewrite (cell_map _ (fun c => if decide (c = k) then v
                                         else cell (columns df) r c)) by done.
           by rewrite decide_False.
        -- assert (∀ cs (r0 r1 : list value), c ∉ cs → cell cs r0 c = cell cs r1 c) as Hno.
           { clear. induction cs as [|k cs IH]; intros r0 r1 Hc; [by destruct r0, r1|].
             apply not_elem_of_cons in Hc as [? ?].
             destruct r0, r1; cbn; rewrite ?decide_False by done; try done.
             - clear IH. revert r1. induction cs as [|k' cs IH]; intros r1; [by destruct r1|].
               apply not_elem_of_cons in H0 as [? ?].
               destruct r1; cbn; [done|]. rewrite decide_False by done. by apply IH.
             - clear IH. revert r0. induction cs as [|k' cs IH]; intros r0; [by destruct r0|].
               apply not_elem_of_cons in H0 as [? ?].
               destruct r0; cbn; [done|]. rewrite decide_False by done. by apply IH.
             - by apply IH. }
           by apply Hno.
  - split_and!.
    + apply Forall_forall. intros r' Hr'.
      apply list_elem_of_In, in_map_iff in Hr' as (r & <- & Hr).
      apply list_elem_of_In in Hr.
      pose proof (proj1 (Forall_forall _ _) Hwf r Hr) as Hlen.
      rewrite (length_app r), (length_app (columns df)). by rewrite Hlen.
    + intros c. rewrite elem_of_app, list_elem_of_singleton. tauto.
    + by destruct (rows df).
    + intros r' Hr'. apply list_elem_of_In, in_map_iff in Hr' as (r & <- & Hr).
      apply list_elem_of_In in Hr.
      pose proof (proj1 (Forall_forall _ _) Hwf r Hr) as Hlen.
      split; [by apply cell_app_new|].
      exists r. split; [done|]. intros c Hc. by apply cell_app_old.
Qed.

Lemma setitems_spec (d : dict) (tmp : DataFrame) :
  NoDup d.*1 → rectangular tmp →
  let tmp' := foldl (fun tmp kv => setitem_scalar tmp kv.1 kv.2) tmp d in
  rectangular tmp'
  ∧ (∀ c, c ∈ columns tmp' ↔ c ∈ columns tmp ∨ c ∈ d.*1)
  ∧ ∀ r', r' ∈ rows tmp' →
          (∀ k v, (k, v) ∈ d → cell (columns tmp') r' k = v)
          ∧ ∃ r, r ∈ rows tmp
                 ∧ ∀ c, c ∉ d.*1 → cell (columns tmp') r' c = cell (columns tmp) r c.
Proof.
  revert tmp. induction d as [|[k v] d IH]; intros tmp Hnd Hwf; cbn [foldl fst snd].
  - split_and!; [done| |].
    + intros c. split; [by left|]. intros [?|Hc]; [done|]. by apply elem_of_nil in Hc.
    + intros r' Hr'. split; [intros k v Hin; by apply elem_of_nil in Hin|]. by exists r'.
  - cbn [fmap list_fmap fst] in Hnd. apply NoDup_cons in Hnd as [Hk Hnd].
    destruct (setitem_scalar_spec tmp k v Hwf) as (Hwf1 & Hcols1 & _ & Hrows1).
    destruct (IH _ Hnd Hwf1) as (Hwf' & Hcols' & Hrows'). cbn zeta in *.
    split_and!; [done| |].
    + intros c. rewrite Hcols', Hcols1. cbn [fmap list_fmap fst]. rewrite elem_of_cons. tauto.
    + intros r' Hr'. destruct (Hrows' r' Hr') as (Hset & r1 & Hr1 & Hsame).
      destruct (Hrows1 r1 Hr1) as (Hk1 & r & Hr & Hsame1). split.
      * intros k' v' Hin. apply elem_of_cons in Hin as [[= -> ->]|Hin]; [|eauto].
        by rewrite Hsame.
      * exists r. split; [done|]. intros c Hc. cbn [fmap list_fmap fst] in Hc.
        apply not_elem_of_cons in Hc as [Hne Hc]. rewrite Hsame by done. by apply Hsame1.
Qed.

Lemma zip_cell (cols : list string) (row : list value) (k : string) :
  length row = length cols → k ∈ cols → (k, cell cols row k) ∈ zip cols row.
Proof.
  revert row. induction cols as [|c cols IH]; intros [|x row] Hlen Hk; try done.
  - by apply elem_of_nil in Hk.
  - cbn. destruct (decide (c = k)) as [->|Hne]; [by left|].
    right. apply IH; [by injection Hlen|]. apply elem_of_cons in Hk as [?|?]; congruence.
Qed.

Lemma zip_keys (cols : list string) (row : list value) :
  length row = length cols → (zip cols row).*1 = cols.
Proof. intros Hlen. apply fst_zip. lia. Qed.

Lemma adapt_return_spec (coords : list string) (f : dict → result fn_return) (d : dict)
    (res : DataFrame) :
  (∀ d df', f d = Ok (RetFrame df') → rectangular df') →
  CoordComputer.adapt_return coords f d = Ok res →
  rectangular res ∧ ∀ c, c ∈ coords → c ∈ columns res.
Proof.
  intros Hf H. unfold CoordComputer.adapt_return in H.
  apply bind_Ok in H as (ret & Hret & H). apply bind_Ok in H as (res' & Hres & H).
  case_bool_decide as Hsub; [|done]. injection H as <-. split.
  - destruct ret as [df'|data].
    + injection Hres as <-. by eapply Hf.
    + unfold CoordComputer.frame_of_data in Hres.
      destruct (forallb _ data) eqn:Hall; [|done]. injection Hres as <-.
      apply Forall_forall. intros r Hr. rewrite forallb_forall in Hall.
      apply list_elem_of_In, Hall in Hr. by apply Nat.eqb_eq in Hr.
  - intros c Hc. apply (elem_of_list_to_set (C := gset string)), Hsub in Hc.
    by apply elem_of_list_to_set in Hc.
Qed.

Lemma rowwise_pieces (coords : list string) (f : dict → result fn_return)
    (param : DataFrame) (rs : list (list value)) (acc pieces : list DataFrame) :
  (∀ d df', f d = Ok (RetFrame df') → rectangular df') →
  NoDup (columns param) →
  (∀ r, r ∈ rs → r ∈ rows param ∧ length r = length (columns param)) →
  Forall (carries coords f param) acc →
  foldM (fun tmp_dfs row =>
           let d := to_dict (columns param) row in
           tmp ← with_note (NoteParameters d) (CoordComputer.adapt_return coords f d);
           let tmp := foldl (fun tmp kv => setitem_scalar tmp kv.1 kv.2) tmp d in
           Ok (tmp_dfs ++ [tmp])) acc rs = Ok pieces →
  Forall (carries coords f param) pieces.
Proof.
  intros Hf Hnd. revert acc. induction rs as [|row rs IH]; intros acc Hrs Hacc H.
  - by injection H as <-.
  - cbn [foldM] in H. apply bind_Ok in H as (acc' & Hstep & H).
    cbn zeta in Hstep. apply bind_Ok in Hstep as (tmp & Htmp & [= <-]).
    destruct (Hrs row) as [Hrow Hlen]; [by left|].
    assert (CoordComputer.adapt_return coords f (to_dict (columns param) row) = Ok tmp)
      as Hadapt by (by destruct (CoordComputer.adapt_return _ _ _)).
    destruct (adapt_return_spec _ _ _ _ Hf Hadapt) as [Hwf Hcoords].
    destruct (setitems_spec (to_dict (columns param) row) tmp) as (_ & Hcols & Hcells);
      [unfold to_dict; by rewrite zip_keys|done|]. cbn zeta in *.
    unfold to_dict in Hcols, Hcells. rewrite zip_keys in Hcols, Hcells by done.
    eapply IH; [|clear H|exact H].
    { intros r Hr. apply Hrs. by right. }
    apply Forall_app. split; [done|]. apply Forall_singleton. split.
    + intros c Hc. apply Hcols. destruct Hc as [Hc|Hc]; [left; by apply Hcoords|by right].
    + intros r' Hr'. destruct (Hcells r' Hr') as (Hset & r & Hr & Hsame).
      exists row, tmp, r. split_and!; try done.
      * intros k Hk. apply Hset. by apply zip_cell.
      * intros c _ Hc. by apply Hsame.
Qed.

(** X21: a row-wise computer calls its function once per row of the
    parameters and returns the results one after the other: the frame has the
    coordinates and the parameters among its columns, and each of its rows is
    a row that the function gave for some row of the parameters, with the
    parameters of that call written into it. *)
Theorem rowwise_writes_back_the_parameters (coords : list string)
    (f : dict → result fn_return) (df res : DataFrame) :
  (∀ d df', f d = Ok (RetFrame df') → rectangular df') →
  NoDup (columns df) → rectangular df →
  CoordComputer.rowwise (CoordComputer.adapt_return coords f) df = Ok res →
  (∀ c, c ∈ coords ∨ c ∈ columns df → c ∈ columns res)
  ∧ ∀ r', r' ∈ rows res →
          ∃ row tmp r,
            row ∈ rows df
            ∧ CoordComputer.adapt_return coords f (to_dict (columns df) row) = Ok tmp
            ∧ r ∈ rows tmp
            ∧ (∀ k, k ∈ columns df → cell (columns res) r' k = cell (columns df) row k)
            ∧ ∀ c, c ∈ coords → c ∉ columns df →
                   cell (columns res) r' c = cell (columns tmp) r c.
Proof.
  intros Hf Hnd Hwf H. unfold CoordComputer.rowwise in H.
  apply bind_Ok in H as (pieces & Hpieces & H).
  apply rowwise_pieces in Hpieces; [|done|done| |done].
  2: { intros r Hr. split; [done|]. by apply (proj1 (Forall_forall _ _) Hwf). }
  unfold pd_concat in H. destruct pieces as [|p ps] eqn:Heq; [done|].
  assert (∃ p0, p0 ∈ pieces) as [p0 Hp0] by (exists p; rewrite Heq; by left).
  rewrite <- Heq in *. clear Heq p ps. injection H as <-. cbn [columns rows].
  assert (∀ p c, p ∈ pieces → c ∈ columns p → c ∈ union_labels pieces) as Hunion.
  { intros p c Hp Hc. unfold union_labels. apply elem_of_first_occurrences.
    apply list_elem_of_In, in_concat. exists (columns p).
    split; [apply in_map; by apply list_elem_of_In|by apply list_elem_of_In]. }
  split.
  - intros c Hc. apply (Hunion p0); [done|].
    by apply (proj1 (Forall_forall _ _) Hpieces p0 Hp0).
  - intros r' Hr'. apply list_elem_of_In, in_concat in Hr' as (l & Hl & Hr').
    apply in_map_iff in Hl as (p & <- & Hp). apply in_map_iff in Hr' as (r0 & <- & Hr0).
    apply list_elem_of_In in Hp, Hr0.
    destruct (proj1 (Forall_forall _ _) Hpieces p Hp) as [Hcols Hrows].
    destruct (Hrows r0 Hr0) as (row & tmp & r & Hrow & Htmp & Hr & Hparams & Hcoords).
    exists row, tmp, r. split_and!; try done.
    + intros k Hk. rewrite cell_reindex; [by apply Hparams|].
      apply (Hunion p); [done|]. apply Hcols. by right.
    + intros c Hc Hno. rewrite cell_reindex; [by apply Hcoords|].
      apply (Hunion p); [done|]. apply Hcols. by left.
Qed.

(** ** The properties at work *)

Lemma get_dependencies_is_the_closure_example :
  let coords := coords (Scenario.instance [Scenario.a; Scenario.b] [] false) in
  ∃ res,
    _get_dependencies 3 coords {["b"]} = Ok res
    ∧ {["b"]} ⊆ res
    ∧ closed_under_dependencies coords res
    ∧ ∀ S, {["b"]} ⊆ S → closed_under_dependencies coords S → res ⊆ S.
Proof.
  eexists. split; [vm_compute; reflexivity|].
  apply (get_dependencies_is_the_closure 3
           (coords (Scenario.instance [Scenario.a; Scenario.b] [] false)) {["b"]}).
  vm_compute. reflexivity.
Defined.

Lemma initialize_indexes_each_coordinate_example :
  ∃ self,
    initialize (Database.mk "db" [Scenario.a; Scenario.b] []) = Ok self
    ∧ DatabaseInstance.db self = Database.mk "db" [Scenario.a; Scenario.b] []
    ∧ continue_on_error self = false.
Proof.
  destruct (initialize_indexes_each_coordinate (Database.mk "db" [Scenario.a; Scenario.b] []))
    as [Hok Hall].
  destruct Hok as [self Hself].
  { cbn. split_and!; [set_solver|set_solver|done]. }
  destruct (Hall self Hself) as (_ & Hdb & Hflag & _). by exists self.
Defined.

Lemma declare_data_registers_the_name_example :
  ∃ self',
    Database.declare (Database.new "db") (AData Scenario.art) = Ok self'
    ∧ dict_get (Database.data self') "art" = Some Scenario.art
    ∧ Database.declare self' (AData Scenario.art) = Raise (DataAlreadyExists "art").
Proof.
  eexists. split; [vm_compute; reflexivity|].
  destruct (declare_data_registers_the_name (Database.new "db") _ Scenario.art eq_refl)
    as (_ & Hget & _ & _ & _ & Hagain).
  by split.
Defined.

Lemma join_keeps_every_data_example :
  ∃ res,
    Database.join [Scenario.left_db; Scenario.right_db] None = Ok res
    ∧ Database.name res = "Joined(left, right)"
    ∧ dict_get (Database.data res) "twin" = Some Scenario.twin.
Proof.
  eexists. split; [vm_compute; reflexivity|].
  destruct (join_keeps_every_data [Scenario.left_db; Scenario.right_db] None _ eq_refl)
    as [Hname Hdata].
  split; [exact Hname|].
  apply (Hdata Scenario.right_db Scenario.twin).
  - right. left.
  - left.
Defined.

Lemma filter_keeps_exactly_the_passing_rows_example :
  ∃ df',
    _filter fan_out [("a", SelValue (VInt 2))] = Ok df'
    ∧ columns df' = columns fan_out
    ∧ rows df' `sublist_of` rows fan_out
    ∧ ∀ r, r ∈ rows df'
           ↔ r ∈ rows fan_out
             ∧ ∀ s v, (s, v) ∈ [("a", SelValue (VInt 2))] → s ∈ columns fan_out →
                      satisfies v (cell (columns fan_out) r s).
Proof.
  eexists. split; [vm_compute; reflexivity|].
  apply (filter_keeps_exactly_the_passing_rows [("a", SelValue (VInt 2))] fan_out).
  vm_compute. reflexivity.
Defined.

Lemma collapse_has_one_row_per_combination_example :
  ∃ res,
    collapse {["a"]} fan_out = Ok res
    ∧ NoDup (map (group_key res (elements ({["a"]} : gset string))) (rows res))
    ∧ ∀ k, k ∈ map (group_key res (elements ({["a"]} : gset string))) (rows res)
           ↔ ∃ r, r ∈ rows fan_out
                  ∧ group_key fan_out (elements ({["a"]} : gset string)) r = k
                  ∧ ∀ v, v ∈ k → isna v = false.
Proof.
  eexists. split; [vm_compute; reflexivity|].
  apply (collapse_has_one_row_per_combination {["a"]} fan_out).
  vm_compute. reflexivity.
Defined.

Lemma get_coords_returns_the_requested_columns_example :
  let self := Scenario.instance [Scenario.a; Scenario.b] [] false in
  ∃ res,
    get_coords 3 self ["b"] [] [] = Ok res
    ∧ is_Some (coords self !! "b")
    ∧ "b" ∈ columns res
    ∧ ∀ r, r ∈ rows res → isna (cell (columns res) r "b") = false.
Proof.
  eexists. split; [vm_compute; reflexivity|].
  apply (get_coords_returns_the_requested_columns 3
           (Scenario.instance [Scenario.a; Scenario.b] [] false) ["b"] [] []).
  - vm_compute. reflexivity.
  - left.
Defined.

Lemma get_locations_appends_the_locations_example :
  let self := Scenario.instance [Scenario.a] [Scenario.art] false in
  ∃ locs d coords location,
    get_locations 2 self "art" [] [] = Ok locs
    ∧ dict_get (Database.data (db self)) "art" = Some d
    ∧ get_coords 2 self (elements (Data.dependencies d)) [] [] = Ok coords
    ∧ Forall2 (fun row v => Data.get_location d (to_dict (columns coords) row) = Ok v)
              (rows coords) location
    ∧ ("location" ∉ columns coords →
       columns locs = columns coords ++ ["location"]
       ∧ rows locs = located (rows coords) location).
Proof.
  destruct (get_locations_appends_the_locations 2
              (Scenario.instance [Scenario.a] [Scenario.art] false) "art" [] []
              {| columns := ["a"; "location"];
                 rows := [[VInt 1; VInt 1]; [VInt 2; VInt 2]; [VInt 3; VInt 3]] |})
    as (d & coords & location & H).
  - vm_compute. reflexivity.
  - eexists _, d, coords, location. split; [vm_compute; reflexivity|exact H].
Defined.

Lemma get_locations_drops_missing_locations_example :
  let locs := {| columns := ["a"; "location"];
                 rows := [[VInt 1; VInt 1]; [VInt 2; VInt 2]; [VInt 3; VInt 3]] |} in
  get_locations 2 (Scenario.instance [Scenario.a] [Scenario.art] false) "art" [] [] = Ok locs
  ∧ "location" ∈ columns locs
  ∧ isna (cell (columns locs) [VInt 2; VInt 2] "location") = false.
Proof.
  split; [vm_compute; reflexivity|].
  apply (get_locations_drops_missing_locations 2
           (Scenario.instance [Scenario.a] [Scenario.art] false) "art" [] []).
  - vm_compute. reflexivity.
  - right. left.
Defined.

Lemma run_action_location_returns_the_locations_example :
  let self := Scenario.instance [Scenario.a] [Scenario.art] false in
  let locs := {| columns := ["a"; "location"];
                 rows := [[VInt 1; VInt 1]; [VInt 2; VInt 2]; [VInt 3; VInt 3]] |} in
  run_action 2 self "location" "art" [] false [] ∅
  = ({| world := ∅; invoked := [] |}, Ok (Table locs)).
Proof.
  refine (proj1 (run_action_location_returns_the_locations 2
                   (Scenario.instance [Scenario.a] [Scenario.art] false)
                   "art" [] false [] ∅
                   {| columns := ["a"; "location"];
                      rows := [[VInt 1; VInt 1]; [VInt 2; VInt 2]; [VInt 3; VInt 3]] |}
                   _ _)).
  - vm_compute. reflexivity.
  - reflexivity.
Defined.

Lemma run_action_of_an_unknown_action_example :
  let self := Scenario.instance [Scenario.a] [Scenario.art] false in
  run_action 2 self "erase" "art" [] false [] ∅
  = ({| world := ∅; invoked := [] |},
     Raise (WithNote (KeyError "erase")
                     (NoteDuring "erase" "art" (VInt 1) [("a", VInt 1)]))).
Proof.
  refine (run_action_of_an_unknown_action 2
            (Scenario.instance [Scenario.a] [Scenario.art] false)
            "erase" "art" [] false [] ∅
            {| columns := ["a"; "location"];
               rows := [[VInt 1; VInt 1]; [VInt 2; VInt 2]; [VInt 3; VInt 3]] |}
            Scenario.art _ _ _ _ _).
  - vm_compute. reflexivity.
  - reflexivity.
  - discriminate.
  - reflexivity.
  - reflexivity.
Defined.

Lemma run_action_attaches_the_results_in_order_example :
  let self := Scenario.instance [Scenario.a] [echo] false in
  let locs := {| columns := ["a"; "location"];
                 rows := [[VInt 1; VInt 1]; [VInt 2; VInt 2]; [VInt 3; VInt 3]] |} in
  ∃ w',
    run_action 2 self "compute" "echo" [] false [] ∅
    = ({| world := w'; invoked := map (call_of (columns locs)) (rows locs) |},
       attached locs "compute" false [VInt 1; VInt 2; VInt 3]).
Proof.
  refine (run_action_attaches_the_results_in_order 2
            (Scenario.instance [Scenario.a] [echo] false)
            "compute" "echo" [] false [] ∅
            {| columns := ["a"; "location"];
               rows := [[VInt 1; VInt 1]; [VInt 2; VInt 2]; [VInt 3; VInt 3]] |}
            echo (fun w location _ => (w, Ok location)) (fun location _ => location)
            _ _ _ _ _ _).
  - vm_compute. reflexivity.
  - reflexivity.
  - discriminate.
  - reflexivity.
  - reflexivity.
  - reflexivity.
Defined.

Lemma safe_save_publishes_or_leaves_the_files_example :
  ∃ w' r,
    safe_save (default_saver Scenario.pickle_fails) ∅ some_target (SavedObject (VInt 1))
    = (w', r)
    ∧ tmp_path some_target ≠ some_target
    ∧ parent (tmp_path some_target) = parent some_target
    ∧ match r with
      | Ok _ => ∀ q, q ∈ w' ↔ q = some_target ∨ (q ∈ (∅ : World) ∧ q ≠ tmp_path some_target)
      | _ => (w' = ∅ ∨ w' = {[tmp_path some_target]} ∪ ∅)
             ∧ (some_target ∈ w' ↔ some_target ∈ (∅ : World))
      end.
Proof.
  eexists _, _. split; [reflexivity|].
  apply (safe_save_publishes_or_leaves_the_files Scenario.pickle_fails ∅ _ some_target
           (SavedObject (VInt 1))).
  reflexivity.
Defined.

Lemma cache_calls_once_and_publishes_or_not_example :
  let f : Cached := fun w _ _ => (w, Ok (Some (SavedObject (VInt 1)))) in
  ∃ w' calls r,
    cache (default_saver Scenario.writes_all) false f ∅ some_target [] = (w', calls, r)
    ∧ ((calls = [] ∧ false = false ∧ path_exists ∅ some_target = true
        ∧ w' = ∅ ∧ r = Ok some_target)
       ∨ (calls = [some_target]
          ∧ (false = true ∨ path_exists ∅ some_target = false)
          ∧ ∃ wf rf,
              f ∅ some_target [] = (wf, rf)
              ∧ match r with
                | Ok p =>
                    p = some_target
                    ∧ ((rf = Ok None ∧ w' = wf)
                       ∨ (∃ res, rf = Ok (Some res)
                                 ∧ ∀ q, q ∈ w' ↔ q = some_target
                                                 ∨ (q ∈ wf ∧ q ≠ tmp_path some_target)))
                | _ =>
                    (w' = wf
                     ∨ (∃ res, rf = Ok (Some res)) ∧ w' = {[tmp_path some_target]} ∪ wf)
                    ∧ (some_target ∈ w' ↔ some_target ∈ wf)
                end)).
Proof.
  intros f. eexists _, _, _. split; [reflexivity|].
  apply (cache_calls_once_and_publishes_or_not Scenario.writes_all false f ∅ _ some_target []).
  reflexivity.
Defined.

Lemma get_coords_single_value_example :
  let self := Scenario.instance [Scenario.single] [] false in
  get_coords_single 2 self ["a"] [] [] = Ok (Scalar (VInt 1)).
Proof.
  refine (proj1 (get_coords_single_value 2 (Scenario.instance [Scenario.single] [] false)
                   "a" [] [] {| columns := ["a"]; rows := [[VInt 1]] |} _)).
  vm_compute. reflexivity.
Defined.

Lemma rowwise_computer_fails_without_rows_example :
  visit [] {["b"]} {| columns := ["a"]; rows := [] |} Scenario.b
  = Raise (WithNote ValueError (NoteWhileComputing {["b"]})).
Proof.
  refine (rowwise_computer_fails_without_rows None None "b" ["a"] _ [] {["b"]}
            {| columns := ["a"]; rows := [] |} _ _).
  - reflexivity.
  - vm_compute. reflexivity.
Defined.

Lemma rowwise_writes_back_the_parameters_example :
  let df := {| columns := ["a"]; rows := [[VInt 1]; [VInt 2]] |} in
  ∃ res,
    CoordComputer.rowwise (CoordComputer.adapt_return ["b"] tenfold) df = Ok res
    ∧ (∀ c, c ∈ ["b"] ∨ c ∈ columns df → c ∈ columns res)
    ∧ ∀ r', r' ∈ rows res →
            ∃ row tmp r,
              row ∈ rows df
              ∧ CoordComputer.adapt_return ["b"] tenfold (to_dict (columns df) row) = Ok tmp
              ∧ r ∈ rows tmp
              ∧ (∀ k, k ∈ columns df → cell (columns res) r' k = cell (columns df) row k)
              ∧ ∀ c, c ∈ ["b"] → c ∉ columns df →
                     cell (columns res) r' c = cell (columns tmp) r c.
Proof.
  eexists. split; [vm_compute; reflexivity|].
  apply (rowwise_writes_back_the_parameters ["b"] tenfold
           {| columns := ["a"]; rows := [[VInt 1]; [VInt 2]] |}).
  - intros d df' H. unfold tenfold in H.
    destruct (dict_get d "a") as [[]|]; try discriminate.
    injection H as <-. repeat constructor.
  - repeat constructor; set_solver.
  - repeat constructor.
  - vm_compute. reflexivity.
Defined.

Lemma get_dependencies_returns_without_a_cycle_example :
  let coords : gmap string CoordComputer.t :=
    <["b" := Scenario.b]> {["a" := Scenario.a]} in
  ∃ res, _get_dependencies 3 coords {["b"]} = Ok res.
Proof.
  apply (get_dependencies_returns_without_a_cycle rank_a_b
           (<["b" := Scenario.b]> {["a" := Scenario.a]}) {["a"; "b"]} {["b"]} 2).
  - intros n Hn. apply elem_of_union in Hn as [Hn|Hn]; apply elem_of_singleton in Hn as ->.
    + exists Scenario.a. split; [reflexivity|]. intros m Hm. cbn in Hm. set_solver.
    + exists Scenario.b. split; [reflexivity|]. intros m Hm. cbn in Hm.
      assert (m = "a") as -> by set_solver.
      split; [set_solver|]. cbn. lia.
  - set_solver.
  - intros n Hn. apply elem_of_singleton in Hn as ->. cbn. lia.
Defined.

Lemma get_dependencies_never_returns_on_a_cycle_example :
  _get_dependencies 5 {["loop" := loop]} {["loop"]} ≠ Ok {["loop"]}.
Proof.
  apply (get_dependencies_never_returns_on_a_cycle {["loop" := loop]} {["loop"]}
           {["loop"]} "loop" 5 {["loop"]}).
  - intros n Hn cc Hcc. apply elem_of_singleton in Hn as ->.
    rewrite lookup_singleton_eq in Hcc. injection Hcc as <-.
    exists "loop". split; [vm_compute; set_solver|set_solver].
  - set_solver.
  - set_solver.
Defined.
